(** * markdown-to-blocks: a shallow embedding and its verified properties

    This development embeds [src/tools/utils/markdown-to-blocks.ts] in Rocq.

    - A JavaScript string is a sequence of UTF-16 code units; a code unit is
      a number ([N]), a string is a [list] of them.
    - The regular expressions of the source are values of the type [regex];
      they are run by a backtracking matcher that follows the ECMAScript
      semantics (ordered alternation, greedy and lazy quantifiers, capture
      groups, leftmost match for [exec]).
    - The loops of the source are recursive functions with a fuel argument;
      a run that exhausts its fuel yields [OutOfFuel], a property access on
      [undefined] yields [TypeError].  The theorems show that neither is
      ever produced. *)

From Stdlib Require Import Ascii String DecimalString.
From Stdlib Require Import List NArith Arith Bool Lia.
Import ListNotations.

Set Implicit Arguments.

(* ================================================================== *)
(** ** Strings *)

Module JS.

Definition char := N.
Definition jsstring := list char.

Definition ch (a : ascii) : char := N_of_ascii a.

(** A string literal of the source, as a sequence of code units. *)
Definition str (s : string) : jsstring := map ch (list_ascii_of_string s).

Definition TAB : char := 9%N.
Definition LF : char := 10%N.
Definition CR : char := 13%N.
Definition SP : char := 32%N.

Definition chareq (a b : char) : bool := N.eqb a b.

Fixpoint streq (a b : jsstring) : bool :=
  match a, b with
  | [], [] => true
  | x :: a', y :: b' => chareq x y && streq a' b'
  | _, _ => false
  end.

Definition isEmpty (s : jsstring) : bool :=
  match s with [] => true | _ => false end.

(** ECMAScript LineTerminator: LF, CR, U+2028, U+2029. *)
Definition isLineTerminator (c : char) : bool :=
  (c =? 10)%N || (c =? 13)%N || (c =? 8232)%N || (c =? 8233)%N.

(** ECMAScript WhiteSpace and LineTerminator; this is the set of [\s] and
    the set removed by [String.prototype.trim]. *)
Definition isWhiteSpace (c : char) : bool :=
  (c =? 9)%N || (c =? 10)%N || (c =? 11)%N || (c =? 12)%N || (c =? 13)%N
  || (c =? 32)%N || (c =? 160)%N || (c =? 5760)%N
  || ((8192 <=? c)%N && (c <=? 8202)%N)
  || (c =? 8232)%N || (c =? 8233)%N || (c =? 8239)%N || (c =? 8287)%N
  || (c =? 12288)%N || (c =? 65279)%N.

(** [\d] *)
Definition isDigit (c : char) : bool := (48 <=? c)%N && (c <=? 57)%N.

(** [\w] (no [i] or [u] flag): [A-Za-z0-9_] *)
Definition isWord (c : char) : bool :=
  ((65 <=? c)%N && (c <=? 90)%N) || ((97 <=? c)%N && (c <=? 122)%N)
  || isDigit c || (c =? 95)%N.

(** [.] without the [s] flag *)
Definition isDot (c : char) : bool := negb (isLineTerminator c).

(** [s] without its longest prefix of characters in [p]. *)
Fixpoint dropWhile (p : char -> bool) (s : jsstring) : jsstring :=
  match s with
  | [] => []
  | c :: tl => if p c then dropWhile p tl else s
  end.

(** [s] without its longest suffix of characters in [p]. *)
Fixpoint dropWhileEnd (p : char -> bool) (s : jsstring) : jsstring :=
  match s with
  | [] => []
  | c :: tl =>
      match dropWhileEnd p tl with
      | [] => if p c then [] else [c]
      | r => c :: r
      end
  end.

(** [String.prototype.trim] *)
Definition trim (s : jsstring) : jsstring :=
  dropWhileEnd isWhiteSpace (dropWhile isWhiteSpace s).

(** [slice(i, j)] of a string or an array, for [0 <= i] and [0 <= j]. *)
Definition slice {A : Type} (xs : list A) (i j : nat) : list A :=
  firstn (j - i) (skipn i xs).

(** [slice(i)] *)
Definition sliceFrom {A : Type} (xs : list A) (i : nat) : list A := skipn i xs.

(** [Array.prototype.join] *)
Fixpoint join (sep : jsstring) (xs : list jsstring) : jsstring :=
  match xs with
  | [] => []
  | [x] => x
  | x :: tl => x ++ sep ++ join sep tl
  end.

End JS.
Import JS.

(* ================================================================== *)
(** ** Outcomes of a JavaScript computation *)

Inductive outcome (A : Type) : Type :=
| Ok (a : A)
| TypeError
| OutOfFuel.

Arguments Ok {A} a.
Arguments TypeError {A}.
Arguments OutOfFuel {A}.

Definition bind {A B : Type} (x : outcome A) (f : A -> outcome B) : outcome B :=
  match x with
  | Ok a => f a
  | TypeError => TypeError
  | OutOfFuel => OutOfFuel
  end.

Notation "x <- e ;; k" := (bind e (fun x => k))
  (at level 61, e at next level, right associativity).

(** Reading a property of a value that may be [undefined]. *)
Definition defined {A : Type} (x : option A) : outcome A :=
  match x with
  | Some a => Ok a
  | None => TypeError
  end.

(* ================================================================== *)
(** ** Regular expressions with the ECMAScript backtracking semantics *)

Module Regex.

(** The fragment of the pattern language that the source uses.  Every
    quantifier of the source applies to a single character class, so
    [Quant] takes the class directly. *)
Inductive regex : Type :=
| Empty
| Char (p : char -> bool)
| Quant (greedy : bool) (lo : nat) (hi : option nat) (p : char -> bool)
| Seq (r1 r2 : regex)
| Alt (r1 r2 : regex)
| Group (n : nat) (r : regex)
| AssertStart
| AssertEnd.

Definition captures := list (nat * jsstring).

(** The state of a match in progress: the index reached in the input,
    the input from that index on, and the groups captured so far. *)
Record mstate : Type := MState {
  pos : nat;
  rest : jsstring;
  caps : captures
}.

Definition cont := mstate -> option mstate.

Fixpoint getCap (n : nat) (cs : captures) : option jsstring :=
  match cs with
  | [] => None
  | (i, s) :: tl => if Nat.eqb i n then Some s else getCap n tl
  end.

(** Group [n] has matched the input between [st] and [st']. *)
Definition capture (n : nat) (st st' : mstate) : mstate :=
  MState (pos st') (rest st')
         ((n, firstn (pos st' - pos st) (rest st)) :: caps st').

Definition hiZero (hi : option nat) : bool :=
  match hi with Some 0 => true | _ => false end.

(** One more iteration of a quantified class, then the remaining ones. *)
Fixpoint quant (greedy : bool) (p : char -> bool) (lo : nat) (hi : option nat)
               (k : cont) (i : nat) (s : jsstring) (cs : captures)
               {struct s} : option mstate :=
  match lo with
  | S lo' =>
      match s with
      | c :: tl =>
          if p c && negb (hiZero hi)
          then quant greedy p lo' (option_map Nat.pred hi) k (S i) tl cs
          else None
      | [] => None
      end
  | 0 =>
      if greedy then
        match
          match s with
          | c :: tl =>
              if p c && negb (hiZero hi)
              then quant greedy p 0 (option_map Nat.pred hi) k (S i) tl cs
              else None
          | [] => None
          end
        with
        | Some r => Some r
        | None => k (MState i s cs)
        end
      else
        match k (MState i s cs) with
        | Some r => Some r
        | None =>
            match s with
            | c :: tl =>
                if p c && negb (hiZero hi)
                then quant greedy p 0 (option_map Nat.pred hi) k (S i) tl cs
                else None
            | [] => None
            end
        end
  end.

(** The matcher of [r] with continuation [k]: the first way, in the
    priority order of ECMAScript, to match [r] at [st] such that [k]
    succeeds on what follows. *)
Fixpoint run (r : regex) (k : cont) (st : mstate) : option mstate :=
  match r with
  | Empty => k st
  | Char p =>
      match rest st with
      | c :: tl => if p c then k (MState (S (pos st)) tl (caps st)) else None
      | [] => None
      end
  | Quant greedy lo hi p => quant greedy p lo hi k (pos st) (rest st) (caps st)
  | Seq r1 r2 => run r1 (run r2 k) st
  | Alt r1 r2 =>
      match run r1 k st with
      | Some res => Some res
      | None => run r2 k st
      end
  | Group n r1 => run r1 (fun st' => k (capture n st st')) st
  | AssertStart => if Nat.eqb (pos st) 0 then k st else None
  | AssertEnd => match rest st with [] => k st | _ :: _ => None end
  end.

(** A match attempt at index [i], where the input continues with [s]. *)
Definition matchAt (r : regex) (i : nat) (s : jsstring) : option mstate :=
  run r (fun st => Some st) (MState i s []).

(** The array returned by [RegExp.prototype.exec]. *)
Record MatchResult : Type := MatchRes {
  index : nat;
  matched : jsstring;
  groups : captures
}.

(** [match[n]] *)
Definition at_ (mr : MatchResult) (n : nat) : option jsstring :=
  match n with
  | 0 => Some (matched mr)
  | _ => getCap n (groups mr)
  end.

Fixpoint execFrom (r : regex) (i : nat) (s : jsstring) : option MatchResult :=
  match matchAt r i s with
  | Some st' => Some (MatchRes i (firstn (pos st' - i) s) (caps st'))
  | None =>
      match s with
      | [] => None
      | _ :: tl => execFrom r (S i) tl
      end
  end.

(** [r.exec(s)] and [s.match(r)] for a pattern without the [g] and [y]
    flags: the leftmost match. *)
Definition exec (r : regex) (s : jsstring) : option MatchResult :=
  execFrom r 0 s.

(** [s.split(r)] for a pattern without capture groups.  [s] is the input
    from index [q] on; [fromP] is the input from index [p] on, where the
    last separator ended, and [q = p + n]. *)
Fixpoint splitLoop (fuel : nat) (r : regex) (fromP : jsstring) (n q : nat)
                   (s : jsstring) (out : list jsstring)
  : outcome (list jsstring) :=
  match s with
  | [] => Ok (out ++ [fromP])
  | _ :: tl =>
      match fuel with
      | 0 => OutOfFuel
      | S fuel' =>
          match matchAt r q s with
          | None => splitLoop fuel' r fromP (S n) (S q) tl out
          | Some st' =>
              if Nat.eqb (pos st') q && Nat.eqb n 0
              then splitLoop fuel' r fromP (S n) (S q) tl out
              else splitLoop fuel' r (rest st') 0 (pos st') (rest st')
                             (out ++ [firstn n fromP])
          end
      end
  end.

Definition split (r : regex) (s : jsstring) : outcome (list jsstring) :=
  match s with
  | [] => match matchAt r 0 [] with Some _ => Ok [] | None => Ok [[]] end
  | _ => splitLoop (2 * length s + 1) r s 0 0 s []
  end.

(** Helpers to write patterns. *)
Definition lit (a : ascii) : regex := Char (chareq (ch a)).

Fixpoint seq (rs : list regex) : regex :=
  match rs with
  | [] => Empty
  | [r] => r
  | r :: tl => Seq r (seq tl)
  end.

Fixpoint alt (rs : list regex) : regex :=
  match rs with
  | [] => Empty
  | [r] => r
  | r :: tl => Alt r (alt tl)
  end.

Definition oneOf (cs : list ascii) (c : char) : bool :=
  existsb (fun a => chareq (ch a) c) cs.

Definition plus (p : char -> bool) : regex := Quant true 1 None p.
Definition star (p : char -> bool) : regex := Quant true 0 None p.
Definition plusLazy (p : char -> bool) : regex := Quant false 1 None p.
Definition opt (p : char -> bool) : regex := Quant true 0 (Some 1) p.

End Regex.
Import Regex.

(* ================================================================== *)
(** ** The data model of [markdown-to-blocks.ts] *)

Definition RICH_TEXT_MAX : nat := 2000.
Definition BLOCKS_PER_BATCH : nat := 100.

(** [type Annotation]: every field is optional. *)
Record Annotation : Type := MkAnnotation {
  bold : option bool;
  italic : option bool;
  strikethrough : option bool;
  code : option bool
}.

(** [type RichTextSegment]; its [type] field is the constant ["text"] and
    [text.content] is [content]. *)
Record RichTextSegment : Type := MkSegment {
  content : jsstring;
  annotations : option Annotation
}.

(** The payload object of a block; a field that is absent is [None]. *)
Record Payload : Type := MkPayload {
  rich_text : option (list RichTextSegment);
  checked : option bool;
  language : option jsstring
}.

(** The object built by [makeBlock]; [payload] is the value stored under
    the key named by [type]. *)
Record Block : Type := MkBlock {
  object : jsstring;
  type : jsstring;
  payload : Payload
}.

(** Truthiness of an optional boolean field. *)
Definition truthy (b : option bool) : bool :=
  match b with Some true => true | _ => false end.

Definition hasAnnotation (a : option Annotation) : bool :=
  match a with
  | None => false
  | Some a => truthy (bold a) || truthy (italic a)
              || truthy (strikethrough a) || truthy (code a)
  end.

(** The annotation set of the specification: four booleans, an absent
    flag or an absent [annotations] object counting as [false]. *)
Definition annotationSet (seg : RichTextSegment) : bool * bool * bool * bool :=
  match annotations seg with
  | None => (false, false, false, false)
  | Some a => (truthy (bold a), truthy (italic a),
               truthy (strikethrough a), truthy (code a))
  end.

(** The body of the [for] loop of [splitSegment]. *)
Definition chunkSegment (seg : RichTextSegment) (chunk : jsstring) : RichTextSegment :=
  if hasAnnotation (annotations seg)
  then MkSegment chunk (annotations seg)
  else MkSegment chunk None.

Fixpoint splitSegmentLoop (fuel : nat) (seg : RichTextSegment) (i : nat)
                          (parts : list RichTextSegment)
  : outcome (list RichTextSegment) :=
  if i <? length (content seg) then
    match fuel with
    | 0 => OutOfFuel
    | S fuel' =>
        let chunk := slice (content seg) i (i + RICH_TEXT_MAX) in
        splitSegmentLoop fuel' seg (i + RICH_TEXT_MAX)
                         (parts ++ [chunkSegment seg chunk])
    end
  else Ok parts.

Definition splitSegment (seg : RichTextSegment) : outcome (list RichTextSegment) :=
  if length (content seg) <=? RICH_TEXT_MAX then Ok [seg]
  else splitSegmentLoop (length (content seg)) seg 0 [].

(** The five alternatives of the inline pattern, in the order of the
    source: [\*\*(.+?)\*\*], [~~(.+?)~~], [`(.+?)`], [\*(.+?)\*], [_(.+?)_]. *)
Definition boldSpan : regex :=
  seq [lit "*"; lit "*"; Group 2 (plusLazy isDot); lit "*"; lit "*"].
Definition strikeSpan : regex :=
  seq [lit "~"; lit "~"; Group 3 (plusLazy isDot); lit "~"; lit "~"].
Definition codeSpan : regex :=
  seq [lit "`"; Group 4 (plusLazy isDot); lit "`"].
Definition starSpan : regex :=
  seq [lit "*"; Group 5 (plusLazy isDot); lit "*"].
Definition underscoreSpan : regex :=
  seq [lit "_"; Group 6 (plusLazy isDot); lit "_"].

(** [/(\*\*(.+?)\*\*|~~(.+?)~~|`(.+?)`|\*(.+?)\*|_(.+?)_)/] *)
Definition inlinePattern : regex :=
  Group 1 (alt [boldSpan; strikeSpan; codeSpan; starSpan; underscoreSpan]).

Definition plainSegment (c : jsstring) : RichTextSegment := MkSegment c None.

Definition boldSegment (c : jsstring) : RichTextSegment :=
  MkSegment c (Some (MkAnnotation (Some true) None None None)).
Definition italicSegment (c : jsstring) : RichTextSegment :=
  MkSegment c (Some (MkAnnotation None (Some true) None None)).
Definition strikethroughSegment (c : jsstring) : RichTextSegment :=
  MkSegment c (Some (MkAnnotation None None (Some true) None)).
Definition codeSegment (c : jsstring) : RichTextSegment :=
  MkSegment c (Some (MkAnnotation None None None (Some true))).

(** The [if / else if] chain on [match[2]] ... [match[6]]. *)
Definition annotatedSegment (m : MatchResult) : list RichTextSegment :=
  match at_ m 2 with
  | Some s => [boldSegment s]
  | None =>
  match at_ m 3 with
  | Some s => [strikethroughSegment s]
  | None =>
  match at_ m 4 with
  | Some s => [codeSegment s]
  | None =>
  match at_ m 5 with
  | Some s => [italicSegment s]
  | None =>
  match at_ m 6 with
  | Some s => [italicSegment s]
  | None => []
  end end end end end.

(** The [while (remaining.length > 0)] loop of [parseInlineAnnotations]. *)
Fixpoint tokenLoop (fuel : nat) (remaining : jsstring)
                   (segments : list RichTextSegment)
  : outcome (list RichTextSegment) :=
  match remaining with
  | [] => Ok segments
  | _ :: _ =>
      match fuel with
      | 0 => OutOfFuel
      | S fuel' =>
          match exec inlinePattern remaining with
          | None => Ok (segments ++ [plainSegment remaining])
          | Some m =>
              let before :=
                if 0 <? index m
                then [plainSegment (slice remaining 0 (index m))]
                else [] in
              tokenLoop fuel'
                (sliceFrom remaining (index m + length (matched m)))
                (segments ++ before ++ annotatedSegment m)
          end
      end
  end.

(** The [for (const seg of segments)] loop of [parseInlineAnnotations]. *)
Fixpoint splitAll (segments result : list RichTextSegment)
  : outcome (list RichTextSegment) :=
  match segments with
  | [] => Ok result
  | seg :: tl =>
      parts <- splitSegment seg ;;
      splitAll tl (result ++ parts)
  end.

Definition parseInlineAnnotations (text : jsstring)
  : outcome (list RichTextSegment) :=
  segments <- tokenLoop (length text) text [] ;;
  splitAll segments [].

Definition plainRichText (c : jsstring) : outcome (list RichTextSegment) :=
  if length c =? 0 then Ok [plainSegment []]
  else splitSegment (plainSegment c).

Definition makeBlock (ty : jsstring) (p : Payload) : Block :=
  MkBlock (str "block") ty p.

Definition emptyPayload : Payload := MkPayload None None None.

(** [{ rich_text: richText, ...extra }] *)
Definition spread (richText : list RichTextSegment) (extra : option Payload)
  : Payload :=
  match extra with
  | None => MkPayload (Some richText) None None
  | Some e =>
      MkPayload (match rich_text e with Some r => Some r | None => Some richText end)
                (checked e) (language e)
  end.

Definition richTextBlock (ty : jsstring) (richText : list RichTextSegment)
                         (extra : option Payload) : Block :=
  makeBlock ty (spread richText extra).

(** The fence opener: [^], three backticks, group 1 around [\w*], [$]. *)
Definition fencePattern : regex :=
  seq [AssertStart; lit "`"; lit "`"; lit "`"; Group 1 (star isWord); AssertEnd].

(** [/^(#{1,6})\s+(.+)$/] *)
Definition headingPattern : regex :=
  seq [AssertStart; Group 1 (Quant true 1 (Some 6) (chareq (ch "#")));
       plus isWhiteSpace; Group 2 (plus isDot); AssertEnd].

(** [/^[-*]\s+\[([ xX])\]\s+(.+)$/] *)
Definition todoPattern : regex :=
  seq [AssertStart; Char (oneOf ["-"; "*"]%char); plus isWhiteSpace; lit "[";
       Group 1 (Char (oneOf [" "; "x"; "X"]%char)); lit "]"; plus isWhiteSpace;
       Group 2 (plus isDot); AssertEnd].

(** [/^[-*]\s+(.+)$/] *)
Definition bulletPattern : regex :=
  seq [AssertStart; Char (oneOf ["-"; "*"]%char); plus isWhiteSpace;
       Group 1 (plus isDot); AssertEnd].

(** [/^\d+\.\s+(.+)$/] *)
Definition numberedPattern : regex :=
  seq [AssertStart; plus isDigit; lit "."; plus isWhiteSpace;
       Group 1 (plus isDot); AssertEnd].

(** [/^>\s+(.+)$/] *)
Definition quotePattern : regex :=
  seq [AssertStart; lit ">"; plus isWhiteSpace; Group 1 (plus isDot); AssertEnd].

(** [/\r?\n/] *)
Definition linePattern : regex :=
  seq [opt (chareq CR); Char (chareq LF)].

(** [x || d] for a string that may be [undefined]. *)
Definition orElse (x : option jsstring) (d : jsstring) : jsstring :=
  match x with
  | Some (c :: s) => c :: s
  | _ => d
  end.

(** The number [n] in a template literal. *)
Definition numberToString (n : nat) : jsstring :=
  str (NilZero.string_of_uint (Nat.to_uint n)).

(** The inner [while] loop of a fence: the lines collected and the lines
    left after the closing fence. *)
Fixpoint collectFence (lines codeLines : list jsstring)
  : list jsstring * list jsstring :=
  match lines with
  | [] => (codeLines, [])
  | l :: tl =>
      if streq l (str "```") then (codeLines, tl)
      else collectFence tl (codeLines ++ [l])
  end.

(** The [while (i < lines.length)] loop of [markdownToBlocks]; [lines] is
    the part of the array from index [i] on. *)
Fixpoint convertLoop (fuel : nat) (lines : list jsstring) (blocks : list Block)
  : outcome (list Block) :=
  match lines with
  | [] => Ok blocks
  | line :: rest =>
  match fuel with
  | 0 => OutOfFuel
  | S fuel' =>
  match exec fencePattern line with
  | Some fenceMatch =>
      let language := orElse (at_ fenceMatch 1) (str "plain text") in
      let (codeLines, rest') := collectFence rest [] in
      let codeContent := join [LF] codeLines in
      rt <- plainRichText codeContent ;;
      convertLoop fuel' rest'
        (blocks ++ [makeBlock (str "code")
                              (MkPayload (Some rt) None (Some language))])
  | None =>
  let trimmedLine := trim line in
  if streq trimmedLine [] then convertLoop fuel' rest blocks
  else if streq trimmedLine (str "---") then
    convertLoop fuel' rest (blocks ++ [makeBlock (str "divider") emptyPayload])
  else
  match exec headingPattern trimmedLine with
  | Some headingMatch =>
      h <- defined (at_ headingMatch 1) ;;
      let level := Nat.min (length h) 3 in
      let headingType := str "heading_" ++ numberToString level in
      t <- defined (at_ headingMatch 2) ;;
      rt <- parseInlineAnnotations t ;;
      convertLoop fuel' rest (blocks ++ [richTextBlock headingType rt None])
  | None =>
  match exec todoPattern trimmedLine with
  | Some todoMatch =>
      let chk := match at_ todoMatch 1 with
                 | Some s => negb (streq s (str " "))
                 | None => true
                 end in
      t <- defined (at_ todoMatch 2) ;;
      rt <- parseInlineAnnotations t ;;
      convertLoop fuel' rest
        (blocks ++ [richTextBlock (str "to_do") rt
                                  (Some (MkPayload None (Some chk) None))])
  | None =>
  match exec bulletPattern trimmedLine with
  | Some bulletMatch =>
      t <- defined (at_ bulletMatch 1) ;;
      rt <- parseInlineAnnotations t ;;
      convertLoop fuel' rest
        (blocks ++ [richTextBlock (str "bulleted_list_item") rt None])
  | None =>
  match exec numberedPattern trimmedLine with
  | Some numberedMatch =>
      t <- defined (at_ numberedMatch 1) ;;
      rt <- parseInlineAnnotations t ;;
      convertLoop fuel' rest
        (blocks ++ [richTextBlock (str "numbered_list_item") rt None])
  | None =>
  match exec quotePattern trimmedLine with
  | Some quoteMatch =>
      t <- defined (at_ quoteMatch 1) ;;
      rt <- parseInlineAnnotations t ;;
      convertLoop fuel' rest (blocks ++ [richTextBlock (str "quote") rt None])
  | None =>
      rt <- parseInlineAnnotations trimmedLine ;;
      convertLoop fuel' rest (blocks ++ [richTextBlock (str "paragraph") rt None])
  end end end end end end end end.

Definition markdownToBlocks (content : jsstring) : outcome (list Block) :=
  let trimmed := trim content in
  if isEmpty trimmed then Ok []
  else
    lines <- split linePattern trimmed ;;
    convertLoop (length lines) lines [].

(** The [for] loop of [markdownToBlocksBatched]. *)
Fixpoint batchLoop (fuel : nat) (blocks : list Block) (i : nat)
                   (batches : list (list Block)) : outcome (list (list Block)) :=
  if i <? length blocks then
    match fuel with
    | 0 => OutOfFuel
    | S fuel' =>
        batchLoop fuel' blocks (i + BLOCKS_PER_BATCH)
                  (batches ++ [slice blocks i (i + BLOCKS_PER_BATCH)])
    end
  else Ok batches.

Definition markdownToBlocksBatched (content : jsstring)
  : outcome (list (list Block)) :=
  blocks <- markdownToBlocks content ;;
  if length blocks =? 0 then Ok []
  else batchLoop (length blocks) blocks 0 [].


(* ================================================================== *)
(** ** [tools/utils/collection-schema.ts] *)

Module Schema.

(** An element of [title]: [{ plain_text?: string }]. *)
Record TitlePart : Type := MkTitlePart {
  plain_text : option jsstring
}.

(** An element of [options]: [{ name?: string }]. *)
Record OptionEntry : Type := MkOptionEntry {
  option_name : option jsstring
}.

(** The value of [select], [multi_select] or [status]:
    [{ options?: { name?: string }[] }]. *)
Record OptionsHolder : Type := MkOptionsHolder {
  holder_options : option (list OptionEntry)
}.

(** [type NotionDatabaseProperty], with the keys that the function reads. *)
Record NotionDatabaseProperty : Type := MkProperty {
  property_type : option jsstring;
  select : option OptionsHolder;
  multi_select : option OptionsHolder;
  status : option OptionsHolder
}.

(** [type NotionDatabase]; [properties] is given as [Object.entries]
    lists it. *)
Record NotionDatabase : Type := MkDatabase {
  database_id : option jsstring;
  title : option (list TitlePart);
  properties : option (list (jsstring * NotionDatabaseProperty))
}.

(** [type CollectionField] *)
Record CollectionField : Type := MkField {
  name : jsstring;
  type : jsstring;
  options : option (list jsstring)
}.

(** [type CollectionSchema] *)
Record CollectionSchema : Type := MkSchema {
  id : jsstring;
  schema_name : option jsstring;
  fields : list CollectionField
}.

(** [x ?? d] *)
Definition orDefault {A : Type} (x : option A) (d : A) : A :=
  match x with
  | Some a => a
  | None => d
  end.

(** [(h?.options ?? []).map((o) => o.name ?? "").filter(Boolean)] *)
Definition optionNames (h : option OptionsHolder) : list jsstring :=
  filter (fun s => negb (isEmpty s))
    (map (fun o => orDefault (option_name o) [])
       (orDefault (match h with
                   | Some h => holder_options h
                   | None => None
                   end) [])).

(** The body of the [for] loop: the field of one property. *)
Definition fieldOf (propName : jsstring) (property : NotionDatabaseProperty)
  : CollectionField :=
  let type := orDefault (property_type property) (str "unknown") in
  let field := MkField propName type None in
  let field :=
    if streq type (str "select")
    then MkField (name field) (Schema.type field)
                 (Some (optionNames (select property)))
    else field in
  let field :=
    if streq type (str "multi_select")
    then MkField (name field) (Schema.type field)
                 (Some (optionNames (multi_select property)))
    else field in
  let field :=
    if streq type (str "status")
    then MkField (name field) (Schema.type field)
                 (Some (optionNames (status property)))
    else field in
  field.

(** The [for (const [propName, propValue] of Object.entries(properties))]
    loop. *)
Fixpoint fieldsLoop (entries : list (jsstring * NotionDatabaseProperty))
                    (fields : list CollectionField) : list CollectionField :=
  match entries with
  | [] => fields
  | (propName, propValue) :: tl =>
      fieldsLoop tl (fields ++ [fieldOf propName propValue])
  end.

Definition extractCollectionSchema (db : NotionDatabase) : CollectionSchema :=
  let id := orDefault (database_id db) [] in
  let name :=
    match title db with
    | None => None
    | Some parts =>
        match join [] (map (fun t => orDefault (plain_text t) []) parts) with
        | [] => None
        | c :: s => Some (c :: s)
        end
    end in
  let fields := fieldsLoop (orDefault (properties db) []) [] in
  MkSchema id name fields.

End Schema.

(* ================================================================== *)
(** ** The page body in the [create_item] and [update_item] tools *)

Module Items.

(** The calls of [NotionClient] that read and write the body of a page. *)
Inductive Call : Type :=
| getBlockChildren (blockId : jsstring) (startCursor : option jsstring)
| deleteBlock (blockId : jsstring)
| appendBlockChildren (blockId : jsstring) (children : list Block).

(** An element of [results]: [{ id?: string }]. *)
Record BlockRef : Type := MkBlockRef {
  block_id : option jsstring
}.

(** What [update_item] reads of the answer to [getBlockChildren], an
    object that it casts to
    [{ results?: { id?: string }[]; has_more?: boolean;
       next_cursor?: string | null }]; [null] and [undefined] are [None]. *)
Record Children : Type := MkChildren {
  results : option (list BlockRef);
  has_more : option bool;
  next_cursor : option jsstring
}.

(** The answer to a call; [update_item] drops the answers to
    [deleteBlock] and [appendBlockChildren]. *)
Definition Answer (c : Call) : Type :=
  match c with
  | getBlockChildren _ _ => Children
  | deleteBlock _ => unit
  | appendBlockChildren _ _ => unit
  end.

(** The service behind the client: its answer to a call, after the calls
    made so far; [None] when the client throws [NotionClientError]. *)
Definition Remote : Type := list Call -> forall c : Call, option (Answer c).

(** How a piece of a handler ends: with a value, with the
    [NotionClientError] that a call of the client threw, or stopped,
    when the conversion of the content ends in [TypeError] or
    [OutOfFuel] or a loop below runs out of fuel. *)
Inductive completion (A : Type) : Type :=
| Normal (a : A)
| ClientError
| Stopped.

Arguments Normal {A} a.
Arguments ClientError {A}.
Arguments Stopped {A}.

(** A piece of a handler: it calls the client, which extends the log of
    the calls. *)
Definition M (A : Type) : Type :=
  Remote -> list Call -> list Call * completion A.

Definition ret {A : Type} (a : A) : M A := fun _ log => (log, Normal a).

Definition stop {A : Type} : M A := fun _ log => (log, Stopped).

Definition bindM {A B : Type} (m : M A) (k : A -> M B) : M B :=
  fun remote log =>
    match m remote log with
    | (log', Normal a) => k a remote log'
    | (log', ClientError) => (log', ClientError)
    | (log', Stopped) => (log', Stopped)
    end.

Notation "x <<- e ;; k" := (bindM e (fun x => k))
  (at level 61, e at next level, right associativity).

(** [await client.f(...)] *)
Definition call (c : Call) : M (Answer c) :=
  fun remote log =>
    (log ++ [c],
     match remote log c with
     | Some a => Normal a
     | None => ClientError
     end).

(** A call of the conversion. *)
Definition lift {A : Type} (o : outcome A) : M A :=
  match o with
  | Ok a => ret a
  | TypeError => stop
  | OutOfFuel => stop
  end.

Definition run {A : Type} (m : M A) (remote : Remote)
  : list Call * completion A := m remote [].

(** A string that is neither [undefined] nor empty. *)
Definition truthy (s : option jsstring) : bool :=
  match s with
  | Some (_ :: _) => true
  | _ => false
  end.

(** [for (const block of data.results ?? [])
       if (block.id) blockIds.push(block.id);] *)
Fixpoint pushIds (results : list BlockRef) (blockIds : list jsstring)
  : list jsstring :=
  match results with
  | [] => blockIds
  | block :: tl =>
      pushIds tl (if truthy (block_id block)
                  then blockIds ++ [Schema.orDefault (block_id block) []]
                  else blockIds)
  end.

(** [for (let i = 0; i < 20; i++)], from [i] on. *)
Fixpoint readLoop (fuel i : nat) (itemId : jsstring) (cursor : option jsstring)
                  (blockIds : list jsstring) : M (list jsstring) :=
  if i <? 20 then
    match fuel with
    | 0 => stop
    | S fuel' =>
        data <<- call (getBlockChildren itemId cursor) ;;
        let blockIds := pushIds (Schema.orDefault (results data) []) blockIds in
        if negb (Schema.orDefault (has_more data) false) then ret blockIds
        else
          let cursor := next_cursor data in
          if negb (truthy cursor) then ret blockIds
          else readLoop fuel' (S i) itemId cursor blockIds
    end
  else ret blockIds.

(** [for (const id of blockIds) await client.deleteBlock(id);] *)
Fixpoint deleteLoop (blockIds : list jsstring) : M unit :=
  match blockIds with
  | [] => ret tt
  | id :: tl => _ <<- call (deleteBlock id) ;; deleteLoop tl
  end.

(** [for (const batch of batches)
       await client.appendBlockChildren(itemId, batch);] *)
Fixpoint appendLoop (itemId : jsstring) (batches : list (list Block)) : M unit :=
  match batches with
  | [] => ret tt
  | batch :: tl =>
      _ <<- call (appendBlockChildren itemId batch) ;; appendLoop itemId tl
  end.

(** The two ways in which the [try] block of the [update_item] handler
    returns: with the error about the two contents, or with the item. *)
Inductive Reply : Type :=
| CannotUseBoth
| Updated.

(** The [update_item] handler, as far as the body of the page [itemId]
    goes: the guard [if (replace_content && append_content)], which
    returns the error before any call, and then, from
    [if (replace_content !== undefined)] on, the reads, the deletions
    and the two loops over the batches.  The calls in between
    ([getPage], [getDatabase], [updatePage]) are on the properties of
    the item and are not in the log. *)
Definition update_item_content (itemId : jsstring)
                               (replace_content append_content : option jsstring)
  : M Reply :=
  if truthy replace_content && truthy append_content then ret CannotUseBoth
  else
    _ <<- match replace_content with
          | Some replace_content =>
              blockIds <<- readLoop 20 0 itemId None [] ;;
              _ <<- deleteLoop blockIds ;;
              batches <<- lift (markdownToBlocksBatched replace_content) ;;
              appendLoop itemId batches
          | None => ret tt
          end ;;
    _ <<- (if truthy append_content
           then
             batches <<- lift (markdownToBlocksBatched
                                 (Schema.orDefault append_content [])) ;;
             appendLoop itemId batches
           else ret tt) ;;
    ret Updated.

(** The [children] that the [create_item] handler passes to
    [createPage]:
    [const children = content ? markdownToBlocks(content) : [];] and
    [children.length > 0 ? children : undefined]. *)
Definition create_item_children (content : option jsstring)
  : outcome (option (list Block)) :=
  children <- (if truthy content
               then markdownToBlocks (Schema.orDefault content [])
               else Ok []) ;;
  Ok (if 0 <? length children then Some children else None).

End Items.

(* ================================================================== *)
(** ** Vocabulary of the statements *)

(** [ceil(a / b)] *)
Definition ceilDiv (a b : nat) : nat := (a + b - 1) / b.

(** [Chunked k xs cs]: [cs] cuts [xs] into consecutive pieces of exactly
    [k] elements, except the last one, which holds between 1 and [k]. *)
Inductive Chunked {A : Type} (k : nat) : list A -> list (list A) -> Prop :=
| Chunked_nil : Chunked k [] []
| Chunked_last (xs : list A) :
    1 <= length xs -> length xs <= k -> Chunked k xs [xs]
| Chunked_cons (c ys : list A) (cs : list (list A)) :
    length c = k -> ys <> [] -> Chunked k ys cs -> Chunked k (c ++ ys) (c :: cs).

(** [hi] as an upper bound of a number of iterations. *)
Definition within (hi : option nat) (n : nat) : Prop :=
  match hi with
  | Some h => n <= h
  | None => True
  end.

(** The matches of a pattern, without their priorities: [den r i w after
    cs cs'] holds when [r] can match the text [w] found at index [i] of the
    input and followed there by [after], and the groups captured on the way
    turn [cs] into [cs']. *)
Fixpoint den (r : regex) (i : nat) (w after : jsstring) (cs cs' : captures)
  : Prop :=
  match r with
  | Empty => w = [] /\ cs' = cs
  | Char p => (exists c, w = [c] /\ p c = true) /\ cs' = cs
  | Quant _ lo hi p =>
      Forall (fun c => p c = true) w /\ lo <= length w /\ within hi (length w)
      /\ cs' = cs
  | Seq r1 r2 =>
      exists w1 w2 cs1,
        w = w1 ++ w2
        /\ den r1 i w1 (w2 ++ after) cs cs1
        /\ den r2 (i + length w1) w2 after cs1 cs'
  | Alt r1 r2 => den r1 i w after cs cs' \/ den r2 i w after cs cs'
  | Group n r1 => exists cs1, den r1 i w after cs cs1 /\ cs' = (n, w) :: cs1
  | AssertStart => i = 0 /\ w = [] /\ cs' = cs
  | AssertEnd => after = [] /\ w = [] /\ cs' = cs
  end.

(** The three shapes of a block that [markdownToBlocks] can return: a
    divider without rich text; a code block, whose rich text is the single
    empty segment or holds no empty segment; a block of another type, whose
    rich text holds no empty segment. *)
Definition Finished (b : Block) : Prop :=
  (type b = str "divider" /\ rich_text (payload b) = None)
  \/ (type b = str "code" /\
      exists rt,
        rich_text (payload b) = Some rt /\ rt <> []
        /\ Forall (fun seg => length (content seg) <= RICH_TEXT_MAX) rt
        /\ (rt = [plainSegment []]
            \/ Forall (fun seg => 1 <= length (content seg)) rt))
  \/ (type b <> str "divider" /\ type b <> str "code" /\
      exists rt,
        rich_text (payload b) = Some rt /\ rt <> []
        /\ Forall (fun seg => 1 <= length (content seg)
                              /\ length (content seg) <= RICH_TEXT_MAX) rt).


(** The character that starts a heading. *)
Definition hash : char := ch "#".

(** The character that delimits bold and italic spans. *)
Definition asterisk : char := ch "*".

(** The helpers of the test suite ([markdown-to-blocks.test.ts]). *)
Definition getRichText (b : Block) : list RichTextSegment :=
  match rich_text (payload b) with
  | Some rt => rt
  | None => []
  end.

Definition getPlainText (b : Block) : jsstring :=
  concat (map content (getRichText b)).

(** What a test looks at in a returned value. *)
Definition observe {A B : Type} (f : A -> B) (o : outcome (list A))
  : outcome (list B) :=
  match o with
  | Ok xs => Ok (map f xs)
  | TypeError => TypeError
  | OutOfFuel => OutOfFuel
  end.

(** [Array.from({ length: n }, (_, i) => `Line ${i}`).join("\n")] *)
Definition numberedLines (n : nat) : jsstring :=
  join [LF] (map (fun i => str "Line " ++ numberToString i) (List.seq 0 n)).

(** The characters that delimit an inline span. *)
Definition isDelimiter (c : char) : bool := oneOf ["*"; "~"; "`"; "_"]%char c.

(** [Unmarked text out]: [out] is [text] with some delimiter characters
    left out, and nothing else changed. *)
Inductive Unmarked : jsstring -> jsstring -> Prop :=
| Unmarked_nil : Unmarked [] []
| Unmarked_keep c s t : Unmarked s t -> Unmarked (c :: s) (c :: t)
| Unmarked_drop c s t : isDelimiter c = true -> Unmarked s t -> Unmarked (c :: s) t.

(** The annotation sets that the tokenizer builds: no flag, or one. *)
Definition singleFlag (a : bool * bool * bool * bool) : Prop :=
  In a [(false, false, false, false); (true, false, false, false);
        (false, true, false, false); (false, false, true, false);
        (false, false, false, true)].

(** The ten values of a block's [type]. *)
Definition blockTypes : list jsstring :=
  map str ["paragraph"; "heading_1"; "heading_2"; "heading_3";
           "bulleted_list_item"; "numbered_list_item"; "to_do"; "quote";
           "divider"; "code"]%string.

(** The block types built by [richTextBlock] without extra fields. *)
Definition textTypes : list jsstring :=
  map str ["paragraph"; "heading_1"; "heading_2"; "heading_3";
           "bulleted_list_item"; "numbered_list_item"; "quote"]%string.

(** How [markdownToBlocks] builds a block: the four calls of [makeBlock]
    and [richTextBlock], with where their arguments come from. *)
Inductive Produced : Block -> Prop :=
| Produced_divider : Produced (makeBlock (str "divider") emptyPayload)
| Produced_code (c lang : jsstring) (rt : list RichTextSegment) :
    plainRichText c = Ok rt -> lang <> [] ->
    Produced (makeBlock (str "code") (MkPayload (Some rt) None (Some lang)))
| Produced_text (ty t : jsstring) (rt : list RichTextSegment) :
    In ty textTypes -> t <> [] -> parseInlineAnnotations t = Ok rt ->
    Produced (richTextBlock ty rt None)
| Produced_to_do (t : jsstring) (chk : bool) (rt : list RichTextSegment) :
    t <> [] -> parseInlineAnnotations t = Ok rt ->
    Produced (richTextBlock (str "to_do") rt
                            (Some (MkPayload None (Some chk) None))).

(** The number of line feeds of a text. *)
Definition countLF (s : jsstring) : nat := count_occ N.eq_dec s LF.

(** The character of a divider. *)
Definition hyphen : char := ch "-".

(** The blocks that the calls of a log append to a page, in order. *)
Definition appended (log : list Items.Call) : list Block :=
  flat_map (fun c => match c with
                     | Items.appendBlockChildren _ children => children
                     | _ => []
                     end) log.

(** [ListedFrom remote itemId log reads id]: after the calls of [log],
    the calls [reads] hold a call of [getBlockChildren] on [itemId] to
    which the service answered with results that list [id]. *)
Definition ListedFrom (remote : Items.Remote) (itemId : jsstring)
                      (log reads : list Items.Call) (id : jsstring) : Prop :=
  exists before cursor after page,
    reads = before ++ Items.getBlockChildren itemId cursor :: after
    /\ remote (log ++ before) (Items.getBlockChildren itemId cursor) = Some page
    /\ In (Items.MkBlockRef (Some id))
          (Schema.orDefault (Items.results page) []).

(** The same for the calls made from the start. *)
Definition Listed (remote : Items.Remote) (itemId : jsstring)
                  (log : list Items.Call) (id : jsstring) : Prop :=
  ListedFrom remote itemId [] log id.

(** [Paged remote itemId log cursor reads]: after the calls of [log],
    the calls [reads] read the children of [itemId] page by page: the
    first one passes [cursor], and each next one passes the
    [next_cursor] of the answer before it, which was not empty and came
    with [has_more]. *)
Inductive Paged (remote : Items.Remote) (itemId : jsstring)
  : list Items.Call -> option jsstring -> list Items.Call -> Prop :=
| Paged_last (log : list Items.Call) (cursor : option jsstring) :
    Paged remote itemId log cursor [Items.getBlockChildren itemId cursor]
| Paged_next (log : list Items.Call) (cursor : option jsstring)
             (page : Items.Children) (reads : list Items.Call) :
    remote log (Items.getBlockChildren itemId cursor) = Some page ->
    Items.has_more page = Some true ->
    Items.truthy (Items.next_cursor page) = true ->
    Paged remote itemId (log ++ [Items.getBlockChildren itemId cursor])
          (Items.next_cursor page) reads ->
    Paged remote itemId log cursor
          (Items.getBlockChildren itemId cursor :: reads).

(** Three services for the examples.  [onePage]: the item has one
    child, ["b1"], listed in one answer.  [twoPages]: the first answer
    lists ["b1"] and an entry without [id] and gives the cursor ["c2"],
    the second lists ["b2"].  [endless]: every answer lists ["b"] and
    gives a cursor.  All three answer every call. *)
Definition onePage : Items.Remote :=
  fun _ c =>
    match c return option (Items.Answer c) with
    | Items.getBlockChildren _ _ =>
        Some (Items.MkChildren (Some [Items.MkBlockRef (Some (str "b1"))])
                               (Some false) None)
    | Items.deleteBlock _ => Some tt
    | Items.appendBlockChildren _ _ => Some tt
    end.

Definition twoPages : Items.Remote :=
  fun _ c =>
    match c return option (Items.Answer c) with
    | Items.getBlockChildren _ None =>
        Some (Items.MkChildren
                (Some [Items.MkBlockRef (Some (str "b1")); Items.MkBlockRef None])
                (Some true) (Some (str "c2")))
    | Items.getBlockChildren _ (Some _) =>
        Some (Items.MkChildren (Some [Items.MkBlockRef (Some (str "b2"))])
                               None None)
    | Items.deleteBlock _ => Some tt
    | Items.appendBlockChildren _ _ => Some tt
    end.

Definition endless : Items.Remote :=
  fun _ c =>
    match c return option (Items.Answer c) with
    | Items.getBlockChildren _ _ =>
        Some (Items.MkChildren (Some [Items.MkBlockRef (Some (str "b"))])
                               (Some true) (Some (str "next")))
    | Items.deleteBlock _ => Some tt
    | Items.appendBlockChildren _ _ => Some tt
    end.

(* ================================================================== *)
(** * Theorems *)

(** ** Cutting a sequence into chunks *)

Section Chunks.

Variable A : Type.
Variable k : nat.
Hypothesis k_pos : 0 < k.

Lemma Chunked_concat (xs : list A) cs : Chunked k xs cs -> concat cs = xs.
Proof.
  induction 1; simpl.
  - reflexivity.
  - apply app_nil_r.
  - now rewrite IHChunked.
Qed.

Lemma Chunked_empty (cs : list (list A)) : Chunked k [] cs -> cs = [].
Proof.
  inversion 1; subst; trivial.
  - simpl in *; lia.
  - destruct c; destruct ys; try discriminate; congruence.
Qed.

Lemma Chunked_nonempty (xs : list A) cs :
  Chunked k xs cs -> xs <> [] -> cs <> [].
Proof. destruct 1; congruence. Qed.

Lemma Chunked_bounds (xs : list A) cs :
  Chunked k xs cs -> Forall (fun c => 1 <= length c /\ length c <= k) cs.
Proof.
  induction 1; repeat constructor; trivial; lia.
Qed.

Lemma Chunked_full (xs : list A) cs :
  Chunked k xs cs -> Forall (fun c => length c = k) (removelast cs).
Proof.
  induction 1; simpl; try constructor.
  destruct cs as [|c' cs'].
  - constructor.
  - constructor; assumption.
Qed.

Lemma ceilDiv_small n : 1 <= n -> n <= k -> ceilDiv n k = 1.
Proof.
  intros H1 H2. unfold ceilDiv.
  replace (n + k - 1) with (1 * k + (n - 1)) by lia.
  rewrite Nat.div_add_l by lia. rewrite Nat.div_small by lia. lia.
Qed.

Lemma ceilDiv_step n : ceilDiv (k + n) k = S (ceilDiv n k).
Proof.
  unfold ceilDiv.
  destruct n as [|n].
  - replace (k + 0 + k - 1) with (1 * k + (k - 1)) by lia.
    rewrite Nat.div_add_l by lia.
    rewrite (Nat.div_small (k - 1)) by lia.
    rewrite (Nat.div_small (0 + k - 1)) by lia. lia.
  - replace (k + S n + k - 1) with (1 * k + (S n + k - 1)) by lia.
    rewrite Nat.div_add_l by lia. lia.
Qed.

Lemma Chunked_length (xs : list A) cs :
  Chunked k xs cs -> length cs = ceilDiv (length xs) k.
Proof.
  induction 1; simpl.
  - unfold ceilDiv. simpl. rewrite Nat.div_small; lia.
  - now rewrite ceilDiv_small.
  - rewrite length_app, H, ceilDiv_step. now f_equal.
Qed.

Lemma Chunked_last_bounds (xs : list A) cs d :
  Chunked k xs cs -> xs <> [] ->
  1 <= length (last cs d) /\ length (last cs d) <= k.
Proof.
  induction 1; intros Hne.
  - congruence.
  - simpl. lia.
  - specialize (IHChunked H0).
    assert (cs <> []) by (eapply Chunked_nonempty; eauto).
    destruct cs; [congruence|]. exact IHChunked.
Qed.

Lemma Chunked_exact (xs : list A) cs :
  Chunked k xs cs -> length xs mod k = 0 -> Forall (fun c => length c = k) cs.
Proof.
  induction 1; intros Hm.
  - constructor.
  - constructor; [|constructor].
    assert (length xs = k \/ length xs < k) as [E|L] by lia; trivial.
    rewrite Nat.mod_small in Hm by lia. lia.
  - constructor; trivial. apply IHChunked.
    rewrite length_app, H in Hm.
    replace (k + length ys) with (length ys + 1 * k) in Hm by lia.
    now rewrite Nat.Div0.mod_add in Hm.
Qed.

(** One step of the loops [for (i = 0; i < xs.length; i += k)]. *)
Lemma slice_step (xs : list A) i :
  i < length xs ->
  skipn i xs = slice xs i (i + k) ++ skipn (i + k) xs
  /\ length (slice xs i (i + k)) = Nat.min k (length xs - i).
Proof.
  intros Hi. unfold slice.
  replace (i + k - i) with k by lia.
  split.
  - rewrite Nat.add_comm, <- skipn_skipn. symmetry. apply firstn_skipn.
  - rewrite length_firstn, length_skipn. reflexivity.
Qed.

Lemma Chunked_slice (xs : list A) i cs :
  i < length xs ->
  Chunked k (skipn (i + k) xs) cs ->
  Chunked k (skipn i xs) (slice xs i (i + k) :: cs).
Proof.
  intros Hi Hc.
  destruct (slice_step xs Hi) as [E L].
  destruct (Nat.le_gt_cases (length xs) (i + k)) as [Hend|Hmore].
  - assert (skipn (i + k) xs = []) as Z by (apply skipn_all2; lia).
    rewrite Z in *. apply Chunked_empty in Hc. subst cs.
    rewrite E, app_nil_r. apply Chunked_last; rewrite L; lia.
  - rewrite E. apply Chunked_cons; trivial.
    + rewrite L. lia.
    + intros Z. apply (f_equal (@length A)) in Z.
      rewrite length_skipn in Z. simpl in Z. lia.
Qed.

End Chunks.

(* ================================================================== *)
(** ** The segment splitter *)

Lemma RICH_TEXT_MAX_pos : 0 < RICH_TEXT_MAX.
Proof. unfold RICH_TEXT_MAX. lia. Qed.

Lemma BLOCKS_PER_BATCH_pos : 0 < BLOCKS_PER_BATCH.
Proof. unfold BLOCKS_PER_BATCH. lia. Qed.

Lemma splitSegmentLoop_unfold fuel seg i parts :
  splitSegmentLoop fuel seg i parts =
  if i <? length (content seg) then
    match fuel with
    | 0 => OutOfFuel
    | S fuel' =>
        splitSegmentLoop fuel' seg (i + RICH_TEXT_MAX)
          (parts ++ [chunkSegment seg (slice (content seg) i (i + RICH_TEXT_MAX))])
    end
  else Ok parts.
Proof. destruct fuel; reflexivity. Qed.

(** With fuel for every remaining code unit the loop runs to its end and
    has pushed one segment per chunk. *)
Lemma splitSegmentLoop_chunked seg fuel :
  forall i parts,
    length (content seg) - i <= fuel ->
    exists cs,
      splitSegmentLoop fuel seg i parts = Ok (parts ++ map (chunkSegment seg) cs)
      /\ Chunked RICH_TEXT_MAX (skipn i (content seg)) cs.
Proof.
  induction fuel as [|fuel IH]; intros i parts Hf;
    rewrite splitSegmentLoop_unfold;
    destruct (Nat.ltb_spec i (length (content seg))) as [Hi|Hi]; try lia.
  - exists []. simpl. rewrite app_nil_r, skipn_all2 by lia. split; [reflexivity|constructor].
  - pose proof RICH_TEXT_MAX_pos as Hk.
    destruct (IH (i + RICH_TEXT_MAX)
                 (parts ++ [chunkSegment seg (slice (content seg) i (i + RICH_TEXT_MAX))]))
      as [cs [E C]]; [lia|].
    exists (slice (content seg) i (i + RICH_TEXT_MAX) :: cs). split.
    + rewrite E, <- app_assoc. reflexivity.
    + now apply Chunked_slice.
  - exists []. simpl. rewrite app_nil_r, skipn_all2 by lia. split; [reflexivity|constructor].
Qed.

Lemma content_chunkSegment seg c : content (chunkSegment seg c) = c.
Proof. unfold chunkSegment. now destruct (hasAnnotation (annotations seg)). Qed.

Lemma annotationSet_chunkSegment seg c :
  annotationSet (chunkSegment seg c) = annotationSet seg.
Proof.
  unfold chunkSegment, annotationSet.
  destruct (hasAnnotation (annotations seg)) eqn:E; simpl; trivial.
  destruct (annotations seg) as [a|]; trivial. simpl in E.
  repeat (apply orb_false_elim in E; destruct E as [E ?]).
  congruence.
Qed.

Lemma annotations_chunkSegment seg c :
  hasAnnotation (annotations seg) = true ->
  annotations (chunkSegment seg c) = annotations seg.
Proof. unfold chunkSegment. now intros ->. Qed.

Lemma map_content_chunks seg cs :
  map content (map (chunkSegment seg) cs) = cs.
Proof.
  induction cs; simpl; trivial. now rewrite content_chunkSegment, IHcs.
Qed.

(** What [splitSegment] returns, in one statement: either the segment
    itself, or the chunks of its content. *)
Lemma splitSegment_cases seg :
  (length (content seg) <= RICH_TEXT_MAX /\ splitSegment seg = Ok [seg])
  \/ (RICH_TEXT_MAX < length (content seg) /\
      exists cs, splitSegment seg = Ok (map (chunkSegment seg) cs)
                 /\ Chunked RICH_TEXT_MAX (content seg) cs).
Proof.
  unfold splitSegment.
  destruct (Nat.leb_spec (length (content seg)) RICH_TEXT_MAX) as [H|H].
  - left. auto.
  - right. split; trivial.
    destruct (@splitSegmentLoop_chunked seg (length (content seg)) 0 []) as [cs [E C]];
      [lia|].
    exists cs. split; assumption.
Qed.

Lemma last_map {A B : Type} (f : A -> B) (l : list A) (d : B) (d' : A) :
  l <> [] -> last (map f l) d = f (last l d').
Proof.
  induction l as [|x l IH]; intros Hne; [congruence|].
  destruct l as [|y l]; [reflexivity|].
  change (last (map f (y :: l)) d = f (last (y :: l) d')).
  apply IH. discriminate.
Qed.

Lemma removelast_map {A B : Type} (f : A -> B) (l : list A) :
  removelast (map f l) = map f (removelast l).
Proof.
  induction l as [|x l IH]; simpl; trivial.
  destruct l; simpl in *; trivial. now rewrite IH.
Qed.

(** C2. A segment of at most 2000 code units is returned unchanged, alone.
    A longer one is cut into [ceil(length / 2000)] segments: all but the
    last hold exactly 2000 code units, the last holds between 1 and 2000,
    their contents concatenated give the original content, and every one
    carries the annotation set of the original (the very [annotations]
    object when it has a flag set). *)
Theorem splitSegment_spec (seg : RichTextSegment) :
  (length (content seg) <= 2000 -> splitSegment seg = Ok [seg])
  /\ (2000 < length (content seg) ->
      exists parts,
        splitSegment seg = Ok parts
        /\ length parts = ceilDiv (length (content seg)) 2000
        /\ concat (map content parts) = content seg
        /\ Forall (fun p => length (content p) = 2000) (removelast parts)
        /\ 1 <= length (content (last parts seg))
        /\ length (content (last parts seg)) <= 2000
        /\ Forall (fun p => annotationSet p = annotationSet seg) parts
        /\ Forall (fun p => hasAnnotation (annotations seg) = true ->
                            annotations p = annotations seg) parts).
Proof.
  change 2000 with RICH_TEXT_MAX.
  pose proof RICH_TEXT_MAX_pos as Hk.
  destruct (splitSegment_cases seg) as [[L E]|[L [cs [E C]]]].
  - split; [auto | lia].
  - split; [lia|]. intros _.
    exists (map (chunkSegment seg) cs).
    assert (content seg <> []) as Hne
      by (intros Z; rewrite Z in L; simpl in L; lia).
    repeat split.
    + exact E.
    + rewrite length_map. now apply Chunked_length.
    + rewrite map_content_chunks. eapply Chunked_concat; eauto.
    + rewrite removelast_map. apply Forall_map.
      eapply Forall_impl; [|eapply Chunked_full; eauto].
      intros c Hc. now rewrite content_chunkSegment.
    + rewrite (last_map (chunkSegment seg) seg [])
        by (eapply Chunked_nonempty; eauto).
      rewrite content_chunkSegment.
      eapply Chunked_last_bounds; eauto.
    + rewrite (last_map (chunkSegment seg) seg [])
        by (eapply Chunked_nonempty; eauto).
      rewrite content_chunkSegment.
      eapply Chunked_last_bounds; eauto.
    + apply Forall_map, Forall_forall. intros c _. apply annotationSet_chunkSegment.
    + apply Forall_map, Forall_forall. intros c _ H. now apply annotations_chunkSegment.
Qed.

(* ================================================================== *)
(** ** The matcher against the matches of a pattern *)

Section Matcher.

Lemma quant_unfold greedy p lo hi k i s cs :
  quant greedy p lo hi k i s cs =
  let more lo' :=
    match s with
    | c :: tl =>
        if p c && negb (hiZero hi)
        then quant greedy p lo' (option_map Nat.pred hi) k (S i) tl cs
        else None
    | [] => None
    end in
  match lo with
  | S lo' => more lo'
  | 0 =>
      if greedy then
        match more 0 with
        | Some r => Some r
        | None => k (MState i s cs)
        end
      else
        match k (MState i s cs) with
        | Some r => Some r
        | None => more 0
        end
  end.
Proof. destruct s; reflexivity. Qed.

Lemma within_pred hi n :
  hiZero hi = false -> within (option_map Nat.pred hi) n -> within hi (S n).
Proof.
  destruct hi as [[|h]|]; simpl; intros; try discriminate; lia.
Qed.

Lemma within_succ hi n :
  within hi (S n) -> hiZero hi = false /\ within (option_map Nat.pred hi) n.
Proof.
  destruct hi as [[|h]|]; simpl; intros; split; trivial; lia.
Qed.

(** Whatever [quant] returns comes from the continuation, called after
    an admissible number of iterations. *)
Lemma quant_sound greedy p k cs res :
  forall s lo hi i,
    quant greedy p lo hi k i s cs = Some res ->
    exists w after,
      s = w ++ after
      /\ Forall (fun c => p c = true) w /\ lo <= length w /\ within hi (length w)
      /\ k (MState (i + length w) after cs) = Some res.
Proof.
  assert (Hstop : forall s hi i,
             k (MState i s cs) = Some res ->
             exists w after,
               s = w ++ after
               /\ Forall (fun c => p c = true) w /\ 0 <= length w
               /\ within hi (length w)
               /\ k (MState (i + length w) after cs) = Some res).
  { intros s hi i H. exists [], s. simpl. rewrite Nat.add_0_r.
    repeat split; trivial. destruct hi; simpl; lia. }
  induction s as [|c tl IH]; intros lo hi i H; rewrite quant_unfold in H; simpl in H.
  - destruct lo; [|discriminate].
    destruct greedy; [|destruct (k (MState i [] cs)) eqn:E; [|discriminate]];
      apply Hstop; congruence.
  - assert (Hmore : forall lo',
               (if p c && negb (hiZero hi)
                then quant greedy p lo' (option_map Nat.pred hi) k (S i) tl cs
                else None) = Some res ->
               exists w after,
                 c :: tl = w ++ after
                 /\ Forall (fun c => p c = true) w /\ S lo' <= length w
                 /\ within hi (length w)
                 /\ k (MState (i + length w) after cs) = Some res).
    { intros lo' Hm. destruct (p c) eqn:Hp; [|discriminate].
      destruct (hiZero hi) eqn:Hz; [discriminate|]. simpl in Hm.
      apply IH in Hm. destruct Hm as (w & after & -> & Hw & Hlo & Hhi & Hk).
      exists (c :: w), after. simpl. rewrite Nat.add_succ_r.
      repeat split; auto using within_pred with arith. }
    destruct lo as [|lo'].
    + destruct greedy.
      * match type of H with
        | match ?m with _ => _ end = _ => destruct m eqn:E
        end.
        -- injection H as <-. apply Hmore in E.
           destruct E as (w & after & ? & ? & ? & ? & ?).
           exists w, after. repeat split; trivial. lia.
        -- now apply Hstop.
      * destruct (k (MState i (c :: tl) cs)) eqn:E.
        -- injection H as <-. now apply Hstop.
        -- apply Hmore in H. destruct H as (w & after & ? & ? & ? & ? & ?).
           exists w, after. repeat split; trivial. lia.
    + now apply Hmore.
Qed.

(** [quant] finds a match whenever some admissible number of iterations
    lets the continuation succeed. *)
Lemma quant_complete greedy p k cs after :
  forall w lo hi i,
    Forall (fun c => p c = true) w -> lo <= length w -> within hi (length w) ->
    k (MState (i + length w) after cs) <> None ->
    quant greedy p lo hi k i (w ++ after) cs <> None.
Proof.
  induction w as [|c w IH]; intros lo hi i Hw Hlo Hhi Hk;
    rewrite quant_unfold; simpl in *.
  - rewrite Nat.add_0_r in Hk.
    replace lo with 0 by lia.
    destruct greedy.
    + match goal with
      | |- match ?m with _ => _ end <> _ => destruct m
      end; [discriminate|assumption].
    + destruct (k (MState i after cs)); [discriminate|congruence].
  - inversion Hw as [|? ? Hc Hw']; subst.
    apply within_succ in Hhi. destruct Hhi as [Hz Hhi].
    rewrite Hc, Hz. simpl.
    rewrite Nat.add_succ_r in Hk.
    destruct lo as [|lo'].
    + specialize (IH 0 _ (S i) Hw' (Nat.le_0_l _) Hhi Hk).
      destruct greedy.
      * destruct (quant true p 0 (option_map Nat.pred hi) k (S i) (w ++ after) cs);
          [discriminate|congruence].
      * destruct (k (MState i (c :: w ++ after) cs)); [discriminate|assumption].
    + apply IH; trivial. lia.
Qed.

Lemma capture_consumed n i w after cs cs1 :
  capture n (MState i (w ++ after) cs) (MState (i + length w) after cs1)
  = MState (i + length w) after ((n, w) :: cs1).
Proof.
  unfold capture. simpl. f_equal. f_equal. f_equal.
  replace (i + length w - i) with (length w + 0) by lia.
  rewrite firstn_app_2. simpl. apply app_nil_r.
Qed.

(** Soundness of the matcher: its result is the continuation's, on one of
    the matches of the pattern. *)
Theorem run_sound r :
  forall k i s cs res,
    run r k (MState i s cs) = Some res ->
    exists w after cs',
      s = w ++ after /\ den r i w after cs cs'
      /\ k (MState (i + length w) after cs') = Some res.
Proof.
  induction r as [|p|greedy lo hi p|r1 IH1 r2 IH2|r1 IH1 r2 IH2|n r1 IH1| |];
    intros k i s cs res H; simpl in H.
  - exists [], s, cs. simpl. rewrite Nat.add_0_r. auto.
  - destruct s as [|c tl]; [discriminate|].
    destruct (p c) eqn:Hp; [|discriminate].
    exists [c], tl, cs. simpl. rewrite Nat.add_1_r. eauto 6.
  - apply quant_sound in H. destruct H as (w & after & ? & ? & ? & ? & ?).
    exists w, after, cs. simpl. auto 6.
  - apply IH1 in H. destruct H as (w1 & after1 & cs1 & -> & D1 & H).
    apply IH2 in H. destruct H as (w2 & after & cs2 & -> & D2 & H).
    exists (w1 ++ w2), after, cs2. rewrite <- app_assoc. split; trivial.
    split.
    + simpl. exists w1, w2, cs1. auto.
    + rewrite length_app, Nat.add_assoc. exact H.
  - destruct (run r1 k (MState i s cs)) eqn:E.
    + injection H as <-. apply IH1 in E.
      destruct E as (w & after & cs' & ? & ? & ?).
      exists w, after, cs'. simpl. auto.
    + apply IH2 in H. destruct H as (w & after & cs' & ? & ? & ?).
      exists w, after, cs'. simpl. auto.
  - apply IH1 in H. destruct H as (w & after & cs1 & -> & D & H).
    rewrite capture_consumed in H.
    exists w, after, ((n, w) :: cs1). simpl. eauto.
  - destruct (Nat.eqb_spec i 0); [|discriminate].
    exists [], s, cs. simpl. rewrite Nat.add_0_r. auto.
  - destruct s; [|discriminate].
    exists [], [], cs. simpl. rewrite Nat.add_0_r. auto.
Qed.

(** Completeness of the matcher: it succeeds whenever the pattern has a
    match on which the continuation succeeds. *)
Theorem run_complete r :
  forall k i w after cs cs',
    den r i w after cs cs' ->
    k (MState (i + length w) after cs') <> None ->
    run r k (MState i (w ++ after) cs) <> None.
Proof.
  induction r as [|p|greedy lo hi p|r1 IH1 r2 IH2|r1 IH1 r2 IH2|n r1 IH1| |];
    intros k i w after cs cs' D Hk; simpl in D |- *.
  - destruct D as [-> ->]. simpl in *. now rewrite Nat.add_0_r in Hk.
  - destruct D as [(c & -> & Hp) ->]. simpl in *. rewrite Hp.
    now rewrite Nat.add_1_r in Hk.
  - destruct D as (Hw & Hlo & Hhi & ->). now apply quant_complete.
  - destruct D as (w1 & w2 & cs1 & -> & D1 & D2).
    rewrite <- app_assoc. eapply IH1; eauto.
    eapply IH2; eauto. now rewrite length_app, Nat.add_assoc in Hk.
  - destruct D as [D|D].
    + specialize (IH1 k _ _ _ _ _ D Hk).
      destruct (run r1 k (MState i (w ++ after) cs)); [discriminate|congruence].
    + specialize (IH2 k _ _ _ _ _ D Hk).
      destruct (run r1 k (MState i (w ++ after) cs)); [discriminate|assumption].
  - destruct D as (cs1 & D & ->).
    eapply IH1; eauto. now rewrite capture_consumed.
  - destruct D as (-> & -> & ->). simpl in *. assumption.
  - destruct D as (-> & -> & ->). simpl in *. now rewrite Nat.add_0_r in Hk.
Qed.

End Matcher.

(* ================================================================== *)
(** ** [exec]: the leftmost match *)

Lemma execFrom_sound r :
  forall s i m,
    execFrom r i s = Some m ->
    exists pre w after,
      s = pre ++ w ++ after
      /\ den r (i + length pre) w after [] (groups m)
      /\ index m = i + length pre /\ matched m = w.
Proof.
  induction s as [|c tl IH]; intros i m H; simpl in H; unfold matchAt in H.
  - destruct (run r (fun st => Some st) (MState i [] [])) eqn:E; [|discriminate].
    injection H as <-.
    apply run_sound in E. destruct E as (w & after & cs' & Hs & D & [= <-]).
    exists [], w, after. simpl. rewrite Nat.add_0_r.
    repeat split; trivial.
    rewrite Hs. replace (i + length w - i) with (length w + 0) by lia.
    rewrite firstn_app_2. simpl. apply app_nil_r.
  - destruct (run r (fun st => Some st) (MState i (c :: tl) [])) eqn:E.
    + injection H as <-.
      apply run_sound in E. destruct E as (w & after & cs' & Hs & D & [= <-]).
      exists [], w, after. simpl. rewrite Nat.add_0_r.
      repeat split; trivial.
      rewrite Hs. replace (i + length w - i) with (length w + 0) by lia.
      rewrite firstn_app_2. simpl. apply app_nil_r.
    + apply IH in H. destruct H as (pre & w & after & -> & D & Hi & Hm).
      exists (c :: pre), w, after. simpl. rewrite Nat.add_succ_r.
      auto.
Qed.

Lemma execFrom_complete r :
  forall pre w after cs' i,
    den r (i + length pre) w after [] cs' ->
    execFrom r i (pre ++ w ++ after) <> None.
Proof.
  induction pre as [|c pre IH]; intros w after cs' i D.
  - simpl in D. rewrite Nat.add_0_r in D.
    assert (matchAt r i (w ++ after) <> None) as Hm
      by (unfold matchAt; eapply run_complete; eauto; discriminate).
    simpl. destruct (w ++ after); simpl;
      destruct (matchAt r i _); congruence.
  - simpl in D. rewrite Nat.add_succ_r in D.
    apply (IH w after cs' (S i)) in D.
    simpl. destruct (matchAt r i _); [discriminate|assumption].
Qed.

Lemma exec_sound r s m :
  exec r s = Some m ->
  exists pre w after,
    s = pre ++ w ++ after
    /\ den r (length pre) w after [] (groups m)
    /\ index m = length pre /\ matched m = w.
Proof. intros H. now apply execFrom_sound in H. Qed.

Lemma exec_complete r pre w after cs' :
  den r (length pre) w after [] cs' -> exec r (pre ++ w ++ after) <> None.
Proof. intros D. eapply execFrom_complete; eauto. Qed.

(** A pattern without any match in [s] makes [exec] return [null]. *)
Lemma exec_none r s :
  (forall pre w after cs',
      s = pre ++ w ++ after -> ~ den r (length pre) w after [] cs') ->
  exec r s = None.
Proof.
  intros H. destruct (exec r s) as [m|] eqn:E; trivial.
  apply exec_sound in E. destruct E as (pre & w & after & Hs & D & _).
  now apply H in D.
Qed.

(** Destructs a hypothesis [den r ...] for a pattern [r] given in full. *)
Ltac den_inv D :=
  cbn [den seq alt plus star plusLazy opt lit] in D;
  repeat match goal with
         | H : exists _, _ |- _ => destruct H
         | H : _ /\ _ |- _ => destruct H
         end;
  subst.

Lemma chareq_eq a b : chareq a b = true <-> a = b.
Proof. apply N.eqb_eq. Qed.

Lemma streq_eq a : forall b, streq a b = true <-> a = b.
Proof.
  induction a as [|x a IH]; destruct b as [|y b]; simpl;
    try (split; [discriminate|congruence]); try tauto.
  rewrite andb_true_iff, chareq_eq, IH. split; [intros [-> ->]|intros [= -> ->]]; auto.
Qed.

Lemma streq_neq a b : streq a b = false <-> a <> b.
Proof.
  rewrite <- streq_eq. destruct (streq a b); split; congruence.
Qed.

(** Destructs a hypothesis [exec r s = Some m] for a pattern [r] given in
    full into the pieces of [s] that the parts of [r] have matched. *)
Ltac exec_inv H :=
  apply exec_sound in H;
  let pre := fresh "pre" in
  let w := fresh "w" in
  let after := fresh "after" in
  let Hs := fresh "Hs" in
  let D := fresh "D" in
  let Hi := fresh "Hi" in
  let Hm := fresh "Hm" in
  destruct H as (pre & w & after & Hs & D & Hi & Hm);
  den_inv D;
  repeat match goal with
         | H : length ?p = 0 |- _ =>
             apply length_zero_iff_nil in H; subst p
         | H : chareq _ _ = true |- _ => apply chareq_eq in H; subst
         end;
  cbn [app] in *; repeat rewrite app_nil_r in *.

Ltac cap_solve :=
  match goal with
  | H : groups ?m = _ |- context [at_ ?m _] =>
      unfold at_; rewrite H; reflexivity
  end.

(* ================================================================== *)
(** ** What the patterns of the source match *)

Lemma fence_shape s m :
  exec fencePattern s = Some m ->
  exists tag,
    s = str "```" ++ tag /\ Forall (fun c => isWord c = true) tag
    /\ at_ m 1 = Some tag.
Proof.
  intros H. unfold fencePattern in H. exec_inv H.
  match goal with
  | Hw : Forall _ ?t |- _ => exists t; split; [reflexivity|split; [exact Hw|cap_solve]]
  end.
Qed.

Lemma heading_shape s m :
  exec headingPattern s = Some m ->
  exists h sp t,
    s = h ++ sp ++ t
    /\ Forall (fun c => c = ch "#") h /\ 1 <= length h /\ length h <= 6
    /\ Forall (fun c => isWhiteSpace c = true) sp /\ 1 <= length sp
    /\ Forall (fun c => isDot c = true) t /\ 1 <= length t
    /\ at_ m 1 = Some h /\ at_ m 2 = Some t.
Proof.
  intros H. unfold headingPattern in H. exec_inv H.
  do 3 eexists. repeat split; try eassumption; try cap_solve; try reflexivity.
  eapply Forall_impl; [|eassumption]. intros c Hc. symmetry. now apply chareq_eq.
Qed.

Lemma todo_shape s m :
  exec todoPattern s = Some m ->
  exists c tl t,
    s = c :: tl /\ oneOf ["-"; "*"]%char c = true
    /\ 1 <= length t /\ at_ m 2 = Some t.
Proof.
  intros H. unfold todoPattern in H. exec_inv H.
  do 3 eexists. repeat split; try eassumption; try cap_solve; try reflexivity.
Qed.

Lemma bullet_shape s m :
  exec bulletPattern s = Some m ->
  exists c tl t,
    s = c :: tl /\ oneOf ["-"; "*"]%char c = true
    /\ 1 <= length t /\ at_ m 1 = Some t.
Proof.
  intros H. unfold bulletPattern in H. exec_inv H.
  do 3 eexists. repeat split; try eassumption; try cap_solve; try reflexivity.
Qed.

Lemma numbered_shape s m :
  exec numberedPattern s = Some m ->
  exists c tl t,
    s = c :: tl /\ isDigit c = true
    /\ 1 <= length t /\ at_ m 1 = Some t.
Proof.
  intros H. unfold numberedPattern in H. exec_inv H.
  match goal with
  | Hd : Forall (fun c => isDigit c = true) ?d |- _ =>
      destruct d as [|c d]; [simpl in *; lia|inversion Hd; subst]
  end.
  do 3 eexists. repeat split; try eassumption; try cap_solve; try reflexivity.
Qed.

Lemma quote_shape s m :
  exec quotePattern s = Some m ->
  exists tl t,
    s = ch ">" :: tl /\ 1 <= length t /\ at_ m 1 = Some t.
Proof.
  intros H. unfold quotePattern in H. exec_inv H.
  do 2 eexists. repeat split; try eassumption; try cap_solve; try reflexivity.
Qed.

(** A match of the inline pattern: a non-empty span between two
    delimiters, and one annotated segment for its inner text. *)
Lemma inline_shape s m :
  exec inlinePattern s = Some m ->
  exists pre mid post inner a,
    s = pre ++ mid ++ post
    /\ index m = length pre /\ matched m = mid
    /\ 1 <= length inner /\ length inner < length mid
    /\ Forall (fun c => isDot c = true) inner
    /\ annotatedSegment m = [MkSegment inner (Some a)]
    /\ hasAnnotation (Some a) = true.
Proof.
  intros H. apply exec_sound in H.
  destruct H as (pre & w & after & Hs & D & Hi & Hm).
  unfold inlinePattern, boldSpan, strikeSpan, codeSpan, starSpan,
    underscoreSpan in D.
  cbn [den seq alt plus star plusLazy opt lit] in D.
  destruct D as (cs1 & D & Hg).
  destruct D as [D|[D|[D|[D|D]]]];
    repeat match goal with
           | H : exists _, _ |- _ => destruct H
           | H : _ /\ _ |- _ => destruct H
           end; subst;
    match goal with
    | Hw : Forall _ ?t |- _ =>
        exists pre; eexists; exists after, t; eexists;
        split; [reflexivity|];
        split; [assumption|]; split; [assumption|];
        split; [assumption|];
        split; [repeat rewrite length_app; simpl; lia|];
        split; [exact Hw|];
        split; [unfold annotatedSegment, at_; rewrite Hg; reflexivity|reflexivity]
    end.
Qed.

(* ================================================================== *)
(** ** The inline tokenizer *)

Lemma slice_prefix {A : Type} (pre tl : list A) :
  slice (pre ++ tl) 0 (length pre) = pre.
Proof.
  unfold slice. rewrite Nat.sub_0_r. simpl.
  replace (length pre) with (length pre + 0) by lia.
  rewrite firstn_app_2. simpl. apply app_nil_r.
Qed.

Lemma sliceFrom_suffix {A : Type} (pre mid post : list A) :
  sliceFrom (pre ++ mid ++ post) (length pre + length mid) = post.
Proof.
  unfold sliceFrom. rewrite app_assoc, <- length_app.
  rewrite skipn_app, skipn_all, Nat.sub_diag. reflexivity.
Qed.

Lemma tokenLoop_step fuel c tl segments :
  tokenLoop (S fuel) (c :: tl) segments =
  match exec inlinePattern (c :: tl) with
  | None => Ok (segments ++ [plainSegment (c :: tl)])
  | Some m =>
      tokenLoop fuel
        (sliceFrom (c :: tl) (index m + length (matched m)))
        (segments ++
           (if 0 <? index m
            then [plainSegment (slice (c :: tl) 0 (index m))]
            else []) ++ annotatedSegment m)
  end.
Proof. reflexivity. Qed.

(** The [while] loop of the tokenizer ends within one iteration per code
    unit; what it pushes is never empty, and it pushes something as soon
    as there is text left. *)
Lemma tokenLoop_ok fuel :
  forall remaining segments,
    length remaining <= fuel ->
    exists out,
      tokenLoop fuel remaining segments = Ok (segments ++ out)
      /\ Forall (fun seg => 1 <= length (content seg)) out
      /\ (remaining <> [] -> out <> []).
Proof.
  induction fuel as [|fuel IH]; intros remaining segments Hf.
  - destruct remaining; [|simpl in Hf; lia].
    exists []. simpl. rewrite app_nil_r. auto.
  - destruct remaining as [|c tl].
    + exists []. simpl. rewrite app_nil_r. auto.
    + rewrite tokenLoop_step.
      destruct (exec inlinePattern (c :: tl)) as [m|] eqn:E.
      * apply inline_shape in E.
        destruct E as (pre & mid & post & inner & a & Hs & Hi & Hm & Hin & Hlt
                       & _ & Hseg & _).
        rewrite Hs, Hi, Hm, Hseg, slice_prefix, sliceFrom_suffix.
        apply (f_equal (@length _)) in Hs. simpl in Hs.
        rewrite !length_app in Hs. simpl in Hf.
        match goal with
        | |- context [tokenLoop fuel post ?acc] =>
            destruct (IH post acc) as (out & Hout & Hall & _); [lia|]
        end.
        eexists. split; [rewrite Hout, <- !app_assoc; reflexivity|].
        split.
        -- apply Forall_app. split; [|apply Forall_app; split; trivial].
           ++ destruct (Nat.ltb_spec 0 (length pre)); constructor;
                [simpl; lia|constructor].
           ++ constructor; [simpl; lia|constructor].
        -- intros _. destruct (0 <? length pre); discriminate.
      * exists [plainSegment (c :: tl)]. split; [reflexivity|]. split.
        -- constructor; [simpl; lia|constructor].
        -- discriminate.
Qed.

Lemma splitSegment_ok seg :
  1 <= length (content seg) ->
  exists parts,
    splitSegment seg = Ok parts /\ parts <> []
    /\ Forall (fun p => 1 <= length (content p)
                        /\ length (content p) <= RICH_TEXT_MAX) parts.
Proof.
  intros Hne. pose proof RICH_TEXT_MAX_pos as Hk.
  destruct (splitSegment_cases seg) as [[L E]|[L [cs [E C]]]].
  - exists [seg]. split; [exact E|]. split; [discriminate|].
    constructor; [split; assumption|constructor].
  - exists (map (chunkSegment seg) cs). split; [exact E|]. split.
    + assert (cs <> []) as Hcs.
      { eapply Chunked_nonempty; eauto. intros Z. rewrite Z in Hne. simpl in Hne. lia. }
      destruct cs; [congruence|discriminate].
    + apply Forall_map.
      eapply Forall_impl; [|eapply Chunked_bounds; eauto].
      intros c Hc. now rewrite content_chunkSegment.
Qed.

Lemma splitAll_ok segments :
  forall result,
    Forall (fun seg => 1 <= length (content seg)) segments ->
    exists out,
      splitAll segments result = Ok (result ++ out)
      /\ Forall (fun p => 1 <= length (content p)
                          /\ length (content p) <= RICH_TEXT_MAX) out
      /\ (segments <> [] -> out <> []).
Proof.
  induction segments as [|seg tl IH]; intros result Hall; simpl.
  - exists []. rewrite app_nil_r. auto.
  - inversion Hall as [|? ? Hseg Htl]; subst.
    destruct (splitSegment_ok seg Hseg) as (parts & -> & Hne & Hparts).
    simpl. destruct (IH (result ++ parts) Htl) as (out & -> & Hout & _).
    exists (parts ++ out). rewrite app_assoc. repeat split; trivial.
    + apply Forall_app. auto.
    + intros _ Z. apply app_eq_nil in Z. tauto.
Qed.

(** The tokenizer ends, on every text; on a text that is not empty it
    returns at least one segment, and no segment is empty or longer
    than [RICH_TEXT_MAX]. *)
Lemma parseInlineAnnotations_ok text :
  exists rt,
    parseInlineAnnotations text = Ok rt
    /\ Forall (fun p => 1 <= length (content p)
                        /\ length (content p) <= RICH_TEXT_MAX) rt
    /\ (text <> [] -> rt <> []).
Proof.
  unfold parseInlineAnnotations.
  destruct (@tokenLoop_ok (length text) text []) as (segs & -> & Hsegs & Hne);
    [lia|].
  simpl. destruct (@splitAll_ok segs [] Hsegs) as (rt & -> & Hrt & Hne').
  exists rt. repeat split; trivial.
  intros H. apply Hne', Hne, H.
Qed.

Lemma plainRichText_ok c :
  exists rt,
    plainRichText c = Ok rt /\ rt <> []
    /\ Forall (fun p => length (content p) <= RICH_TEXT_MAX) rt
    /\ (c = [] -> rt = [plainSegment []])
    /\ (c <> [] -> Forall (fun p => 1 <= length (content p)) rt).
Proof.
  unfold plainRichText. destruct c as [|x c].
  - exists [plainSegment []]. simpl.
    split; [reflexivity|]. split; [discriminate|].
    split; [constructor; [simpl; lia|constructor]|].
    split; congruence.
  - change (length (x :: c) =? 0) with false. cbv iota.
    destruct (splitSegment_ok (plainSegment (x :: c))) as (parts & -> & Hne & Hparts);
      [simpl; lia|].
    exists parts. repeat split; trivial; try discriminate.
    + eapply Forall_impl; [|exact Hparts]. simpl. tauto.
    + intros _. eapply Forall_impl; [|exact Hparts]. simpl. tauto.
Qed.

(* ================================================================== *)
(** ** Splitting the input into lines *)

Lemma matchAt_sound r i s st' :
  matchAt r i s = Some st' ->
  exists w after cs',
    s = w ++ after /\ den r i w after [] cs'
    /\ st' = MState (i + length w) after cs'.
Proof.
  unfold matchAt. intros H. apply run_sound in H.
  destruct H as (w & after & cs' & ? & ? & [= <-]). eauto 6.
Qed.

Lemma splitLoop_step fuel r fromP n q c tl out :
  splitLoop (S fuel) r fromP n q (c :: tl) out =
  match matchAt r q (c :: tl) with
  | None => splitLoop fuel r fromP (S n) (S q) tl out
  | Some st' =>
      if Nat.eqb (pos st') q && Nat.eqb n 0
      then splitLoop fuel r fromP (S n) (S q) tl out
      else splitLoop fuel r (rest st') 0 (pos st') (rest st')
                     (out ++ [firstn n fromP])
  end.
Proof. reflexivity. Qed.

(** [split] ends: two iterations per code unit are enough, whatever the
    separator. *)
Lemma splitLoop_ok r fuel :
  forall fromP n q s out,
    2 * length s + (if Nat.eqb n 0 then 0 else 1) <= fuel ->
    exists lines,
      splitLoop fuel r fromP n q s out = Ok (out ++ lines) /\ lines <> [].
Proof.
  induction fuel as [|fuel IH]; intros fromP n q s out Hf.
  - destruct s; [|simpl in Hf; lia].
    exists [fromP]. split; [reflexivity|discriminate].
  - destruct s as [|c tl].
    + exists [fromP]. split; [reflexivity|discriminate].
    + rewrite splitLoop_step. simpl in Hf.
      assert (Hnext : exists lines,
                 splitLoop fuel r fromP (S n) (S q) tl out = Ok (out ++ lines)
                 /\ lines <> []).
      { apply IH. simpl. destruct (Nat.eqb n 0); lia. }
      destruct (matchAt r q (c :: tl)) as [st'|] eqn:E; trivial.
      apply matchAt_sound in E. destruct E as (w & after & cs' & Hs & _ & ->).
      cbn [pos rest].
      apply (f_equal (@length _)) in Hs. rewrite length_app in Hs. simpl in Hs.
      destruct (Nat.eqb_spec (q + length w) q) as [Hw|Hw];
        destruct (Nat.eqb_spec n 0) as [Hn|Hn]; cbn [andb]; trivial;
        (destruct (IH after 0 (q + length w) after (out ++ [firstn n fromP]))
          as (lines & -> & _); [simpl; lia|];
         exists (firstn n fromP :: lines); rewrite <- app_assoc;
         split; [reflexivity|discriminate]).
Qed.

Lemma split_ok r s : exists lines, split r s = Ok lines.
Proof.
  unfold split. destruct s as [|c tl].
  - destruct (matchAt r 0 []); eauto.
  - destruct (@splitLoop_ok r (2 * length (c :: tl) + 1) (c :: tl) 0 0 (c :: tl) [])
      as (lines & H & _); [simpl; lia|].
    exists lines. exact H.
Qed.

(* ================================================================== *)
(** ** The line-by-line scan *)

Lemma collectFence_length lines :
  forall codeLines, length (snd (collectFence lines codeLines)) <= length lines.
Proof.
  induction lines as [|l tl IH]; intros codeLines; simpl.
  - lia.
  - destruct (streq l (str "```")); simpl.
    + lia.
    + specialize (IH (codeLines ++ [l])). lia.
Qed.

(** One iteration of the scan. *)
Lemma convertLoop_step fuel line rest blocks :
  convertLoop (S fuel) (line :: rest) blocks =
  match exec fencePattern line with
  | Some fenceMatch =>
      let language := orElse (at_ fenceMatch 1) (str "plain text") in
      let (codeLines, rest') := collectFence rest [] in
      rt <- plainRichText (join [LF] codeLines) ;;
      convertLoop fuel rest'
        (blocks ++ [makeBlock (str "code")
                              (MkPayload (Some rt) None (Some language))])
  | None =>
  if streq (trim line) [] then convertLoop fuel rest blocks
  else if streq (trim line) (str "---") then
    convertLoop fuel rest (blocks ++ [makeBlock (str "divider") emptyPayload])
  else
  match exec headingPattern (trim line) with
  | Some headingMatch =>
      h <- defined (at_ headingMatch 1) ;;
      t <- defined (at_ headingMatch 2) ;;
      rt <- parseInlineAnnotations t ;;
      convertLoop fuel rest
        (blocks ++ [richTextBlock
                      (str "heading_" ++ numberToString (Nat.min (length h) 3))
                      rt None])
  | None =>
  match exec todoPattern (trim line) with
  | Some todoMatch =>
      t <- defined (at_ todoMatch 2) ;;
      rt <- parseInlineAnnotations t ;;
      convertLoop fuel rest
        (blocks ++ [richTextBlock (str "to_do") rt
                      (Some (MkPayload None
                               (Some match at_ todoMatch 1 with
                                     | Some s => negb (streq s (str " "))
                                     | None => true
                                     end) None))])
  | None =>
  match exec bulletPattern (trim line) with
  | Some bulletMatch =>
      t <- defined (at_ bulletMatch 1) ;;
      rt <- parseInlineAnnotations t ;;
      convertLoop fuel rest
        (blocks ++ [richTextBlock (str "bulleted_list_item") rt None])
  | None =>
  match exec numberedPattern (trim line) with
  | Some numberedMatch =>
      t <- defined (at_ numberedMatch 1) ;;
      rt <- parseInlineAnnotations t ;;
      convertLoop fuel rest
        (blocks ++ [richTextBlock (str "numbered_list_item") rt None])
  | None =>
  match exec quotePattern (trim line) with
  | Some quoteMatch =>
      t <- defined (at_ quoteMatch 1) ;;
      rt <- parseInlineAnnotations t ;;
      convertLoop fuel rest (blocks ++ [richTextBlock (str "quote") rt None])
  | None =>
      rt <- parseInlineAnnotations (trim line) ;;
      convertLoop fuel rest (blocks ++ [richTextBlock (str "paragraph") rt None])
  end end end end end end.
Proof. reflexivity. Qed.

Lemma Finished_code rt lang :
  rt <> [] ->
  Forall (fun seg => length (content seg) <= RICH_TEXT_MAX) rt ->
  (rt = [plainSegment []] \/ Forall (fun seg => 1 <= length (content seg)) rt) ->
  Finished (makeBlock (str "code") (MkPayload (Some rt) None (Some lang))).
Proof. intros. right. left. simpl. eauto 6. Qed.

Lemma Finished_text ty rt extra :
  ty <> str "divider" -> ty <> str "code" ->
  match extra with Some e => rich_text e = None | None => True end ->
  rt <> [] ->
  Forall (fun seg => 1 <= length (content seg)
                     /\ length (content seg) <= RICH_TEXT_MAX) rt ->
  Finished (richTextBlock ty rt extra).
Proof.
  intros Hd Hc He Hne Hall. right. right. simpl.
  split; [assumption|]. split; [assumption|].
  exists rt. repeat split; trivial.
  destruct extra as [e|]; simpl; trivial. now rewrite He.
Qed.

Lemma heading_type_neq n d :
  hd 0%N d <> ch "h" -> str "heading_" ++ numberToString n <> d.
Proof. intros H <-. now apply H. Qed.

Ltac type_neq :=
  solve [ apply heading_type_neq; vm_compute; discriminate
        | vm_compute; discriminate ].

(** The scan ends without an error, one iteration per line being enough,
    and every block it appends is [Finished]. *)
Lemma convertLoop_ok fuel :
  forall lines blocks,
    length lines <= fuel ->
    exists bs,
      convertLoop fuel lines blocks = Ok (blocks ++ bs) /\ Forall Finished bs.
Proof.
  induction fuel as [|fuel IH]; intros lines blocks Hf.
  { destruct lines; [|simpl in Hf; lia].
    exists []. simpl. rewrite app_nil_r. auto. }
  destruct lines as [|line rest].
  { exists []. simpl. rewrite app_nil_r. auto. }
  simpl in Hf. rewrite convertLoop_step.
  assert (Hpush : forall b,
             Finished b ->
             exists bs, convertLoop fuel rest (blocks ++ [b]) = Ok (blocks ++ bs)
                        /\ Forall Finished bs).
  { intros b Hb. destruct (IH rest (blocks ++ [b])) as (bs & -> & Hbs); [lia|].
    exists (b :: bs). rewrite <- app_assoc. auto. }
  assert (Htext : forall ty extra t,
             ty <> str "divider" -> ty <> str "code" ->
             match extra with Some e => rich_text e = None | None => True end ->
             1 <= length t ->
             exists bs,
               (rt <- parseInlineAnnotations t ;;
                convertLoop fuel rest (blocks ++ [richTextBlock ty rt extra]))
               = Ok (blocks ++ bs) /\ Forall Finished bs).
  { intros ty extra t Hd Hc He Ht.
    destruct (parseInlineAnnotations_ok t) as (rt & -> & Hrt & Hne).
    cbn [bind]. apply Hpush, Finished_text; trivial.
    apply Hne. intros Z. rewrite Z in Ht. simpl in Ht. lia. }
  destruct (exec fencePattern line) as [fm|] eqn:Efence.
  { cbv zeta.
    pose proof (collectFence_length rest []) as Hlen.
    destruct (collectFence rest []) as [codeLines rest'].
    destruct (plainRichText_ok (join [LF] codeLines))
      as (rt & -> & Hne & Hmax & Hemp & Hfull).
    cbn [bind]. cbn [snd] in Hlen.
    destruct (IH rest'
                (blocks ++ [makeBlock (str "code")
                   (MkPayload (Some rt) None
                      (Some (orElse (at_ fm 1) (str "plain text"))))]))
      as (bs & -> & Hbs); [lia|].
    eexists (_ :: bs). rewrite <- app_assoc. split; [reflexivity|].
    constructor; trivial. apply Finished_code; trivial.
    destruct (join [LF] codeLines); [left|right]; auto. apply Hfull. discriminate. }
  destruct (streq (trim line) []) eqn:Eblank.
  { destruct (IH rest blocks) as (bs & -> & Hbs); [lia|]. eauto. }
  apply streq_neq in Eblank.
  destruct (streq (trim line) (str "---")) eqn:Ediv.
  { apply Hpush. left. auto. }
  destruct (exec headingPattern (trim line)) as [hm|] eqn:Eh.
  { apply heading_shape in Eh.
    destruct Eh as (h & sp & t & _ & _ & _ & _ & _ & _ & _ & Ht & -> & ->).
    cbn [bind defined]. apply Htext; trivial; type_neq. }
  destruct (exec todoPattern (trim line)) as [tm|] eqn:Et.
  { apply todo_shape in Et. destruct Et as (c & tl & t & _ & _ & Ht & ->).
    cbn [bind defined]. apply Htext; trivial; type_neq. }
  destruct (exec bulletPattern (trim line)) as [bm|] eqn:Eb.
  { apply bullet_shape in Eb. destruct Eb as (c & tl & t & _ & _ & Ht & ->).
    cbn [bind defined]. apply Htext; trivial; type_neq. }
  destruct (exec numberedPattern (trim line)) as [nm|] eqn:En.
  { apply numbered_shape in En. destruct En as (c & tl & t & _ & _ & Ht & ->).
    cbn [bind defined]. apply Htext; trivial; type_neq. }
  destruct (exec quotePattern (trim line)) as [qm|] eqn:Eq.
  { apply quote_shape in Eq. destruct Eq as (tl & t & _ & Ht & ->).
    cbn [bind defined]. apply Htext; trivial; type_neq. }
  apply Htext; trivial; try type_neq.
  destruct (trim line); [congruence|simpl; lia].
Qed.

(** [markdownToBlocks] returns, and returns finished blocks only. *)
Lemma markdownToBlocks_ok text :
  exists blocks, markdownToBlocks text = Ok blocks /\ Forall Finished blocks.
Proof.
  unfold markdownToBlocks. cbv zeta.
  destruct (isEmpty (trim text)).
  - exists []. auto.
  - destruct (split_ok linePattern (trim text)) as (lines & ->). cbn [bind].
    destruct (@convertLoop_ok (length lines) lines []) as (bs & H & Hbs); [lia|].
    exists bs. auto.
Qed.

(* ================================================================== *)
(** ** The batcher *)

Lemma batchLoop_unfold fuel blocks i batches :
  batchLoop fuel blocks i batches =
  if i <? length blocks then
    match fuel with
    | 0 => OutOfFuel
    | S fuel' =>
        batchLoop fuel' blocks (i + BLOCKS_PER_BATCH)
                  (batches ++ [slice blocks i (i + BLOCKS_PER_BATCH)])
    end
  else Ok batches.
Proof. destruct fuel; reflexivity. Qed.

Lemma batchLoop_chunked blocks fuel :
  forall i batches,
    length blocks - i <= fuel ->
    exists cs,
      batchLoop fuel blocks i batches = Ok (batches ++ cs)
      /\ Chunked BLOCKS_PER_BATCH (skipn i blocks) cs.
Proof.
  pose proof BLOCKS_PER_BATCH_pos as Hk.
  induction fuel as [|fuel IH]; intros i batches Hf;
    rewrite batchLoop_unfold;
    destruct (Nat.ltb_spec i (length blocks)) as [Hi|Hi]; try lia.
  - exists []. rewrite app_nil_r, skipn_all2 by lia. split; [reflexivity|constructor].
  - destruct (IH (i + BLOCKS_PER_BATCH)
                 (batches ++ [slice blocks i (i + BLOCKS_PER_BATCH)]))
      as [cs [E C]]; [lia|].
    exists (slice blocks i (i + BLOCKS_PER_BATCH) :: cs). split.
    + rewrite E, <- app_assoc. reflexivity.
    + now apply Chunked_slice.
  - exists []. rewrite app_nil_r, skipn_all2 by lia. split; [reflexivity|constructor].
Qed.

(** C1. Whatever the input, [markdownToBlocksBatched] returns the blocks of
    [markdownToBlocks] cut into consecutive batches, in order: no batches
    at all for no blocks; otherwise the batches concatenated give the
    blocks back, every batch holds between 1 and 100 blocks, every batch
    but the last holds exactly 100, there are [ceil(n / 100)] of them,
    and when the number of blocks is a multiple of 100 every batch holds
    exactly 100. *)
Theorem markdownToBlocksBatched_partition (text : jsstring) :
  exists blocks batches,
    markdownToBlocks text = Ok blocks
    /\ markdownToBlocksBatched text = Ok batches
    /\ (blocks = [] -> batches = [])
    /\ concat batches = blocks
    /\ Forall (fun b => 1 <= length b /\ length b <= 100) batches
    /\ Forall (fun b => length b = 100) (removelast batches)
    /\ length batches = ceilDiv (length blocks) 100
    /\ (length blocks mod 100 = 0 -> Forall (fun b => length b = 100) batches).
Proof.
  change 100 with BLOCKS_PER_BATCH.
  pose proof BLOCKS_PER_BATCH_pos as Hk.
  destruct (markdownToBlocks_ok text) as (blocks & Hb & _).
  exists blocks.
  unfold markdownToBlocksBatched. rewrite Hb. cbn [bind].
  destruct blocks as [|b0 blocks'].
  - exists []. simpl. repeat split; auto using Forall_nil.
  - set (blocks := b0 :: blocks').
    change (length blocks =? 0) with false. cbv iota.
    destruct (@batchLoop_chunked blocks (length blocks) 0 []) as (cs & E & C); [lia|].
    simpl in E, C. exists cs.
    split; [reflexivity|]. split; [exact E|].
    split; [discriminate|].
    split; [eapply Chunked_concat; eauto|].
    split; [eapply Chunked_bounds; eauto|].
    split; [eapply Chunked_full; eauto|].
    split; [eapply Chunked_length; eauto|].
    intros Hm. eapply Chunked_exact; eauto.
Qed.

(* ================================================================== *)
(** ** Invariants of the finished blocks *)

(** C3. Whatever the input, every block that [markdownToBlocks] returns
    and that is not a divider has a rich-text sequence, which is not
    empty, and none of its segments is longer than 2000 code units. *)
Theorem markdownToBlocks_rich_text_invariant (text : jsstring) :
  exists blocks,
    markdownToBlocks text = Ok blocks
    /\ Forall (fun b =>
                 type b <> str "divider" ->
                 exists rt,
                   rich_text (payload b) = Some rt /\ rt <> []
                   /\ Forall (fun seg => length (content seg) <= 2000) rt)
              blocks.
Proof.
  destruct (markdownToBlocks_ok text) as (blocks & Hb & Hfin).
  exists blocks. split; trivial.
  eapply Forall_impl; [|exact Hfin].
  intros b [[Hd _]|[[_ (rt & Hrt & Hne & Hmax & _)]|(_ & _ & rt & Hrt & Hne & Hall)]] Hnd.
  - congruence.
  - exists rt. auto.
  - exists rt. repeat split; trivial.
    eapply Forall_impl; [|exact Hall]. simpl. unfold RICH_TEXT_MAX. tauto.
Qed.

(* ================================================================== *)
(** ** The contract of the tokenizer *)

(** C4, as the code has it: on the empty string the tokenizer returns no
    segment at all. *)
Lemma parseInlineAnnotations_empty : parseInlineAnnotations [] = Ok [].
Proof. reflexivity. Qed.

(** C4, amended. On every string that is not empty the tokenizer returns
    at least one segment (and none of its segments is empty); on the
    empty string it returns the empty sequence. *)
Theorem parseInlineAnnotations_segments (c : char) (text : jsstring) :
  (exists rt,
      parseInlineAnnotations (c :: text) = Ok rt /\ 1 <= length rt
      /\ Forall (fun seg => 1 <= length (content seg)) rt)
  /\ parseInlineAnnotations [] = Ok [].
Proof.
  split; [|reflexivity].
  destruct (parseInlineAnnotations_ok (c :: text)) as (rt & H & Hall & Hne).
  exists rt. split; trivial. split.
  - destruct rt; [now destruct Hne|simpl; lia].
  - eapply Forall_impl; [|exact Hall]. simpl. tauto.
Qed.

(* ================================================================== *)
(** ** Totality *)


(* ================================================================== *)
(** ** An input of a single line *)

Lemma linePattern_match i s st' :
  matchAt linePattern i s = Some st' -> In LF s.
Proof.
  intros H. apply matchAt_sound in H.
  destruct H as (w & after & cs' & -> & D & _).
  unfold linePattern in D. den_inv D.
  match goal with
  | H : chareq LF _ = true |- _ => apply chareq_eq in H; subst
  end.
  apply in_or_app. left. apply in_or_app. right. now left.
Qed.

Lemma splitLoop_no_separator fuel :
  forall fromP n q s out,
    ~ In LF s -> length s <= fuel ->
    splitLoop fuel linePattern fromP n q s out = Ok (out ++ [fromP]).
Proof.
  induction fuel as [|fuel IH]; intros fromP n q s out Hno Hf.
  - destruct s; [|simpl in Hf; lia]. reflexivity.
  - destruct s as [|c tl].
    + reflexivity.
    + rewrite splitLoop_step.
      destruct (matchAt linePattern q (c :: tl)) as [st'|] eqn:E.
      * apply linePattern_match in E. contradiction.
      * apply IH.
        -- intros Hin. apply Hno. now right.
        -- simpl in Hf. lia.
Qed.

(** A text without a line feed is one line. *)
Lemma split_single_line s :
  s <> [] -> ~ In LF s -> split linePattern s = Ok [s].
Proof.
  intros Hne Hno. unfold split. destruct s as [|c tl]; [congruence|].
  rewrite splitLoop_no_separator; trivial. lia.
Qed.

Lemma markdownToBlocks_single_line line :
  trim line = line -> line <> [] -> ~ In LF line ->
  markdownToBlocks line = convertLoop 1 [line] [].
Proof.
  intros Ht Hne Hno. unfold markdownToBlocks. cbv zeta. rewrite Ht.
  destruct line; [congruence|]. cbn [isEmpty].
  rewrite split_single_line; trivial.
Qed.

(* ================================================================== *)
(** ** Headings *)

Lemma hashes_split a :
  forall b x y,
    Forall (fun c => c = hash) a -> Forall (fun c => c = hash) b ->
    a ++ x = b ++ y ->
    (forall c r, x = c :: r -> c <> hash) ->
    (forall c r, y = c :: r -> c <> hash) ->
    a = b /\ x = y.
Proof.
  induction a as [|c a IH]; intros b x y Ha Hb E Hx Hy.
  - destruct b as [|d b]; simpl in E; [auto|].
    inversion Hb; subst. now destruct (Hx _ _ eq_refl).
  - inversion Ha; subst. destruct b as [|d b]; simpl in E.
    + subst y. now destruct (Hy _ _ eq_refl).
    + inversion Hb; subst. injection E as E.
      destruct (IH b x y) as [-> ->]; auto.
Qed.

Lemma Forall_repeat {A : Type} (P : A -> Prop) x n : P x -> Forall P (repeat x n).
Proof. intros H. induction n; simpl; constructor; auto. Qed.

(** The heading pattern has a match on hashes, white space and text on
    one line. *)
Lemma heading_matches h sp t :
  Forall (fun c => c = hash) h -> 1 <= length h -> length h <= 6 ->
  Forall (fun c => isWhiteSpace c = true) sp -> 1 <= length sp ->
  Forall (fun c => isDot c = true) t -> 1 <= length t ->
  exec headingPattern (h ++ sp ++ t) <> None.
Proof.
  intros Hh Hh1 Hh6 Hsp Hsp1 Ht Ht1.
  replace (h ++ sp ++ t) with ([] ++ (h ++ sp ++ t) ++ [])
    by (simpl; apply app_nil_r).
  apply (@exec_complete headingPattern [] (h ++ sp ++ t) [] [(2, t); (1, h)]).
  unfold headingPattern. cbn [den seq alt plus star plusLazy opt lit length].
  exists [], (h ++ sp ++ t), []. repeat split.
  exists h, (sp ++ t), [(1, h)]. split; [reflexivity|]. split.
  { exists []. split; [|reflexivity]. repeat split; trivial.
    eapply Forall_impl; [|exact Hh]. intros c ->. now apply chareq_eq. }
  exists sp, t, [(1, h)]. split; [reflexivity|]. split.
  { repeat split; trivial. }
  exists t, [], [(2, t); (1, h)]. split; [now rewrite app_nil_r|]. split.
  { exists [(1, h)]. repeat split; trivial. }
  repeat split.
Qed.

(** The step of the scan on a heading line. *)
Lemma convertLoop_heading line h sp t rest fuel blocks :
  trim line = h ++ sp ++ t ->
  Forall (fun c => c = hash) h -> 1 <= length h -> length h <= 6 ->
  Forall (fun c => isWhiteSpace c = true) sp -> 1 <= length sp ->
  Forall (fun c => isDot c = true) t -> 1 <= length t ->
  exec fencePattern line = None ->
  exists rt,
    rt <> []
    /\ convertLoop (S fuel) (line :: rest) blocks
       = convertLoop fuel rest
           (blocks ++ [richTextBlock
                         (str "heading_" ++ numberToString (Nat.min (length h) 3))
                         rt None]).
Proof.
  intros Htrim Hh Hh1 Hh6 Hsp Hsp1 Ht Ht1 Hfence.
  pose proof (heading_matches Hh Hh1 Hh6 Hsp Hsp1 Ht Ht1) as Hm.
  destruct (exec headingPattern (h ++ sp ++ t)) as [m|] eqn:E; [clear Hm|congruence].
  pose proof E as E'. apply heading_shape in E'.
  destruct E' as (h' & sp' & t' & Hs & Hh' & _ & _ & Hsp' & Hsp1' & _ & Ht1' & C1 & C2).
  assert (h = h') as <-.
  { destruct sp as [|x sp]; [simpl in Hsp1; lia|].
    destruct sp' as [|x' sp']; [simpl in Hsp1'; lia|].
    inversion Hsp; inversion Hsp'; subst.
    assert (isWhiteSpace hash = false) as Hw by reflexivity.
    apply (@hashes_split h h' (x :: sp ++ t) (x' :: sp' ++ t') Hh Hh' Hs).
    - intros c r [= <- _] Hc. congruence.
    - intros c r [= <- _] Hc. congruence. }
  destruct (parseInlineAnnotations_ok t') as (rt & Hrt & _ & Hne).
  exists rt. split.
  { apply Hne. destruct t'; [simpl in Ht1'; lia|discriminate]. }
  rewrite convertLoop_step, Hfence, Htrim.
  assert (streq (h ++ sp ++ t) [] = false) as ->.
  { apply streq_neq. destruct h; [simpl in Hh1; lia|discriminate]. }
  assert (streq (h ++ sp ++ t) (str "---") = false) as ->.
  { apply streq_neq. destruct h; [simpl in Hh1; lia|].
    inversion Hh; subst. discriminate. }
  rewrite E, C1, C2. cbn [defined bind]. rewrite Hrt. reflexivity.
Qed.

Lemma fence_first s m :
  exec fencePattern s = Some m -> exists tl, s = ch "`" :: tl.
Proof.
  intros H. apply fence_shape in H. destruct H as (tag & -> & _). simpl. eauto.
Qed.

Lemma exec_fence_hash tl : exec fencePattern (hash :: tl) = None.
Proof.
  destruct (exec fencePattern (hash :: tl)) eqn:E; trivial.
  apply fence_first in E. destruct E as (? & [=]).
Qed.

(** A line that starts with hashes not followed by white space matches
    none of the line patterns. *)
Lemma hash_line_patterns n text :
  1 <= n ->
  (forall c r, text = c :: r -> c <> hash /\ isWhiteSpace c = false) ->
  let line := repeat hash n ++ text in
  exec headingPattern line = None /\ exec todoPattern line = None
  /\ exec bulletPattern line = None /\ exec numberedPattern line = None
  /\ exec quotePattern line = None.
Proof.
  intros Hn Htext line.
  assert (exists tl, line = hash :: tl) as (tl & Hline)
    by (subst line; destruct n; [lia|simpl; eauto]).
  repeat split.
  - destruct (exec headingPattern line) as [m|] eqn:E; trivial.
    apply heading_shape in E.
    destruct E as (h & sp & t & Hs & Hh & _ & _ & Hsp & Hsp1 & _).
    destruct sp as [|x sp]; [simpl in Hsp1; lia|]. inversion Hsp; subst.
    assert (isWhiteSpace hash = false) as Hw by reflexivity.
    destruct (@hashes_split (repeat hash n) h text (x :: sp ++ t)) as [_ Ht];
      auto using Forall_repeat.
    + intros c r Hc. now apply (Htext c r).
    + intros c r [= <- _] Hc. congruence.
    + destruct (Htext x (sp ++ t) Ht). congruence.
  - rewrite Hline. destruct (exec todoPattern (hash :: tl)) as [m|] eqn:E; trivial.
    apply todo_shape in E. destruct E as (c & ? & ? & [= <- _] & Hc & _).
    discriminate.
  - rewrite Hline. destruct (exec bulletPattern (hash :: tl)) as [m|] eqn:E; trivial.
    apply bullet_shape in E. destruct E as (c & ? & ? & [= <- _] & Hc & _).
    discriminate.
  - rewrite Hline. destruct (exec numberedPattern (hash :: tl)) as [m|] eqn:E; trivial.
    apply numbered_shape in E. destruct E as (c & ? & ? & [= <- _] & Hc & _).
    discriminate.
  - rewrite Hline. destruct (exec quotePattern (hash :: tl)) as [m|] eqn:E; trivial.
    apply quote_shape in E. destruct E as (? & ? & [= ] & _).
Qed.

Lemma In_repeat {A : Type} (x y : A) n : In y (repeat x n) -> y = x.
Proof. induction n; simpl; intros []; auto. Qed.

Lemma numberToString_3 n : 3 <= n -> numberToString (Nat.min n 3) = str "3".
Proof. intros H. now rewrite Nat.min_r. Qed.

(** C6, as the code has it: a carriage return in the text of a heading
    line makes the heading pattern fail, since [.] does not match a line
    terminator and [$] only matches the end of the line.  The input is
    [# a], U+000D, [b]. *)
Lemma heading_text_with_carriage_return :
  markdownToBlocks (str "# a" ++ [CR] ++ str "b")
  = Ok [richTextBlock (str "paragraph")
          [plainSegment (str "# a" ++ [CR] ++ str "b")] None].
Proof. vm_compute. reflexivity. Qed.

(** C6, amended. A trimmed line made of [n] hashes, [1 <= n <= 6], then
    at least one space, then a non-empty text without line terminator
    (LF, CR, U+2028, U+2029) gives one heading block of level
    [min(n, 3)], so that 4, 5 and 6 hashes give [heading_3].  A trimmed
    line whose hashes are followed by nothing, or by a character that is
    neither a hash nor white space, gives one paragraph block. *)
Theorem heading_level_clamped :
  (forall n k text,
      1 <= n -> n <= 6 -> 1 <= k -> text <> [] ->
      Forall (fun c => isLineTerminator c = false) text ->
      let line := repeat hash n ++ repeat SP k ++ text in
      trim line = line ->
      exists rt,
        rt <> []
        /\ markdownToBlocks line
           = Ok [richTextBlock (str "heading_" ++ numberToString (Nat.min n 3))
                               rt None])
  /\ (forall n, 3 <= n ->
        str "heading_" ++ numberToString (Nat.min n 3) = str "heading_3")
  /\ (forall n text,
        1 <= n ->
        (forall c r, text = c :: r -> c <> hash /\ isWhiteSpace c = false) ->
        ~ In LF text ->
        let line := repeat hash n ++ text in
        trim line = line ->
        exists rt,
          rt <> []
          /\ markdownToBlocks line
             = Ok [richTextBlock (str "paragraph") rt None]).
Proof.
  split; [|split].
  - intros n k text Hn1 Hn6 Hk Htext Hlt line Htrim.
    assert (Hdot : Forall (fun c => isDot c = true) text).
    { eapply Forall_impl; [|exact Hlt]. intros c Hc. unfold isDot. now rewrite Hc. }
    assert (Hline : exists tl, line = hash :: tl)
      by (subst line; destruct n; [lia|simpl; eauto]).
    destruct Hline as (tl & Hline).
    destruct (@convertLoop_heading line (repeat hash n) (repeat SP k) text [] 0 [])
      as (rt & Hne & Hstep); trivial.
    + now apply Forall_repeat.
    + now rewrite repeat_length.
    + now rewrite repeat_length.
    + now apply Forall_repeat.
    + now rewrite repeat_length.
    + destruct text; [congruence|simpl; lia].
    + rewrite Hline. apply exec_fence_hash.
    + exists rt. split; trivial.
      rewrite markdownToBlocks_single_line; trivial.
      * rewrite Hstep, repeat_length. reflexivity.
      * rewrite Hline. discriminate.
      * subst line. intros Hin.
        apply in_app_or in Hin. destruct Hin as [Hin|Hin];
          [apply In_repeat in Hin; discriminate|].
        apply in_app_or in Hin. destruct Hin as [Hin|Hin];
          [apply In_repeat in Hin; discriminate|].
        rewrite Forall_forall in Hlt. apply Hlt in Hin. discriminate.
  - intros n Hn. now rewrite numberToString_3.
  - intros n text Hn Htext Hno line Htrim.
    destruct (hash_line_patterns Hn Htext) as (Hh & Ht & Hb & Hnum & Hq).
    fold line in Hh, Ht, Hb, Hnum, Hq.
    assert (Hline : exists tl, line = hash :: tl)
      by (subst line; destruct n; [lia|simpl; eauto]).
    destruct Hline as (tl & Hline).
    destruct (parseInlineAnnotations_ok line) as (rt & Hrt & _ & Hne).
    exists rt. split; [apply Hne; rewrite Hline; discriminate|].
    rewrite markdownToBlocks_single_line; trivial.
    + rewrite convertLoop_step, Htrim.
      assert (exec fencePattern line = None) as ->
          by (rewrite Hline; apply exec_fence_hash).
      assert (streq line [] = false) as ->
          by (apply streq_neq; rewrite Hline; discriminate).
      assert (streq line (str "---") = false) as ->
          by (apply streq_neq; rewrite Hline; discriminate).
      rewrite Hh, Ht, Hb, Hnum, Hq, Hrt. reflexivity.
    + rewrite Hline. discriminate.
    + subst line. intros Hin. apply in_app_or in Hin.
      destruct Hin as [Hin|Hin]; [apply In_repeat in Hin; discriminate|auto].
Qed.

(* ================================================================== *)
(** ** Bold before italic *)

(** The matcher's result is forced when the pattern has one match only. *)
Lemma run_unique r k i w after cs cs' res :
  den r i w after cs cs' ->
  (forall w2 after2 cs2,
      w ++ after = w2 ++ after2 -> den r i w2 after2 cs cs2 ->
      w2 = w /\ after2 = after /\ cs2 = cs') ->
  k (MState (i + length w) after cs') = Some res ->
  run r k (MState i (w ++ after) cs) = Some res.
Proof.
  intros D Huniq Hk.
  assert (run r k (MState i (w ++ after) cs) <> None) as Hsome
    by (eapply run_complete; eauto; congruence).
  destruct (run r k (MState i (w ++ after) cs)) as [res'|] eqn:E; [|congruence].
  apply run_sound in E. destruct E as (w2 & after2 & cs2 & Hs & D2 & Hk2).
  destruct (Huniq _ _ _ Hs D2) as (-> & -> & ->). congruence.
Qed.

Lemma star_free_split inner :
  forall x after,
    ~ In asterisk inner ->
    inner ++ [asterisk; asterisk] = x ++ asterisk :: asterisk :: after ->
    x = inner /\ after = [].
Proof.
  induction inner as [|a inner IH]; intros x after Hno E.
  - destruct x as [|c [|c' [|c'' x]]]; simpl in E; try discriminate.
    injection E as <-. auto.
  - destruct x as [|c x]; simpl in E.
    + injection E as -> _. destruct Hno. now left.
    + injection E as -> E. destruct (IH x after) as [-> ->]; auto.
      intros Hin. apply Hno. now right.
Qed.

(** On two asterisks, a text without asterisk or line terminator, and two
    asterisks, the bold alternative has exactly one match: the whole. *)
Lemma boldSpan_match inner k res :
  inner <> [] -> ~ In asterisk inner ->
  Forall (fun c => isDot c = true) inner ->
  let s := asterisk :: asterisk :: inner ++ [asterisk; asterisk] in
  k (MState (length s) [] [(2, inner)]) = Some res ->
  run boldSpan k (MState 0 s []) = Some res.
Proof.
  intros Hne Hno Hdot s Hk.
  rewrite <- (app_nil_r s).
  apply run_unique with (cs' := [(2, inner)]); trivial.
  - unfold boldSpan. cbn [den seq alt plus star plusLazy opt lit].
    exists [asterisk], (asterisk :: inner ++ [asterisk; asterisk]), [].
    split; [reflexivity|]. split; [split; [exists asterisk; split; reflexivity|reflexivity]|].
    exists [asterisk], (inner ++ [asterisk; asterisk]), [].
    split; [reflexivity|]. split; [split; [exists asterisk; split; reflexivity|reflexivity]|].
    exists inner, [asterisk; asterisk], [(2, inner)].
    split; [reflexivity|]. split.
    { exists []. split; [|reflexivity]. repeat split; trivial.
      destruct inner; [congruence|simpl; lia]. }
    exists [asterisk], [asterisk], [(2, inner)].
    split; [reflexivity|]. split; [split; [exists asterisk; split; reflexivity|reflexivity]|].
    split; [exists asterisk; split; reflexivity|reflexivity].
  - intros w2 after2 cs2 Hs D. unfold boldSpan in D. den_inv D.
    repeat match goal with
           | H : chareq _ _ = true |- _ => apply chareq_eq in H; subst
           end.
    rewrite app_nil_r in Hs. subst s. simpl in Hs.
    injection Hs as Hs. rewrite <- !app_assoc in Hs. simpl in Hs.
    apply star_free_split in Hs; trivial. destruct Hs as [-> ->].
    repeat split.
Qed.

Lemma execFrom_hit r i s st' :
  matchAt r i s = Some st' ->
  execFrom r i s = Some (MatchRes i (firstn (pos st' - i) s) (caps st')).
Proof. intros H. destruct s; simpl; now rewrite H. Qed.

Lemma tokenLoop_bold inner fuel :
  inner <> [] -> ~ In asterisk inner ->
  Forall (fun c => isDot c = true) inner ->
  tokenLoop (S fuel) (str "**" ++ inner ++ str "**") [] = Ok [boldSegment inner].
Proof.
  intros Hne Hno Hdot.
  change (str "**" ++ inner ++ str "**")
    with (asterisk :: asterisk :: inner ++ [asterisk; asterisk]).
  assert (matchAt inlinePattern 0
            (asterisk :: asterisk :: inner ++ [asterisk; asterisk])
          = Some (MState
                    (length (asterisk :: asterisk :: inner ++ [asterisk; asterisk]))
                    []
                    [(1, asterisk :: asterisk :: inner ++ [asterisk; asterisk]);
                     (2, inner)])) as M.
  { unfold matchAt, inlinePattern. cbn [run alt].
    rewrite (@boldSpan_match inner _
               (MState
                  (length (asterisk :: asterisk :: inner ++ [asterisk; asterisk]))
                  []
                  [(1, asterisk :: asterisk :: inner ++ [asterisk; asterisk]);
                   (2, inner)])); trivial.
    unfold capture. cbn [pos rest caps]. rewrite Nat.sub_0_r, firstn_all.
    reflexivity. }
  rewrite tokenLoop_step. unfold exec. rewrite (execFrom_hit _ _ _ M).
  cbn [index matched pos caps]. rewrite Nat.sub_0_r, firstn_all.
  unfold sliceFrom. rewrite Nat.add_0_l, skipn_all.
  destruct fuel; reflexivity.
Qed.

Lemma bind_Ok {A : Type} (x : outcome A) : (y <- x ;; Ok y) = x.
Proof. now destruct x. Qed.

(** C7. The bold alternative comes first in the inline pattern: at every
    index of every text, a match of the bold alternative is the match of
    the whole pattern.  So two asterisks, a text without asterisk or line
    terminator, and two asterisks are tokenized as that text in bold (cut
    by the segment splitter when it is long), [**bold**] as the single
    bold segment [bold], and the scenario gives a [heading_1] with the
    plain segment [Title], then a paragraph with [Body ] plain, [bold]
    in bold and [ text] plain. *)
Theorem bold_before_italic :
  (forall i s st',
      matchAt (Group 1 boldSpan) i s = Some st' ->
      matchAt inlinePattern i s = Some st')
  /\ (forall c inner,
        ~ In asterisk (c :: inner) ->
        Forall (fun x => isLineTerminator x = false) (c :: inner) ->
        parseInlineAnnotations (str "**" ++ (c :: inner) ++ str "**")
        = splitSegment (boldSegment (c :: inner)))
  /\ parseInlineAnnotations (str "**bold**") = Ok [boldSegment (str "bold")]
  /\ markdownToBlocks (str "# Title" ++ [LF; LF] ++ str "Body **bold** text")
     = Ok [richTextBlock (str "heading_1") [plainSegment (str "Title")] None;
           richTextBlock (str "paragraph")
             [plainSegment (str "Body "); boldSegment (str "bold");
              plainSegment (str " text")] None].
Proof.
  split; [|split; [|split]].
  - intros i s st'. unfold matchAt, inlinePattern. cbn [run alt].
    now intros ->.
  - intros c inner Hno Hlt.
    unfold parseInlineAnnotations.
    assert (exists fuel, length (str "**" ++ (c :: inner) ++ str "**") = S fuel)
      as (fuel & ->) by (simpl; eauto).
    rewrite tokenLoop_bold; trivial; try discriminate.
    + cbn [bind splitAll app]. apply bind_Ok.
    + eapply Forall_impl; [|exact Hlt]. intros x Hx. unfold isDot. now rewrite Hx.
  - vm_compute. reflexivity.
  - vm_compute. reflexivity.
Qed.

(* ================================================================== *)
(** ** Fences *)

(** A fence opener: three backticks and a tag of word characters. *)
Lemma fence_matches tag :
  Forall (fun c => isWord c = true) tag ->
  exists m, exec fencePattern (str "```" ++ tag) = Some m /\ at_ m 1 = Some tag.
Proof.
  intros Htag.
  assert (exec fencePattern (str "```" ++ tag) <> None) as Hsome.
  { replace (str "```" ++ tag) with ([] ++ (str "```" ++ tag) ++ [])
      by (simpl; now rewrite app_nil_r).
    apply (@exec_complete fencePattern [] (str "```" ++ tag) [] [(1, tag)]).
    unfold fencePattern. cbn [den seq alt plus star plusLazy opt lit length].
    exists [], (str "```" ++ tag), []. repeat split.
    exists [ch "`"], (str "``" ++ tag), [].
    split; [reflexivity|]. split; [split; [eexists; split; reflexivity|reflexivity]|].
    exists [ch "`"], (str "`" ++ tag), [].
    split; [reflexivity|]. split; [split; [eexists; split; reflexivity|reflexivity]|].
    exists [ch "`"], tag, [].
    split; [reflexivity|]. split; [split; [eexists; split; reflexivity|reflexivity]|].
    exists tag, [], [(1, tag)]. split; [now rewrite app_nil_r|]. split.
    { exists []. split; [|reflexivity]. repeat split; trivial. lia. }
    repeat split. }
  destruct (exec fencePattern (str "```" ++ tag)) as [m|] eqn:E; [|congruence].
  exists m. split; trivial.
  apply fence_shape in E. destruct E as (tag' & Hs & _ & ->).
  apply app_inv_head in Hs. now subst.
Qed.

Lemma collectFence_no_closer lines :
  forall codeLines,
    Forall (fun l => l <> str "```") lines ->
    collectFence lines codeLines = (codeLines ++ lines, []).
Proof.
  induction lines as [|l tl IH]; intros codeLines Hall; simpl.
  - now rewrite app_nil_r.
  - inversion Hall; subst.
    assert (streq l (str "```") = false) as -> by now apply streq_neq.
    rewrite IH by assumption. now rewrite <- app_assoc.
Qed.

Lemma plainRichText_content c rt :
  plainRichText c = Ok rt -> concat (map content rt) = c.
Proof.
  unfold plainRichText. destruct c as [|x c].
  - intros [= <-]. reflexivity.
  - change (length (x :: c) =? 0) with false. cbv iota.
    destruct (splitSegment_cases (plainSegment (x :: c)))
      as [[_ ->]|[_ (cs & -> & C)]]; intros [= <-].
    + simpl. now rewrite app_nil_r.
    + rewrite map_content_chunks. eapply Chunked_concat; eauto.
Qed.

(** C8. After a fence opener (three backticks, then a tag of word
    characters that may be empty), when no later line is the closing
    fence, the scan takes every remaining line into one code block and
    ends without an error: the contents of its rich text, put together,
    are those lines joined by line feeds, and its language is the tag, or
    ["plain text"] for the empty tag.  In particular three backticks, a
    line feed and [print(1)] give one code block with the language
    ["plain text"] and the single segment [print(1)]. *)
Theorem unterminated_fence :
  (forall tag rest fuel blocks,
      Forall (fun c => isWord c = true) tag ->
      Forall (fun l => l <> str "```") rest ->
      exists rt,
        concat (map content rt) = join [LF] rest
        /\ convertLoop (S fuel) ((str "```" ++ tag) :: rest) blocks
           = Ok (blocks ++
                   [makeBlock (str "code")
                      (MkPayload (Some rt) None
                         (Some (if isEmpty tag then str "plain text" else tag)))]))
  /\ markdownToBlocks (str "```" ++ [LF] ++ str "print(1)")
     = Ok [makeBlock (str "code")
             (MkPayload (Some [plainSegment (str "print(1)")]) None
                        (Some (str "plain text")))].
Proof.
  split.
  - intros tag rest fuel blocks Htag Hrest.
    destruct (fence_matches Htag) as (m & E & C).
    destruct (plainRichText_ok (join [LF] rest)) as (rt & Hrt & _).
    exists rt. split; [eapply plainRichText_content; eauto|].
    rewrite convertLoop_step, E, C. cbv zeta.
    rewrite collectFence_no_closer by assumption. cbn [app].
    rewrite Hrt. cbn [bind].
    destruct tag; destruct fuel; reflexivity.
  - vm_compute. reflexivity.
Qed.

(* ================================================================== *)
(** ** Fences are matched on the raw line *)

Lemma dropWhile_prefix ws s :
  Forall (fun c => isWhiteSpace c = true) ws ->
  dropWhile isWhiteSpace (ws ++ s) = dropWhile isWhiteSpace s.
Proof.
  induction 1 as [|c ws Hc _ IH]; simpl; trivial. now rewrite Hc.
Qed.

Lemma trim_prefix ws s :
  Forall (fun c => isWhiteSpace c = true) ws -> trim (ws ++ s) = trim s.
Proof. intros H. unfold trim. now rewrite dropWhile_prefix. Qed.


(* ================================================================== *)
(** ** Empty segments *)





(* ================================================================== *)
(** ** The statements at concrete inputs *)

(** [splitSegment_spec] on a bold segment of 4500 code units. *)
Lemma splitSegment_spec_witness :
  exists parts,
    splitSegment (boldSegment (repeat (ch "b") 4500)) = Ok parts
    /\ length parts = 3
    /\ concat (map content parts) = repeat (ch "b") 4500.
Proof.
  assert (2000 < length (content (boldSegment (repeat (ch "b") 4500)))) as H
    by (apply Nat.ltb_lt; vm_compute; reflexivity).
  destruct (proj2 (splitSegment_spec (boldSegment (repeat (ch "b") 4500))) H)
    as (parts & E & L & C & _).
  exists parts. split; [exact E|]. split; [|exact C].
  rewrite L. vm_compute. reflexivity.
Defined.

(** [heading_level_clamped] on four hashes, a space and [Deep]. *)
Lemma heading_level_clamped_witness :
  exists rt,
    rt <> []
    /\ markdownToBlocks (repeat hash 4 ++ repeat SP 1 ++ str "Deep")
       = Ok [richTextBlock (str "heading_" ++ numberToString (Nat.min 4 3))
                           rt None].
Proof.
  refine (proj1 heading_level_clamped 4 1 (str "Deep") _ _ _ _ _ _);
    try lia; try discriminate.
  - repeat constructor.
  - vm_compute. reflexivity.
Defined.

(** [bold_before_italic] on [**bold**]. *)
Lemma bold_before_italic_witness :
  parseInlineAnnotations (str "**" ++ str "bold" ++ str "**")
  = splitSegment (boldSegment (str "bold")).
Proof.
  refine (proj1 (proj2 bold_before_italic) (ch "b") (str "old") _ _).
  - vm_compute. intuition discriminate.
  - repeat constructor.
Defined.

(** [unterminated_fence] on the opener of a Python fence and two lines. *)
Lemma unterminated_fence_witness :
  exists rt,
    concat (map content rt) = join [LF] [str "print('hi')"; str "more code"]
    /\ convertLoop 1 [str "```" ++ str "python"; str "print('hi')"; str "more code"] []
       = Ok ([] ++
               [makeBlock (str "code")
                  (MkPayload (Some rt) None
                     (Some (if isEmpty (str "python")
                            then str "plain text" else str "python")))]).
Proof.
  refine (proj1 unterminated_fence (str "python")
            [str "print('hi')"; str "more code"] 0 [] _ _).
  - repeat constructor.
  - repeat constructor; discriminate.
Defined.



(* ================================================================== *)
(** ** The test suite of the repository, run on the embedding *)

Example test_empty_string : markdownToBlocks [] = Ok [].
Proof. reflexivity. Qed.

Example test_whitespace_only :
  markdownToBlocks (str "   " ++ [LF; LF] ++ str "  ") = Ok [].
Proof. vm_compute. reflexivity. Qed.

Example test_paragraph :
  markdownToBlocks (str "Hello world")
  = Ok [richTextBlock (str "paragraph") [plainSegment (str "Hello world")] None].
Proof. vm_compute. reflexivity. Qed.

Example test_blank_lines_skipped :
  observe getPlainText
    (markdownToBlocks (str "Line one" ++ [LF; LF] ++ str "Line two"))
  = Ok [str "Line one"; str "Line two"].
Proof. vm_compute. reflexivity. Qed.

Example test_headings :
  observe (fun b => (type b, getPlainText b))
    (markdownToBlocks
       (join [LF] [str "# Title"; str "## Subtitle"; str "### Section";
                   str "#### Deep"; str "###### Very deep"; str "#NoSpace"]))
  = Ok [(str "heading_1", str "Title"); (str "heading_2", str "Subtitle");
        (str "heading_3", str "Section"); (str "heading_3", str "Deep");
        (str "heading_3", str "Very deep"); (str "paragraph", str "#NoSpace")].
Proof. vm_compute. reflexivity. Qed.

Example test_lists :
  observe (fun b => (type b, getPlainText b))
    (markdownToBlocks
       (join [LF] [str "- Item one"; str "* Item two"; str "1. First";
                   str "42. Answer"; str "> Important note"]))
  = Ok [(str "bulleted_list_item", str "Item one");
        (str "bulleted_list_item", str "Item two");
        (str "numbered_list_item", str "First");
        (str "numbered_list_item", str "Answer");
        (str "quote", str "Important note")].
Proof. vm_compute. reflexivity. Qed.

Example test_to_do :
  observe (fun b => (type b, getPlainText b, checked (payload b)))
    (markdownToBlocks
       (join [LF] [str "- [ ] Task"; str "- [x] Done"; str "- [X] Also done"]))
  = Ok [(str "to_do", str "Task", Some false);
        (str "to_do", str "Done", Some true);
        (str "to_do", str "Also done", Some true)].
Proof. vm_compute. reflexivity. Qed.

Example test_code_with_language :
  markdownToBlocks (join [LF] [str "```typescript"; str "const x = 1;"; str "```"])
  = Ok [makeBlock (str "code")
          (MkPayload (Some [plainSegment (str "const x = 1;")]) None
                     (Some (str "typescript")))].
Proof. vm_compute. reflexivity. Qed.

Example test_code_unclosed :
  observe (fun b => (type b, getPlainText b))
    (markdownToBlocks
       (join [LF] [str "```python"; str "print('hi')"; str "more code"]))
  = Ok [(str "code", str "print('hi')" ++ [LF] ++ str "more code")].
Proof. vm_compute. reflexivity. Qed.

Example test_code_blank_lines :
  observe (fun b => (language (payload b), getPlainText b))
    (markdownToBlocks
       (join [LF] [str "```"; str "line1"; []; str "line3"; str "```"]))
  = Ok [(Some (str "plain text"), str "line1" ++ [LF; LF] ++ str "line3")].
Proof. vm_compute. reflexivity. Qed.

Example test_dividers :
  observe (fun b => (type b, rich_text (payload b)))
    (markdownToBlocks (join [LF] [str "---"; str "----"]))
  = Ok [(str "divider", None);
        (str "paragraph", Some [plainSegment (str "----")])].
Proof. vm_compute. reflexivity. Qed.

Example test_inline_annotations :
  observe getRichText
    (markdownToBlocks
       (join [LF] [str "Hello **world**"; str "*emphasis*"; str "_underscored_";
                   str "~~deleted~~"; str "Use `console.log`";
                   str "**bold** and *italic*"; str "## A **bold** heading";
                   str "- A *styled* item"]))
  = Ok [[plainSegment (str "Hello "); boldSegment (str "world")];
        [italicSegment (str "emphasis")];
        [italicSegment (str "underscored")];
        [strikethroughSegment (str "deleted")];
        [plainSegment (str "Use "); codeSegment (str "console.log")];
        [boldSegment (str "bold"); plainSegment (str " and ");
         italicSegment (str "italic")];
        [plainSegment (str "A "); boldSegment (str "bold");
         plainSegment (str " heading")];
        [plainSegment (str "A "); italicSegment (str "styled");
         plainSegment (str " item")]].
Proof. vm_compute. reflexivity. Qed.

Example test_realistic_document :
  observe (@type)
    (markdownToBlocks
       (join [LF]
          [str "# My Document"; []; str "Some intro text."; [];
           str "## Section One"; []; str "- Item A"; str "- Item B"; [];
           str "1. Step one"; str "2. Step two"; [];
           str "- [ ] Todo unchecked"; str "- [x] Todo checked"; [];
           str "> A quote"; []; str "---"; [];
           str "```python"; str "print('hello')"; str "```"; [];
           str "Final paragraph with **bold** text."]))
  = Ok [str "heading_1"; str "paragraph"; str "heading_2";
        str "bulleted_list_item"; str "bulleted_list_item";
        str "numbered_list_item"; str "numbered_list_item";
        str "to_do"; str "to_do"; str "quote"; str "divider"; str "code";
        str "paragraph"].
Proof. vm_compute. reflexivity. Qed.

Example test_block_structure :
  observe (fun b => (object b, type b))
    (markdownToBlocks
       (join [LF] [str "# H"; str "- item"; str "1. num"; str "- [ ] todo";
                   str "> quote"; str "---"; str "```"; str "code"; str "```";
                   str "plain"]))
  = Ok [(str "block", str "heading_1"); (str "block", str "bulleted_list_item");
        (str "block", str "numbered_list_item"); (str "block", str "to_do");
        (str "block", str "quote"); (str "block", str "divider");
        (str "block", str "code"); (str "block", str "paragraph")].
Proof. vm_compute. reflexivity. Qed.

Example test_crlf :
  observe (@type)
    (markdownToBlocks (str "# Title" ++ [CR; LF; CR; LF] ++ str "Paragraph"))
  = Ok [str "heading_1"; str "paragraph"].
Proof. vm_compute. reflexivity. Qed.

Example test_to_do_scenario :
  markdownToBlocks (str "- [x] Done" ++ [LF] ++ str "- [ ] Todo")
  = Ok [richTextBlock (str "to_do") [plainSegment (str "Done")]
          (Some (MkPayload None (Some true) None));
        richTextBlock (str "to_do") [plainSegment (str "Todo")]
          (Some (MkPayload None (Some false) None))].
Proof. vm_compute. reflexivity. Qed.

Example test_batched_empty : markdownToBlocksBatched [] = Ok [].
Proof. reflexivity. Qed.

Example test_batched_101 :
  observe (@length Block) (markdownToBlocksBatched (numberedLines 101))
  = Ok [100; 1].
Proof. vm_compute. reflexivity. Qed.

Example test_batched_sizes :
  map (fun n => observe (@length Block) (markdownToBlocksBatched (numberedLines n)))
      [50; 100; 250]
  = [Ok [50]; Ok [100]; Ok [100; 100; 50]].
Proof. vm_compute. reflexivity. Qed.

Example test_batched_order :
  observe (map getPlainText) (markdownToBlocksBatched (numberedLines 101))
  = Ok [map (fun i => str "Line " ++ numberToString i) (List.seq 0 100);
        [str "Line 100"]].
Proof. vm_compute. reflexivity. Qed.

Example test_long_plain_text :
  observe (fun b => map (fun seg => (length (content seg), annotationSet seg))
                        (getRichText b))
    (markdownToBlocks (repeat (ch "a") 4500))
  = Ok [[(2000, (false, false, false, false));
         (2000, (false, false, false, false));
         (500, (false, false, false, false))]].
Proof. vm_compute. reflexivity. Qed.

Example test_long_annotated_text_and_code :
  observe (fun b => map (fun seg => (length (content seg), annotationSet seg))
                        (getRichText b))
    (markdownToBlocks
       (join [LF] [str "**" ++ repeat (ch "b") 4500 ++ str "**";
                   str "```js"; repeat (ch "x") 5000; str "```"]))
  = Ok [[(2000, (true, false, false, false));
         (2000, (true, false, false, false));
         (500, (true, false, false, false))];
        [(2000, (false, false, false, false));
         (2000, (false, false, false, false));
         (1000, (false, false, false, false))]].
Proof. vm_compute. reflexivity. Qed.

(* ================================================================== *)
(** * Further properties of the conversion *)

(** ** Greedy quantifiers *)

(** A greedy quantifier takes the whole run of its class when the
    continuation succeeds after it. *)
Lemma quant_greedy_max p k cs res after :
  match after with [] => True | c :: _ => p c = false end ->
  forall w lo hi i,
    Forall (fun c => p c = true) w -> lo <= length w -> within hi (length w) ->
    k (MState (i + length w) after cs) = Some res ->
    quant true p lo hi k i (w ++ after) cs = Some res.
Proof.
  intros Hafter. induction w as [|c w IH]; intros lo hi i Hw Hlo Hhi Hk;
    rewrite quant_unfold; simpl in *.
  - rewrite Nat.add_0_r in Hk. replace lo with 0 by lia.
    destruct after as [|c tl]; [exact Hk|]. now rewrite Hafter.
  - inversion Hw as [|? ? Hc Hw']; subst.
    apply within_succ in Hhi. destruct Hhi as [Hz Hhi].
    rewrite Hc, Hz. simpl. rewrite Nat.add_succ_r in Hk.
    destruct lo as [|lo'].
    + now rewrite (IH 0 _ (S i) Hw' (Nat.le_0_l _) Hhi Hk).
    + apply IH; trivial. lia.
Qed.

Lemma run_plus_max p k i w after cs res :
  match after with [] => True | c :: _ => p c = false end ->
  Forall (fun c => p c = true) w -> 1 <= length w ->
  k (MState (i + length w) after cs) = Some res ->
  run (plus p) k (MState i (w ++ after) cs) = Some res.
Proof.
  intros Hafter Hw Hlen Hk. unfold plus. cbn [run pos rest caps].
  apply quant_greedy_max; simpl; trivial.
Qed.

Lemma capture_end g i t cs cs1 :
  capture g (MState i t cs) (MState (i + length t) [] cs1)
  = MState (i + length t) [] ((g, t) :: cs1).
Proof.
  pose proof (capture_consumed g i t [] cs cs1) as H.
  now rewrite app_nil_r in H.
Qed.

(** The end of every line pattern: [(.+)$] takes the rest of a line
    without line terminator. *)
Lemma run_text_to_end g i t cs :
  Forall (fun c => isDot c = true) t -> 1 <= length t ->
  run (plus isDot)
      (fun st' =>
         match rest (capture g (MState i t cs) st') with
         | [] => Some (capture g (MState i t cs) st')
         | _ :: _ => None
         end)
      (MState i t cs)
  = Some (MState (i + length t) [] ((g, t) :: cs)).
Proof.
  intros Ht Hlen. unfold plus. cbn [run pos rest caps].
  set (k := fun st' : mstate => _).
  replace (quant true isDot 1 None k i t cs)
    with (quant true isDot 1 None k i (t ++ []) cs) by now rewrite app_nil_r.
  apply quant_greedy_max; simpl; trivial.
  subst k. cbv beta. now rewrite capture_end.
Qed.

Lemma exec_hit r s st' :
  matchAt r 0 s = Some st' ->
  exec r s = Some (MatchRes 0 (firstn (pos st') s) (caps st')).
Proof.
  intros H. unfold exec. rewrite (execFrom_hit _ _ _ H). now rewrite Nat.sub_0_r.
Qed.

Lemma prefix_split (p : char -> bool) a :
  forall b x y,
    Forall (fun c => p c = true) a -> Forall (fun c => p c = true) b ->
    a ++ x = b ++ y ->
    (forall c r, x = c :: r -> p c = false) ->
    (forall c r, y = c :: r -> p c = false) ->
    a = b /\ x = y.
Proof.
  induction a as [|c a IH]; intros b x y Ha Hb E Hx Hy.
  - destruct b as [|d b]; simpl in E; [auto|].
    inversion Hb; subst. specialize (Hx _ _ eq_refl). congruence.
  - inversion Ha; subst. destruct b as [|d b]; simpl in E.
    + subst y. specialize (Hy _ _ eq_refl). congruence.
    + inversion Hb; subst. injection E as -> E.
      destruct (IH b x y) as [-> ->]; auto.
Qed.

(* ================================================================== *)
(** ** The exact match of a line pattern *)

Lemma whitespace_not  (c d : char) :
  isWhiteSpace c = true -> isWhiteSpace d = false -> chareq d c = false.
Proof.
  intros Hc Hd. destruct (chareq d c) eqn:E; trivial.
  apply chareq_eq in E. congruence.
Qed.

Lemma starts_not (p : char -> bool) (s : jsstring) :
  (forall c r, s = c :: r -> p c = false) ->
  match s with [] => True | c :: _ => p c = false end.
Proof. intros H. destruct s; trivial. eapply H; eauto. Qed.

Lemma heading_exact h sp c t :
  Forall (fun x => x = hash) h -> 1 <= length h -> length h <= 6 ->
  Forall (fun x => isWhiteSpace x = true) sp -> 1 <= length sp ->
  isWhiteSpace c = false -> Forall (fun x => isDot x = true) (c :: t) ->
  exists m,
    exec headingPattern (h ++ sp ++ c :: t) = Some m
    /\ at_ m 1 = Some h /\ at_ m 2 = Some (c :: t).
Proof.
  intros Hh Hh1 Hh6 Hsp Hsp1 Hc Ht.
  eexists. split.
  - apply exec_hit. unfold matchAt, headingPattern.
    cbn [run seq pos rest caps Nat.eqb].
    apply quant_greedy_max; trivial.
    + destruct sp as [|x sp]; [simpl in Hsp1; lia|]. inversion Hsp; subst.
      cbn [app]. apply whitespace_not; trivial.
    + eapply Forall_impl; [|exact Hh]. intros x ->. now apply chareq_eq.
    + rewrite (capture_consumed 1 0 h (sp ++ c :: t) [] []).
      apply run_plus_max; trivial. cbv beta.
      apply run_text_to_end; trivial. simpl. lia.
  - cbn [caps]. split; reflexivity.
Qed.

Lemma bullet_exact b sp c t :
  oneOf ["-"; "*"]%char b = true ->
  Forall (fun x => isWhiteSpace x = true) sp -> 1 <= length sp ->
  isWhiteSpace c = false -> Forall (fun x => isDot x = true) (c :: t) ->
  exists m,
    exec bulletPattern (b :: sp ++ c :: t) = Some m /\ at_ m 1 = Some (c :: t).
Proof.
  intros Hb Hsp Hsp1 Hc Ht.
  eexists. split.
  - apply exec_hit. unfold matchAt, bulletPattern.
    cbn [run seq pos rest caps Nat.eqb]. rewrite Hb.
    apply run_plus_max; trivial. cbv beta.
    apply run_text_to_end; trivial. simpl. lia.
  - reflexivity.
Qed.

Lemma quote_exact sp c t :
  Forall (fun x => isWhiteSpace x = true) sp -> 1 <= length sp ->
  isWhiteSpace c = false -> Forall (fun x => isDot x = true) (c :: t) ->
  exists m,
    exec quotePattern (ch ">" :: sp ++ c :: t) = Some m
    /\ at_ m 1 = Some (c :: t).
Proof.
  intros Hsp Hsp1 Hc Ht.
  eexists. split.
  - apply exec_hit. unfold matchAt, quotePattern.
    cbn [run seq pos rest caps Nat.eqb].
    change (chareq (ch ">") (ch ">")) with true. cbv iota.
    apply run_plus_max; trivial. cbv beta.
    apply run_text_to_end; trivial. simpl. lia.
  - reflexivity.
Qed.

Lemma numbered_exact d sp c t :
  Forall (fun x => isDigit x = true) d -> 1 <= length d ->
  Forall (fun x => isWhiteSpace x = true) sp -> 1 <= length sp ->
  isWhiteSpace c = false -> Forall (fun x => isDot x = true) (c :: t) ->
  exists m,
    exec numberedPattern (d ++ ch "." :: sp ++ c :: t) = Some m
    /\ at_ m 1 = Some (c :: t).
Proof.
  intros Hd Hd1 Hsp Hsp1 Hc Ht.
  eexists. split.
  - apply exec_hit. unfold matchAt, numberedPattern.
    cbn [run seq pos rest caps Nat.eqb].
    apply run_plus_max; trivial. cbv beta.
    cbn [run lit pos rest caps].
    change (chareq (ch ".") (ch ".")) with true. cbv iota.
    apply run_plus_max; trivial. cbv beta.
    apply run_text_to_end; trivial. simpl. lia.
  - reflexivity.
Qed.

Lemma todo_exact b sp x sp2 c t :
  oneOf ["-"; "*"]%char b = true ->
  Forall (fun x => isWhiteSpace x = true) sp -> 1 <= length sp ->
  oneOf [" "; "x"; "X"]%char x = true ->
  Forall (fun x => isWhiteSpace x = true) sp2 -> 1 <= length sp2 ->
  isWhiteSpace c = false -> Forall (fun x => isDot x = true) (c :: t) ->
  exists m,
    exec todoPattern (b :: sp ++ ch "[" :: x :: ch "]" :: sp2 ++ c :: t) = Some m
    /\ at_ m 1 = Some [x] /\ at_ m 2 = Some (c :: t).
Proof.
  intros Hb Hsp Hsp1 Hx Hsp2 Hsp21 Hc Ht.
  eexists. split.
  - apply exec_hit. unfold matchAt, todoPattern.
    cbn [run seq pos rest caps Nat.eqb]. rewrite Hb.
    apply run_plus_max; trivial. cbv beta.
    cbn [run lit pos rest caps].
    change (chareq (ch "[") (ch "[")) with true. cbv iota.
    rewrite Hx.
    change (chareq (ch "]") (ch "]")) with true. cbv iota.
    cbn [capture pos rest caps].
    apply run_plus_max; trivial. cbv beta.
    apply run_text_to_end; trivial. simpl. lia.
  - split; [|reflexivity].
    cbn [at_ groups caps getCap Nat.eqb]. f_equal.
    replace (S (S (1 + length sp)) - S (1 + length sp)) with 1 by lia.
    reflexivity.
Qed.

(* ================================================================== *)
(** ** Trimming *)

Lemma dropWhile_all p ws :
  Forall (fun c => p c = true) ws -> dropWhile p ws = [].
Proof. induction 1 as [|c ws Hc _ IH]; simpl; trivial. now rewrite Hc. Qed.

Lemma dropWhileEnd_all p ws :
  Forall (fun c => p c = true) ws -> dropWhileEnd p ws = [].
Proof. induction 1 as [|c ws Hc _ IH]; simpl; trivial. now rewrite IH, Hc. Qed.

Lemma dropWhileEnd_suffix p ws :
  Forall (fun c => p c = true) ws ->
  forall s, dropWhileEnd p (s ++ ws) = dropWhileEnd p s.
Proof.
  intros Hws. induction s as [|c s IH]; simpl.
  - now apply dropWhileEnd_all.
  - now rewrite IH.
Qed.

Lemma dropWhile_suffix p ws s :
  Forall (fun c => p c = true) ws ->
  dropWhileEnd p (dropWhile p (s ++ ws)) = dropWhileEnd p (dropWhile p s).
Proof.
  intros Hws. induction s as [|c s IH]; simpl.
  - now rewrite dropWhile_all.
  - destruct (p c); trivial.
    change (c :: s ++ ws) with ((c :: s) ++ ws).
    now apply dropWhileEnd_suffix.
Qed.

(** White space around a text does not change what [trim] returns. *)
Lemma trim_around ws1 s ws2 :
  Forall (fun c => isWhiteSpace c = true) ws1 ->
  Forall (fun c => isWhiteSpace c = true) ws2 ->
  trim (ws1 ++ s ++ ws2) = trim s.
Proof.
  intros H1 H2. rewrite trim_prefix by assumption.
  unfold trim. now apply dropWhile_suffix.
Qed.

Lemma dropWhileEnd_fixed p s d :
  p (last s d) = false -> s <> [] -> dropWhileEnd p s = s.
Proof.
  induction s as [|c s IH]; intros Hl Hne; [congruence|].
  destruct s as [|c' s].
  - simpl in *. now rewrite Hl.
  - change (last (c :: c' :: s) d) with (last (c' :: s) d) in Hl.
    change (dropWhileEnd p (c :: c' :: s))
      with (match dropWhileEnd p (c' :: s) with
            | [] => if p c then [] else [c]
            | r => c :: r
            end).
    rewrite IH; trivial. discriminate.
Qed.

(** A text that starts and ends with a character that is not white
    space is its own trimmed form. *)
Lemma trim_fixed c t :
  isWhiteSpace c = false -> isWhiteSpace (last (c :: t) c) = false ->
  trim (c :: t) = c :: t.
Proof.
  intros Hc Hl. unfold trim. simpl dropWhile. rewrite Hc.
  eapply dropWhileEnd_fixed; eauto. discriminate.
Qed.

Lemma trim_core ws1 c t ws2 :
  Forall (fun x => isWhiteSpace x = true) ws1 ->
  Forall (fun x => isWhiteSpace x = true) ws2 ->
  isWhiteSpace c = false -> isWhiteSpace (last (c :: t) c) = false ->
  trim (ws1 ++ (c :: t) ++ ws2) = c :: t.
Proof.
  intros H1 H2 Hc Hl. rewrite trim_around by assumption. now apply trim_fixed.
Qed.

(** A raw line whose first character is not a backtick opens no fence. *)
Lemma exec_fence_first c tl :
  c <> ch "`" -> exec fencePattern (c :: tl) = None.
Proof.
  intros Hc. destruct (exec fencePattern (c :: tl)) eqn:E; trivial.
  apply fence_first in E. destruct E as (? & [= -> _]). now destruct Hc.
Qed.

Lemma exec_fence_padded ws c tl :
  Forall (fun x => isWhiteSpace x = true) ws -> c <> ch "`" ->
  exec fencePattern (ws ++ c :: tl) = None.
Proof.
  intros Hws Hc. destruct ws as [|x ws]; simpl.
  - now apply exec_fence_first.
  - inversion Hws; subst. apply exec_fence_first. intros ->. discriminate.
Qed.

(* ================================================================== *)
(** ** One line, one block *)

Lemma heading_first c tl m :
  exec headingPattern (c :: tl) = Some m -> c = hash.
Proof.
  intros H. apply heading_shape in H.
  destruct H as (h & sp & t & Hs & Hh & Hh1 & _).
  destruct h as [|x h]; [simpl in Hh1; lia|].
  inversion Hh; subst. now injection Hs.
Qed.

Lemma todo_shape_full s m :
  exec todoPattern s = Some m ->
  exists b sp x sp2 t,
    s = b :: sp ++ ch "[" :: x :: ch "]" :: sp2 ++ t
    /\ Forall (fun c => isWhiteSpace c = true) sp /\ 1 <= length sp.
Proof.
  intros H. unfold todoPattern in H. exec_inv H.
  match goal with
  | |- exists b sp x sp2 t,
        ?b0 :: ?sp0 ++ _ :: ?x0 :: _ :: ?sp20 ++ ?t0 = _ /\ _ =>
      exists b0, sp0, x0, sp20, t0
  end.
  split; [reflexivity|split; assumption].
Qed.

Lemma bullet_marker b :
  oneOf ["-"; "*"]%char b = true -> b = ch "-" \/ b = ch "*".
Proof.
  unfold oneOf. cbn [existsb]. rewrite !orb_true_iff, !chareq_eq.
  intros [H|[H|H]]; auto. discriminate.
Qed.

Lemma last_default {A : Type} (l : list A) d d' :
  l <> [] -> last l d = last l d'.
Proof.
  induction l as [|a l IH]; intros Hne; [congruence|].
  destruct l as [|b l]; [reflexivity|].
  change (last (b :: l) d = last (b :: l) d'). apply IH. discriminate.
Qed.

Lemma last_app_cons {A : Type} (x : list A) c t d d' :
  last (x ++ c :: t) d = last (c :: t) d'.
Proof.
  induction x as [|a x IH].
  - apply last_default. discriminate.
  - rewrite <- IH. cbn [app].
    destruct (x ++ c :: t) eqn:E; [destruct x; discriminate|reflexivity].
Qed.

Lemma dots (t : jsstring) :
  Forall (fun x => isLineTerminator x = false) t ->
  Forall (fun x => isDot x = true) t.
Proof.
  intros H. eapply Forall_impl; [|exact H]. intros x Hx. unfold isDot. now rewrite Hx.
Qed.


Lemma padded_line ws1 b body ws2 :
  Forall (fun x => isWhiteSpace x = true) ws1 ->
  Forall (fun x => isWhiteSpace x = true) ws2 ->
  isWhiteSpace b = false -> b <> ch "`" ->
  isWhiteSpace (last (b :: body) b) = false ->
  exec fencePattern (ws1 ++ (b :: body) ++ ws2) = None
  /\ trim (ws1 ++ (b :: body) ++ ws2) = b :: body.
Proof.
  intros H1 H2 Hb Hq Hl. split.
  - now apply exec_fence_padded.
  - now apply trim_core.
Qed.

Lemma not_divider b sp tl :
  Forall (fun x => isWhiteSpace x = true) sp -> 1 <= length sp ->
  streq (b :: sp ++ tl) (str "---") = false.
Proof.
  intros Hsp Hlen. apply streq_neq. intros E.
  destruct sp as [|x sp]; [simpl in Hlen; lia|].
  inversion Hsp; subst. injection E as _ -> _. discriminate.
Qed.

Lemma exec_heading_first c tl :
  c <> hash -> exec headingPattern (c :: tl) = None.
Proof.
  intros Hc. destruct (exec headingPattern (c :: tl)) eqn:E; trivial.
  apply heading_first in E. congruence.
Qed.

Lemma exec_todo_first c tl :
  oneOf ["-"; "*"]%char c = false -> exec todoPattern (c :: tl) = None.
Proof.
  intros Hc. destruct (exec todoPattern (c :: tl)) eqn:E; trivial.
  apply todo_shape in E. destruct E as (? & ? & ? & [= <- _] & H & _). congruence.
Qed.

Lemma exec_bullet_first c tl :
  oneOf ["-"; "*"]%char c = false -> exec bulletPattern (c :: tl) = None.
Proof.
  intros Hc. destruct (exec bulletPattern (c :: tl)) eqn:E; trivial.
  apply bullet_shape in E. destruct E as (? & ? & ? & [= <- _] & H & _). congruence.
Qed.

Lemma exec_numbered_first c tl :
  isDigit c = false -> exec numberedPattern (c :: tl) = None.
Proof.
  intros Hc. destruct (exec numberedPattern (c :: tl)) eqn:E; trivial.
  apply numbered_shape in E. destruct E as (? & ? & ? & [= <- _] & H & _). congruence.
Qed.

(** A bullet line whose text does not start with a bracket is no to-do
    item. *)
Lemma exec_todo_bullet b sp c t :
  Forall (fun x => isWhiteSpace x = true) sp ->
  isWhiteSpace c = false -> c <> ch "[" ->
  exec todoPattern (b :: sp ++ c :: t) = None.
Proof.
  intros Hsp Hc Hbr.
  destruct (exec todoPattern (b :: sp ++ c :: t)) eqn:E; trivial.
  apply todo_shape_full in E.
  destruct E as (b' & sp' & x & sp2 & t' & [= _ E] & Hsp' & _).
  apply (prefix_split isWhiteSpace) in E; trivial.
  - destruct E as [_ [= E _]]. now destruct (Hbr E).
  - now intros ? ? [= <- _].
  - now intros ? ? [= <- _].
Qed.

Lemma marker_facts b :
  oneOf ["-"; "*"]%char b = true ->
  isWhiteSpace b = false /\ b <> ch "`" /\ b <> hash.
Proof.
  intros H. apply bullet_marker in H. destruct H as [->| ->];
    repeat split; discriminate.
Qed.

(** The iteration of the scan at a to-do line: a bullet marker, white
    space, a checkbox, white space and a text, with any white space
    around the line. *)
Lemma to_do_step ws1 ws2 b sp x sp2 c t :
  Forall (fun y => isWhiteSpace y = true) ws1 ->
  Forall (fun y => isWhiteSpace y = true) ws2 ->
  oneOf ["-"; "*"]%char b = true ->
  Forall (fun y => isWhiteSpace y = true) sp -> 1 <= length sp ->
  oneOf [" "; "x"; "X"]%char x = true ->
  Forall (fun y => isWhiteSpace y = true) sp2 -> 1 <= length sp2 ->
  isWhiteSpace c = false ->
  Forall (fun y => isLineTerminator y = false) (c :: t) ->
  isWhiteSpace (last (c :: t) c) = false ->
  exists rt,
    parseInlineAnnotations (c :: t) = Ok rt
    /\ trim (ws1 ++ (b :: sp ++ ch "[" :: x :: ch "]" :: sp2 ++ c :: t) ++ ws2)
       = b :: sp ++ ch "[" :: x :: ch "]" :: sp2 ++ c :: t
    /\ forall rest fuel blocks,
         convertLoop (S fuel)
           ((ws1 ++ (b :: sp ++ ch "[" :: x :: ch "]" :: sp2 ++ c :: t) ++ ws2)
              :: rest) blocks
         = convertLoop fuel rest
             (blocks ++ [richTextBlock (str "to_do") rt
                           (Some (MkPayload None (Some (negb (chareq x SP)))
                                            None))]).
Proof.
  intros H1 H2 Hb Hsp Hsp1 Hx Hsp2 Hsp21 Hc Ht Hl.
  destruct (marker_facts b Hb) as (Hbw & Hbq & Hbh).
  destruct (parseInlineAnnotations_ok (c :: t)) as (rt & Hrt & _).
  exists rt. split; trivial.
  destruct (@padded_line ws1 b (sp ++ ch "[" :: x :: ch "]" :: sp2 ++ c :: t) ws2)
    as [Hf Htrim]; trivial.
  { replace (b :: sp ++ ch "[" :: x :: ch "]" :: sp2 ++ c :: t)
      with ((b :: sp ++ ch "[" :: x :: ch "]" :: sp2) ++ c :: t)
      by (cbn [app]; rewrite <- app_assoc; reflexivity).
    now rewrite (last_app_cons _ c t b c). }
  split; [exact Htrim|]. intros rest fuel blocks.
  rewrite convertLoop_step, Hf, Htrim.
  change (streq (b :: sp ++ ch "[" :: x :: ch "]" :: sp2 ++ c :: t) []) with false.
  rewrite not_divider by assumption. cbv iota.
  rewrite exec_heading_first by assumption.
  destruct (@todo_exact b sp x sp2 c t) as (m & -> & -> & ->); auto using dots.
  cbn [defined bind]. rewrite Hrt. cbn [bind].
  cbn [streq str map list_ascii_of_string]. rewrite andb_true_r.
  reflexivity.
Qed.

(** The iteration of the scan at a bullet line: a hyphen or an asterisk,
    white space and a text that does not start with an opening bracket,
    with any white space around the line. *)
Lemma bullet_step ws1 ws2 b sp c t :
  Forall (fun y => isWhiteSpace y = true) ws1 ->
  Forall (fun y => isWhiteSpace y = true) ws2 ->
  oneOf ["-"; "*"]%char b = true ->
  Forall (fun y => isWhiteSpace y = true) sp -> 1 <= length sp ->
  isWhiteSpace c = false -> c <> ch "[" ->
  Forall (fun y => isLineTerminator y = false) (c :: t) ->
  isWhiteSpace (last (c :: t) c) = false ->
  exists rt,
    parseInlineAnnotations (c :: t) = Ok rt
    /\ trim (ws1 ++ (b :: sp ++ c :: t) ++ ws2) = b :: sp ++ c :: t
    /\ forall rest fuel blocks,
         convertLoop (S fuel) ((ws1 ++ (b :: sp ++ c :: t) ++ ws2) :: rest) blocks
         = convertLoop fuel rest
             (blocks ++ [richTextBlock (str "bulleted_list_item") rt None]).
Proof.
  intros H1 H2 Hb Hsp Hsp1 Hc Hbr Ht Hl.
  destruct (marker_facts b Hb) as (Hbw & Hbq & Hbh).
  destruct (parseInlineAnnotations_ok (c :: t)) as (rt & Hrt & _).
  exists rt. split; trivial.
  destruct (@padded_line ws1 b (sp ++ c :: t) ws2) as [Hf Htrim]; trivial.
  { change (b :: sp ++ c :: t) with ((b :: sp) ++ c :: t).
    now rewrite (last_app_cons _ c t b c). }
  split; [exact Htrim|]. intros rest fuel blocks.
  rewrite convertLoop_step, Hf, Htrim.
  change (streq (b :: sp ++ c :: t) []) with false.
  rewrite not_divider by assumption. cbv iota.
  rewrite exec_heading_first by assumption.
  rewrite exec_todo_bullet by assumption.
  destruct (@bullet_exact b sp c t) as (m & -> & ->); auto using dots.
  cbn [defined bind]. now rewrite Hrt.
Qed.

Lemma digit_facts d :
  isDigit d = true ->
  isWhiteSpace d = false /\ d <> ch "`" /\ d <> hash
  /\ oneOf ["-"; "*"]%char d = false /\ d <> ch "-".
Proof.
  unfold isDigit. rewrite andb_true_iff, !N.leb_le. intros [Hlo Hhi].
  assert (forall n : N, (n < 48 \/ 57 < n)%N -> d <> n) as Hne
    by (intros n Hn ->; lia).
  assert (d <> ch "`") as Hq by (apply Hne; right; reflexivity).
  assert (d <> hash) as Hh by (apply Hne; left; reflexivity).
  assert (d <> ch "-") as Hm by (apply Hne; left; reflexivity).
  assert (d <> ch "*") as Ha by (apply Hne; left; reflexivity).
  repeat split; trivial.
  - unfold isWhiteSpace.
    repeat match goal with
           | |- context [(d =? ?n)%N] =>
               destruct (N.eqb_spec d n); [lia|]
           end.
    destruct (N.leb_spec 8192 d); [lia|]. reflexivity.
  - unfold oneOf. cbn [existsb]. unfold chareq.
    rewrite (proj2 (N.eqb_neq (ch "-") d)) by congruence.
    rewrite (proj2 (N.eqb_neq (ch "*") d)) by congruence.
    reflexivity.
Qed.

(** The iteration of the scan at a numbered line: digits, a period,
    white space and a text, with any white space around the line. *)
Lemma numbered_step ws1 ws2 d ds sp c t :
  Forall (fun y => isWhiteSpace y = true) ws1 ->
  Forall (fun y => isWhiteSpace y = true) ws2 ->
  Forall (fun y => isDigit y = true) (d :: ds) ->
  Forall (fun y => isWhiteSpace y = true) sp -> 1 <= length sp ->
  isWhiteSpace c = false ->
  Forall (fun y => isLineTerminator y = false) (c :: t) ->
  isWhiteSpace (last (c :: t) c) = false ->
  exists rt,
    parseInlineAnnotations (c :: t) = Ok rt
    /\ trim (ws1 ++ ((d :: ds) ++ ch "." :: sp ++ c :: t) ++ ws2)
       = (d :: ds) ++ ch "." :: sp ++ c :: t
    /\ forall rest fuel blocks,
         convertLoop (S fuel)
           ((ws1 ++ ((d :: ds) ++ ch "." :: sp ++ c :: t) ++ ws2) :: rest) blocks
         = convertLoop fuel rest
             (blocks ++ [richTextBlock (str "numbered_list_item") rt None]).
Proof.
  intros H1 H2 Hd Hsp Hsp1 Hc Ht Hl.
  assert (isDigit d = true) as Hd1 by now inversion Hd.
  destruct (digit_facts d Hd1) as (Hdw & Hdq & Hdh & Hdm & Hdd).
  destruct (parseInlineAnnotations_ok (c :: t)) as (rt & Hrt & _).
  exists rt. split; trivial.
  destruct (@padded_line ws1 d (ds ++ ch "." :: sp ++ c :: t) ws2)
    as [Hf Htrim]; trivial.
  { replace (d :: ds ++ ch "." :: sp ++ c :: t)
      with ((d :: ds ++ ch "." :: sp) ++ c :: t)
      by (cbn [app]; rewrite <- app_assoc; reflexivity).
    now rewrite (last_app_cons _ c t d c). }
  split; [exact Htrim|]. intros rest fuel blocks.
  change ((d :: ds) ++ ch "." :: sp ++ c :: t)
    with (d :: ds ++ ch "." :: sp ++ c :: t) in *.
  rewrite convertLoop_step.
  change (ws1 ++ d :: ds ++ ch "." :: sp ++ c :: t ++ ws2)
    with (ws1 ++ (d :: ds ++ ch "." :: sp ++ c :: t) ++ ws2) in *.
  rewrite Hf, Htrim.
  change (streq (d :: ds ++ ch "." :: sp ++ c :: t) []) with false.
  assert (streq (d :: ds ++ ch "." :: sp ++ c :: t) (str "---") = false) as ->.
  { apply streq_neq. intros [= E _]. now destruct (Hdd E). }
  cbv iota.
  rewrite exec_heading_first, exec_todo_first, exec_bullet_first by assumption.
  destruct (@numbered_exact (d :: ds) sp c t) as (m & E & C);
    auto using dots; [simpl; lia|].
  change ((d :: ds) ++ ch "." :: sp ++ c :: t)
    with (d :: ds ++ ch "." :: sp ++ c :: t) in E.
  rewrite E, C. cbn [defined bind]. now rewrite Hrt.
Qed.

(** The iteration of the scan at a quote line: [>], white space and a
    text, with any white space around the line. *)
Lemma quote_step ws1 ws2 sp c t :
  Forall (fun y => isWhiteSpace y = true) ws1 ->
  Forall (fun y => isWhiteSpace y = true) ws2 ->
  Forall (fun y => isWhiteSpace y = true) sp -> 1 <= length sp ->
  isWhiteSpace c = false ->
  Forall (fun y => isLineTerminator y = false) (c :: t) ->
  isWhiteSpace (last (c :: t) c) = false ->
  exists rt,
    parseInlineAnnotations (c :: t) = Ok rt
    /\ trim (ws1 ++ (ch ">" :: sp ++ c :: t) ++ ws2) = ch ">" :: sp ++ c :: t
    /\ forall rest fuel blocks,
         convertLoop (S fuel)
           ((ws1 ++ (ch ">" :: sp ++ c :: t) ++ ws2) :: rest) blocks
         = convertLoop fuel rest
             (blocks ++ [richTextBlock (str "quote") rt None]).
Proof.
  intros H1 H2 Hsp Hsp1 Hc Ht Hl.
  destruct (parseInlineAnnotations_ok (c :: t)) as (rt & Hrt & _).
  exists rt. split; trivial.
  destruct (@padded_line ws1 (ch ">") (sp ++ c :: t) ws2) as [Hf Htrim];
    trivial; try discriminate.
  { change (ch ">" :: sp ++ c :: t) with ((ch ">" :: sp) ++ c :: t).
    now rewrite (last_app_cons _ c t (ch ">") c). }
  split; [exact Htrim|]. intros rest fuel blocks.
  rewrite convertLoop_step, Hf, Htrim.
  change (streq (ch ">" :: sp ++ c :: t) []) with false.
  rewrite not_divider by assumption. cbv iota.
  rewrite exec_heading_first, exec_todo_first, exec_bullet_first,
    exec_numbered_first by (reflexivity || discriminate).
  destruct (@quote_exact sp c t) as (m & -> & ->); auto using dots.
  cbn [defined bind]. now rewrite Hrt.
Qed.

(** The iteration of the scan at a heading line: one to six hashes,
    white space and a text, with any white space around the line. *)
Lemma heading_step ws1 ws2 n sp c t :
  Forall (fun y => isWhiteSpace y = true) ws1 ->
  Forall (fun y => isWhiteSpace y = true) ws2 ->
  1 <= n -> n <= 6 ->
  Forall (fun y => isWhiteSpace y = true) sp -> 1 <= length sp ->
  isWhiteSpace c = false ->
  Forall (fun y => isLineTerminator y = false) (c :: t) ->
  isWhiteSpace (last (c :: t) c) = false ->
  exists rt,
    parseInlineAnnotations (c :: t) = Ok rt
    /\ trim (ws1 ++ (repeat hash n ++ sp ++ c :: t) ++ ws2)
       = repeat hash n ++ sp ++ c :: t
    /\ forall rest fuel blocks,
         convertLoop (S fuel)
           ((ws1 ++ (repeat hash n ++ sp ++ c :: t) ++ ws2) :: rest) blocks
         = convertLoop fuel rest
             (blocks ++ [richTextBlock
                           (str "heading_" ++ numberToString (Nat.min n 3))
                           rt None]).
Proof.
  intros H1 H2 Hn1 Hn6 Hsp Hsp1 Hc Ht Hl.
  destruct (parseInlineAnnotations_ok (c :: t)) as (rt & Hrt & _).
  exists rt. split; trivial.
  destruct n as [|n]; [lia|].
  change (repeat hash (S n) ++ sp ++ c :: t)
    with (hash :: repeat hash n ++ sp ++ c :: t).
  destruct (@padded_line ws1 hash (repeat hash n ++ sp ++ c :: t) ws2)
    as [Hf Htrim]; trivial; try discriminate.
  { replace (hash :: repeat hash n ++ sp ++ c :: t)
      with ((hash :: repeat hash n ++ sp) ++ c :: t)
      by (cbn [app]; rewrite <- app_assoc; reflexivity).
    now rewrite (last_app_cons _ c t hash c). }
  split; [exact Htrim|]. intros rest fuel blocks.
  rewrite convertLoop_step, Hf, Htrim.
  change (streq (hash :: repeat hash n ++ sp ++ c :: t) []) with false.
  assert (streq (hash :: repeat hash n ++ sp ++ c :: t) (str "---") = false)
    as -> by (apply streq_neq; discriminate).
  cbv iota.
  destruct (@heading_exact (repeat hash (S n)) sp c t) as (m & E & C1 & C2);
    auto using dots, Forall_repeat; try (rewrite repeat_length; lia).
  change (repeat hash (S n) ++ sp ++ c :: t)
    with (hash :: repeat hash n ++ sp ++ c :: t) in E.
  rewrite E, C1, C2. cbn [defined bind]. rewrite Hrt, repeat_length.
  reflexivity.
Qed.

(* ================================================================== *)
(** ** Every step of the scan *)

Lemma heading_type_text n :
  1 <= n -> In (str "heading_" ++ numberToString (Nat.min n 3)) textTypes.
Proof.
  intros Hn. destruct n as [|[|[|n]]]; [lia| | |].
  - vm_compute. tauto.
  - vm_compute. tauto.
  - rewrite numberToString_3 by lia. vm_compute. tauto.
Qed.

Lemma orElse_nonempty x d : d <> [] -> orElse x d <> [].
Proof. intros Hd. destruct x as [[|c s]|]; simpl; trivial; discriminate. Qed.

(** One iteration of the scan either skips its line, which is then
    empty once trimmed, or appends one block, built in one of the four
    ways of [Produced], and goes on with lines that come later. *)
Lemma convertLoop_cases line rest :
  (trim line = []
   /\ forall fuel blocks,
       convertLoop (S fuel) (line :: rest) blocks = convertLoop fuel rest blocks)
  \/ (exists b rest',
        Produced b /\ length rest' <= length rest
        /\ forall fuel blocks,
            convertLoop (S fuel) (line :: rest) blocks
            = convertLoop fuel rest' (blocks ++ [b])).
Proof.
  assert (Htext : forall ty t,
             In ty textTypes -> 1 <= length t ->
             exists b,
               Produced b
               /\ forall fuel blocks,
                   (rt <- parseInlineAnnotations t ;;
                    convertLoop fuel rest (blocks ++ [richTextBlock ty rt None]))
                   = convertLoop fuel rest (blocks ++ [b])).
  { intros ty t Hty Ht.
    destruct (parseInlineAnnotations_ok t) as (rt & Hrt & _).
    exists (richTextBlock ty rt None). split.
    - apply Produced_text with (t := t); trivial.
      intros ->. simpl in Ht. lia.
    - intros fuel blocks. now rewrite Hrt. }
  destruct (exec fencePattern line) as [fm|] eqn:Efence.
  { right.
    pose proof (collectFence_length rest []) as Hlen.
    destruct (collectFence rest []) as [codeLines rest'] eqn:Ecf.
    destruct (plainRichText_ok (join [LF] codeLines)) as (rt & Hrt & _).
    exists (makeBlock (str "code")
              (MkPayload (Some rt) None
                 (Some (orElse (at_ fm 1) (str "plain text"))))), rest'.
    split; [|split; [exact Hlen|]].
    - eapply Produced_code; eauto. apply orElse_nonempty. discriminate.
    - intros fuel blocks. rewrite convertLoop_step, Efence. cbv zeta.
      rewrite Ecf, Hrt. reflexivity. }
  destruct (streq (trim line) []) eqn:Eblank.
  { left. split; [now apply streq_eq|].
    intros fuel blocks. now rewrite convertLoop_step, Efence, Eblank. }
  destruct (streq (trim line) (str "---")) eqn:Ediv.
  { right. exists (makeBlock (str "divider") emptyPayload), rest.
    split; [constructor|]. split; [lia|].
    intros fuel blocks. now rewrite convertLoop_step, Efence, Eblank, Ediv. }
  right.
  destruct (exec headingPattern (trim line)) as [hm|] eqn:Eh.
  { pose proof Eh as Eh'. apply heading_shape in Eh'.
    destruct Eh' as (h & sp & t & _ & _ & Hh1 & _ & _ & _ & _ & Ht & C1 & C2).
    destruct (Htext (str "heading_" ++ numberToString (Nat.min (length h) 3)) t)
      as (b & Hb & Hstep); trivial; [now apply heading_type_text|].
    exists b, rest. split; trivial. split; [lia|].
    intros fuel blocks.
    rewrite convertLoop_step, Efence, Eblank, Ediv, Eh, C1, C2.
    cbn [defined bind]. apply Hstep. }
  destruct (exec todoPattern (trim line)) as [tm|] eqn:Et.
  { pose proof Et as Et'. apply todo_shape in Et'.
    destruct Et' as (c & tl & t & _ & _ & Ht & C2).
    destruct (parseInlineAnnotations_ok t) as (rt & Hrt & _).
    eexists (richTextBlock (str "to_do") rt (Some (MkPayload None (Some _) None))),
      rest.
    split; [|split; [lia|]].
    - apply Produced_to_do with (t := t); trivial.
      intros ->. simpl in Ht. lia.
    - intros fuel blocks.
      rewrite convertLoop_step, Efence, Eblank, Ediv, Eh, Et, C2.
      cbn [defined bind]. rewrite Hrt. reflexivity. }
  destruct (exec bulletPattern (trim line)) as [bm|] eqn:Eb.
  { pose proof Eb as Eb'. apply bullet_shape in Eb'.
    destruct Eb' as (c & tl & t & _ & _ & Ht & C1).
    destruct (Htext (str "bulleted_list_item") t) as (b & Hb & Hstep); trivial;
      [vm_compute; tauto|].
    exists b, rest. split; trivial. split; [lia|].
    intros fuel blocks.
    rewrite convertLoop_step, Efence, Eblank, Ediv, Eh, Et, Eb, C1.
    cbn [defined bind]. apply Hstep. }
  destruct (exec numberedPattern (trim line)) as [nm|] eqn:En.
  { pose proof En as En'. apply numbered_shape in En'.
    destruct En' as (c & tl & t & _ & _ & Ht & C1).
    destruct (Htext (str "numbered_list_item") t) as (b & Hb & Hstep); trivial;
      [vm_compute; tauto|].
    exists b, rest. split; trivial. split; [lia|].
    intros fuel blocks.
    rewrite convertLoop_step, Efence, Eblank, Ediv, Eh, Et, Eb, En, C1.
    cbn [defined bind]. apply Hstep. }
  destruct (exec quotePattern (trim line)) as [qm|] eqn:Eq.
  { pose proof Eq as Eq'. apply quote_shape in Eq'.
    destruct Eq' as (tl & t & _ & Ht & C1).
    destruct (Htext (str "quote") t) as (b & Hb & Hstep); trivial;
      [vm_compute; tauto|].
    exists b, rest. split; trivial. split; [lia|].
    intros fuel blocks.
    rewrite convertLoop_step, Efence, Eblank, Ediv, Eh, Et, Eb, En, Eq, C1.
    cbn [defined bind]. apply Hstep. }
  destruct (Htext (str "paragraph") (trim line)) as (b & Hb & Hstep);
    [vm_compute; tauto| |].
  { apply streq_neq in Eblank. destruct (trim line); [congruence|simpl; lia]. }
  exists b, rest. split; trivial. split; [lia|].
  intros fuel blocks.
  rewrite convertLoop_step, Efence, Eblank, Ediv, Eh, Et, Eb, En, Eq.
  apply Hstep.
Qed.

(** What the scan returns: the blocks it had, then [Produced] blocks, at
    most one per line. *)
Lemma convertLoop_produced fuel :
  forall lines blocks,
    length lines <= fuel ->
    exists new,
      convertLoop fuel lines blocks = Ok (blocks ++ new)
      /\ Forall Produced new /\ length new <= length lines.
Proof.
  induction fuel as [|fuel IH]; intros lines blocks Hf.
  { destruct lines; [|simpl in Hf; lia].
    exists []. simpl. rewrite app_nil_r. auto. }
  destruct lines as [|line rest].
  { exists []. simpl. rewrite app_nil_r. auto. }
  simpl in Hf.
  destruct (convertLoop_cases line rest)
    as [[_ Hskip]|(b & rest' & Hb & Hlen & Hpush)].
  - rewrite Hskip. destruct (IH rest blocks) as (new & E & Hnew & Hn); [lia|].
    exists new. simpl. auto with arith.
  - rewrite Hpush.
    destruct (IH rest' (blocks ++ [b])) as (new & E & Hnew & Hn); [lia|].
    exists (b :: new). rewrite E, <- app_assoc. simpl.
    repeat split; auto. lia.
Qed.

(* ================================================================== *)
(** ** What the tokenizer keeps *)

Lemma Unmarked_refl s : Unmarked s s.
Proof. induction s; constructor; auto. Qed.

Lemma Unmarked_app a a' b b' :
  Unmarked a a' -> Unmarked b b' -> Unmarked (a ++ b) (a' ++ b').
Proof. induction 1; simpl; intros; try constructor; auto. Qed.

Lemma Unmarked_delimiters d :
  Forall (fun c => isDelimiter c = true) d -> Unmarked d [].
Proof. induction 1; constructor; auto. Qed.

(** A match of the inline pattern, in full: delimiters, a span, the
    same delimiters, and one segment with one flag for the span. *)
Lemma inline_shape_full s m :
  exec inlinePattern s = Some m ->
  exists pre d1 inner d2 post seg,
    s = pre ++ (d1 ++ inner ++ d2) ++ post
    /\ index m = length pre /\ matched m = d1 ++ inner ++ d2
    /\ Forall (fun c => isDelimiter c = true) d1 /\ 1 <= length d1
    /\ Forall (fun c => isDelimiter c = true) d2
    /\ 1 <= length inner
    /\ annotatedSegment m = [seg] /\ content seg = inner
    /\ In seg [boldSegment inner; strikethroughSegment inner;
               codeSegment inner; italicSegment inner].
Proof.
  intros H. apply exec_sound in H.
  destruct H as (pre & w & after & Hs & D & Hi & Hm).
  unfold inlinePattern, boldSpan, strikeSpan, codeSpan, starSpan,
    underscoreSpan in D.
  cbn [den seq alt plus star plusLazy opt lit] in D.
  destruct D as (cs1 & D & Hg).
  destruct D as [D|[D|[D|[D|D]]]];
    repeat match goal with
           | H : exists _, _ |- _ => destruct H
           | H : _ /\ _ |- _ => destruct H
           end; subst;
    repeat match goal with
           | H : chareq _ _ = true |- _ => apply chareq_eq in H; subst
           end;
    match goal with
    | Hw : Forall _ ?t, Hm : matched m = ?d1 ++ ?d1' ++ ?t ++ ?d2 ++ ?d2' |- _ =>
        exists pre, (d1 ++ d1'), t, (d2 ++ d2'), after
    | Hw : Forall _ ?t, Hm : matched m = ?d1 ++ ?t ++ ?d2 |- _ =>
        exists pre, d1, t, d2, after
    end;
    eexists;
    (split; [rewrite <- ?app_assoc; reflexivity|]);
    (split; [assumption|]);
    (split; [rewrite <- ?app_assoc; assumption|]);
    (split; [repeat constructor|]);
    (split; [simpl; lia|]);
    (split; [repeat constructor|]);
    (split; [assumption|]);
    (split; [unfold annotatedSegment, at_; rewrite Hg; reflexivity|]);
    (split; [reflexivity|]);
    simpl; tauto.
Qed.

Lemma exec_inline_plain s :
  Forall (fun c => isDelimiter c = false) s -> exec inlinePattern s = None.
Proof.
  intros Hs. destruct (exec inlinePattern s) as [m|] eqn:E; trivial.
  apply inline_shape_full in E.
  destruct E as (pre & d1 & inner & d2 & post & seg & -> & _ & _ & Hd1 & Hl & _).
  destruct d1 as [|d d1]; [simpl in Hl; lia|]. inversion Hd1; subst.
  rewrite Forall_forall in Hs. specialize (Hs d).
  rewrite Hs in *; [discriminate|].
  apply in_or_app. right. now left.
Qed.

Lemma singleFlag_segments inner seg :
  In seg [boldSegment inner; strikethroughSegment inner;
          codeSegment inner; italicSegment inner] ->
  singleFlag (annotationSet seg).
Proof.
  unfold singleFlag. simpl. intros [<-|[<-|[<-|[<-|[]]]]]; simpl; tauto.
Qed.

(** The [while] loop of the tokenizer keeps the text: what it pushes is
    the text without some delimiters, each segment has at most one flag,
    and a text without delimiter is pushed whole, as one plain segment. *)
Lemma tokenLoop_keeps fuel :
  forall remaining segments,
    length remaining <= fuel ->
    exists new,
      tokenLoop fuel remaining segments = Ok (segments ++ new)
      /\ Unmarked remaining (concat (map content new))
      /\ Forall (fun seg => singleFlag (annotationSet seg)) new
      /\ (Forall (fun c => isDelimiter c = false) remaining ->
          remaining <> [] -> new = [plainSegment remaining]).
Proof.
  induction fuel as [|fuel IH]; intros remaining segments Hf.
  - destruct remaining; [|simpl in Hf; lia].
    exists []. simpl. rewrite app_nil_r. repeat split; auto; try constructor.
    congruence.
  - destruct remaining as [|c tl].
    + exists []. simpl. rewrite app_nil_r. repeat split; auto; try constructor.
      congruence.
    + rewrite tokenLoop_step.
      destruct (exec inlinePattern (c :: tl)) as [m|] eqn:E.
      * pose proof E as E'. apply inline_shape_full in E'.
        destruct E' as (pre & d1 & inner & d2 & post & seg & Hs & Hi & Hm & Hd1
                        & Hl1 & Hd2 & Hin & Hseg & Hc & Hkind).
        rewrite Hs, Hi, Hm, Hseg, slice_prefix, sliceFrom_suffix.
        apply (f_equal (@length _)) in Hs as Hlen. simpl in Hlen.
        rewrite !length_app in Hlen. simpl in Hf.
        match goal with
        | |- context [tokenLoop fuel post ?acc] =>
            destruct (IH post acc) as (new & Hnew & Hu & Hflags & _); [lia|]
        end.
        eexists. split; [rewrite Hnew, <- !app_assoc; reflexivity|].
        split; [|split].
        -- rewrite !map_app, !concat_app.
           apply Unmarked_app; [|apply Unmarked_app; trivial].
           ++ destruct (0 <? length pre) eqn:Hp; simpl.
              ** rewrite app_nil_r. apply Unmarked_refl.
              ** apply Nat.ltb_ge in Hp.
                 assert (pre = []) as -> by (destruct pre; [reflexivity|simpl in Hp; lia]).
                 constructor.
           ++ simpl. rewrite Hc, app_nil_r.
              rewrite <- (app_nil_l inner) at 2. rewrite <- (app_nil_r inner) at 2.
              apply Unmarked_app; [now apply Unmarked_delimiters|].
              apply Unmarked_app; [apply Unmarked_refl|now apply Unmarked_delimiters].
        -- apply Forall_app. split; [|apply Forall_app; split; trivial].
           ++ destruct (0 <? length pre); repeat constructor.
           ++ constructor; [|constructor]. eapply singleFlag_segments; eauto.
        -- intros Hplain _. rewrite <- Hs in Hplain.
           now rewrite (exec_inline_plain Hplain) in E.
      * exists [plainSegment (c :: tl)]. split; [reflexivity|].
        split; [simpl; rewrite app_nil_r; apply Unmarked_refl|].
        split; [repeat constructor|auto].
Qed.

Lemma splitSegment_keeps seg parts :
  splitSegment seg = Ok parts ->
  concat (map content parts) = content seg
  /\ Forall (fun p => annotationSet p = annotationSet seg) parts
  /\ (annotations seg = None -> Forall (fun p => annotations p = None) parts).
Proof.
  destruct (splitSegment_cases seg) as [[_ ->]|[_ (cs & -> & C)]]; intros [= <-].
  - simpl. rewrite app_nil_r. repeat split; auto.
  - split; [rewrite map_content_chunks; eapply Chunked_concat; eauto|].
    split.
    + apply Forall_map, Forall_forall. intros c _. apply annotationSet_chunkSegment.
    + intros Hn. apply Forall_map, Forall_forall. intros c _.
      unfold chunkSegment. rewrite Hn. reflexivity.
Qed.

Lemma splitAll_keeps segments :
  forall result out,
    splitAll segments result = Ok out ->
    exists new,
      out = result ++ new
      /\ concat (map content new) = concat (map content segments)
      /\ (forall P : bool * bool * bool * bool -> Prop,
             Forall (fun seg => P (annotationSet seg)) segments ->
             Forall (fun seg => P (annotationSet seg)) new)
      /\ (Forall (fun seg => annotations seg = None) segments ->
          Forall (fun seg => annotations seg = None) new).
Proof.
  induction segments as [|seg tl IH]; intros result out H; simpl in H.
  - injection H as <-. exists []. rewrite app_nil_r. repeat split; auto.
  - destruct (splitSegment seg) as [parts| |] eqn:E; try discriminate.
    cbn [bind] in H. apply IH in H. destruct H as (new & -> & Hc & Hp & Hn).
    apply splitSegment_keeps in E. destruct E as (Ec & Ea & En).
    exists (parts ++ new). rewrite app_assoc. split; trivial.
    split; [simpl; rewrite map_app, concat_app; congruence|].
    split.
    + intros P HP. inversion HP; subst. apply Forall_app. split; auto.
      eapply Forall_impl; [|exact Ea]. simpl. now intros p ->.
    + intros HP. inversion HP; subst. apply Forall_app. auto.
Qed.

Lemma parseInlineAnnotations_keeps (text : jsstring) :
  exists rt,
    parseInlineAnnotations text = Ok rt
    /\ Unmarked text (concat (map content rt))
    /\ Forall (fun seg => singleFlag (annotationSet seg)) rt
    /\ (Forall (fun c => isDelimiter c = false) text ->
        concat (map content rt) = text
        /\ Forall (fun seg => annotations seg = None) rt).
Proof.
  unfold parseInlineAnnotations.
  destruct (@tokenLoop_keeps (length text) text []) as (segs & E1 & Hu & Hf & Hp);
    [lia|].
  destruct (@tokenLoop_ok (length text) text []) as (segs' & E2 & Hall & _); [lia|].
  rewrite E1 in E2. cbn [app] in E1, E2. injection E2 as <-.
  rewrite E1. cbn [bind].
  destruct (@splitAll_ok segs [] Hall) as (rt & E & _).
  rewrite E.
  apply splitAll_keeps in E. destruct E as (new & -> & Hc & HP & Hn).
  exists new. split; [reflexivity|].
  split; [now rewrite Hc|]. split; [now apply HP|].
  intros Hplain. rewrite Hc.
  destruct text as [|c t].
  - inversion Hu; subst. split; trivial. apply Hn.
    destruct segs; [constructor|discriminate].
  - rewrite (Hp Hplain) in *; try discriminate.
    simpl. rewrite app_nil_r. split; trivial.
    apply Hn. repeat constructor.
Qed.

(** X6. The tokenizer keeps the text: the contents of the segments it
    returns, put together, are the text without some of its delimiter
    characters (asterisk, tilde, backtick, underscore), in the same
    order.  A text without any delimiter comes back unchanged, in
    segments without annotations. *)
Theorem parseInlineAnnotations_keeps_text (text : jsstring) :
  exists rt,
    parseInlineAnnotations text = Ok rt
    /\ Unmarked text (concat (map content rt))
    /\ Forall (fun seg => singleFlag (annotationSet seg)) rt
    /\ (Forall (fun c => isDelimiter c = false) text ->
        concat (map content rt) = text
        /\ Forall (fun seg => annotations seg = None) rt).
Proof. exact (parseInlineAnnotations_keeps text). Qed.

(* ================================================================== *)
(** ** The blocks of a conversion *)

Lemma countLF_app a b : countLF (a ++ b) = countLF a + countLF b.
Proof. apply count_occ_app. Qed.

Lemma countLF_dropWhile p s : countLF (dropWhile p s) <= countLF s.
Proof.
  induction s as [|c s IH]; simpl; trivial.
  destruct (p c); [|reflexivity].
  unfold countLF in *. simpl. destruct (N.eq_dec c LF); lia.
Qed.

Lemma countLF_dropWhileEnd p s : countLF (dropWhileEnd p s) <= countLF s.
Proof.
  induction s as [|c s IH]; simpl; trivial.
  unfold countLF in *.
  destruct (dropWhileEnd p s) as [|x r] eqn:E.
  - destruct (p c); simpl in *; destruct (N.eq_dec c LF); lia.
  - simpl in *. destruct (N.eq_dec c LF); lia.
Qed.

Lemma countLF_trim s : countLF (trim s) <= countLF s.
Proof.
  unfold trim. etransitivity; [apply countLF_dropWhileEnd|apply countLF_dropWhile].
Qed.

Lemma splitLoop_count fuel :
  forall fromP n q s out lines,
    splitLoop fuel linePattern fromP n q s out = Ok lines ->
    length lines <= length out + 1 + countLF s.
Proof.
  induction fuel as [|fuel IH]; intros fromP n q s out lines H.
  - destruct s; [|discriminate]. injection H as <-.
    rewrite length_app. simpl. lia.
  - destruct s as [|c tl].
    + injection H as <-. rewrite length_app. simpl. lia.
    + rewrite splitLoop_step in H.
      assert (Hc : countLF tl <= countLF (c :: tl)).
      { unfold countLF. simpl. destruct (N.eq_dec c LF); lia. }
      destruct (matchAt linePattern q (c :: tl)) as [st'|] eqn:E.
      * pose proof (linePattern_match _ _ E) as Hin.
        apply matchAt_sound in E. destruct E as (w & after & cs' & Hs & D & ->).
        cbn [pos rest] in H.
        destruct (Nat.eqb (q + length w) q && Nat.eqb n 0).
        -- apply IH in H. lia.
        -- apply IH in H. rewrite length_app in H. simpl in H.
           assert (1 <= countLF w).
           { unfold linePattern in D. den_inv D.
             match goal with
             | Hx : chareq LF _ = true |- _ => apply chareq_eq in Hx; subst
             end.
             rewrite !countLF_app. unfold countLF at 2. simpl. lia. }
           rewrite Hs, countLF_app. lia.
      * apply IH in H. lia.
Qed.

Lemma split_count s lines :
  split linePattern s = Ok lines -> length lines <= 1 + countLF s.
Proof.
  unfold split. destruct s as [|c tl].
  - destruct (matchAt linePattern 0 []); intros [= <-]; simpl; lia.
  - intros H. apply splitLoop_count in H. simpl in H. lia.
Qed.

(** [markdownToBlocks], from the trimmed text on. *)
Lemma markdownToBlocks_produced text :
  exists blocks,
    markdownToBlocks text = Ok blocks
    /\ Forall Produced blocks /\ length blocks <= 1 + countLF text.
Proof.
  unfold markdownToBlocks. cbv zeta.
  destruct (isEmpty (trim text)).
  - exists []. repeat split; auto. simpl. lia.
  - destruct (split_ok linePattern (trim text)) as (lines & E). rewrite E.
    cbn [bind]. apply split_count in E.
    destruct (@convertLoop_produced (length lines) lines []) as (new & H & Hp & Hn);
      [lia|].
    exists new. split; [exact H|]. split; trivial.
    pose proof (countLF_trim text). lia.
Qed.

Lemma Produced_shape b :
  Produced b ->
  object b = str "block" /\ In (type b) blockTypes
  /\ (rich_text (payload b) = None <-> type b = str "divider")
  /\ (checked (payload b) <> None <-> type b = str "to_do")
  /\ (language (payload b) <> None <-> type b = str "code")
  /\ language (payload b) <> Some [].
Proof.
  assert (Htypes : forall ty, In ty textTypes ->
            In ty blockTypes /\ ty <> str "divider" /\ ty <> str "to_do"
            /\ ty <> str "code").
  { intros ty H. vm_compute in H.
    repeat (destruct H as [<-|H]; [repeat split; try discriminate; vm_compute; tauto|]).
    destruct H. }
  destruct 1 as [|c lang rt _ Hl|ty t rt Hty _ _|t chk rt _ _]; cbn;
    try (destruct (Htypes ty Hty) as (Hin & Hd & Ht & Hc));
    repeat split;
    try solve [ assumption | discriminate | congruence | vm_compute; tauto
              | intros H; vm_compute in H; discriminate
              | intros H; now destruct H
              | intros H; exfalso; auto ].
Qed.

(** X7. Whatever the input, every block that [markdownToBlocks] returns
    has ["block"] as its [object] and one of the ten block types as its
    [type]; its payload has no [rich_text] exactly when it is a divider,
    a [checked] field exactly when it is a to-do item, and a [language]
    exactly when it is a code block, never the empty string. *)
Theorem markdownToBlocks_block_shape (text : jsstring) :
  exists blocks,
    markdownToBlocks text = Ok blocks
    /\ Forall (fun b =>
                 object b = str "block" /\ In (type b) blockTypes
                 /\ (rich_text (payload b) = None <-> type b = str "divider")
                 /\ (checked (payload b) <> None <-> type b = str "to_do")
                 /\ (language (payload b) <> None <-> type b = str "code")
                 /\ language (payload b) <> Some [])
              blocks.
Proof.
  destruct (markdownToBlocks_produced text) as (blocks & H & Hp & _).
  exists blocks. split; trivial.
  eapply Forall_impl; [|exact Hp]. apply Produced_shape.
Qed.

(** X8. Whatever the input, [markdownToBlocks] returns at most one block
    per line: a text with [k] line feeds gives at most [k + 1] blocks. *)
Theorem markdownToBlocks_block_count (text : jsstring) :
  exists blocks,
    markdownToBlocks text = Ok blocks /\ length blocks <= 1 + countLF text.
Proof.
  destruct (markdownToBlocks_produced text) as (blocks & H & _ & Hn). eauto.
Qed.

Lemma plainRichText_plain c rt :
  plainRichText c = Ok rt -> Forall (fun seg => annotations seg = None) rt.
Proof.
  unfold plainRichText. destruct (length c =? 0).
  - intros [= <-]. repeat constructor.
  - intros H. apply splitSegment_keeps in H. now apply H.
Qed.

Lemma Produced_annotations b :
  Produced b ->
  Forall (fun seg => singleFlag (annotationSet seg)) (getRichText b)
  /\ (type b = str "code" ->
      Forall (fun seg => annotations seg = None) (getRichText b)).
Proof.
  assert (Hparse : forall t rt,
             parseInlineAnnotations t = Ok rt ->
             Forall (fun seg => singleFlag (annotationSet seg)) rt).
  { intros t rt H.
    destruct (parseInlineAnnotations_keeps t) as (rt' & E & _ & Hf & _).
    congruence. }
  destruct 1 as [|c lang rt Hrt _|ty t rt Hty _ Hrt|t chk rt _ Hrt];
    unfold getRichText; cbn.
  - split; constructor.
  - apply plainRichText_plain in Hrt. split; trivial.
    eapply Forall_impl; [|exact Hrt]. intros seg Hs.
    unfold annotationSet, singleFlag. rewrite Hs. simpl. tauto.
  - split; [eauto|]. intros ->. vm_compute in Hty. intuition discriminate.
  - split; [eauto|]. discriminate.
Qed.

(** X9. Whatever the input, every rich-text segment of every returned
    block has at most one annotation flag set (bold, italic,
    strikethrough or code, never two of them), and the segments of a code
    block have no annotations at all. *)
Theorem markdownToBlocks_annotations (text : jsstring) :
  exists blocks,
    markdownToBlocks text = Ok blocks
    /\ Forall (fun b =>
                 Forall (fun seg => singleFlag (annotationSet seg)) (getRichText b)
                 /\ (type b = str "code" ->
                     Forall (fun seg => annotations seg = None) (getRichText b)))
              blocks.
Proof.
  destruct (markdownToBlocks_produced text) as (blocks & H & Hp & _).
  exists blocks. split; trivial.
  eapply Forall_impl; [|exact Hp]. apply Produced_annotations.
Qed.

(** X10. White space around the input, blank lines included, changes
    nothing: the blocks and the batches are those of the input
    without it. *)
Theorem outer_whitespace_ignored (ws1 text ws2 : jsstring) :
  Forall (fun c => isWhiteSpace c = true) ws1 ->
  Forall (fun c => isWhiteSpace c = true) ws2 ->
  markdownToBlocks (ws1 ++ text ++ ws2) = markdownToBlocks text
  /\ markdownToBlocksBatched (ws1 ++ text ++ ws2) = markdownToBlocksBatched text.
Proof.
  intros H1 H2.
  assert (markdownToBlocks (ws1 ++ text ++ ws2) = markdownToBlocks text) as E.
  { unfold markdownToBlocks. cbv zeta. now rewrite trim_around. }
  split; trivial. unfold markdownToBlocksBatched. now rewrite E.
Qed.

(** X11. A line of white space only, outside a fence, gives no block. *)
Theorem blank_line_skipped ws rest fuel blocks :
  Forall (fun c => isWhiteSpace c = true) ws ->
  convertLoop (S fuel) (ws :: rest) blocks = convertLoop fuel rest blocks.
Proof.
  intros Hws. rewrite convertLoop_step.
  assert (exec fencePattern ws = None) as ->.
  { destruct ws as [|c ws].
    - reflexivity.
    - inversion Hws; subst. apply exec_fence_first. intros ->. discriminate. }
  assert (trim ws = []) as ->.
  { unfold trim. now rewrite dropWhile_all. }
  reflexivity.
Qed.

(* ================================================================== *)
(** ** A closed fence *)

Lemma collectFence_closer code :
  forall codeLines rest,
    Forall (fun l => l <> str "```") code ->
    collectFence (code ++ str "```" :: rest) codeLines = (codeLines ++ code, rest).
Proof.
  induction code as [|l tl IH]; intros codeLines rest Hall.
  - simpl. now rewrite app_nil_r.
  - inversion Hall; subst. cbn [app collectFence].
    assert (streq l (str "```") = false) as -> by now apply streq_neq.
    rewrite IH by assumption. now rewrite <- app_assoc.
Qed.

(** The iteration of the scan at a fence that is closed: an opener
    (three backticks and a tag of word characters), lines none of which
    is three backticks, and the closing line. *)
Lemma closed_fence_step tag code :
  Forall (fun c => isWord c = true) tag ->
  Forall (fun l => l <> str "```") code ->
  exists rt,
    concat (map content rt) = join [LF] code
    /\ Forall (fun seg => annotations seg = None) rt
    /\ forall rest fuel blocks,
         convertLoop (S fuel) ((str "```" ++ tag) :: code ++ str "```" :: rest)
                     blocks
         = convertLoop fuel rest
             (blocks ++
                [makeBlock (str "code")
                   (MkPayload (Some rt) None
                      (Some (if isEmpty tag then str "plain text" else tag)))]).
Proof.
  intros Htag Hcode.
  destruct (fence_matches Htag) as (m & E & C).
  destruct (plainRichText_ok (join [LF] code)) as (rt & Hrt & _).
  exists rt.
  split; [eapply plainRichText_content; eauto|].
  split; [eapply plainRichText_plain; eauto|].
  intros rest fuel blocks.
  rewrite convertLoop_step, E, C. cbv zeta.
  rewrite collectFence_closer by assumption. cbn [app].
  rewrite Hrt. cbn [bind].
  destruct tag; reflexivity.
Qed.

(* ================================================================== *)
(** ** Hyphens *)

Lemma bullet_shape_full s m :
  exec bulletPattern s = Some m ->
  exists b x sp t,
    s = b :: x :: sp ++ t /\ isWhiteSpace x = true.
Proof.
  intros H. unfold bulletPattern in H. exec_inv H.
  match goal with
  | Hw : Forall (fun c => isWhiteSpace c = true) ?sp |- _ =>
      destruct sp as [|x sp]; [simpl in *; lia|inversion Hw; subst]
  end.
  do 4 eexists. split; [reflexivity|assumption].
Qed.

Lemma exec_marker_alone b tl :
  (forall x r, tl = x :: r -> isWhiteSpace x = false) ->
  exec todoPattern (b :: tl) = None /\ exec bulletPattern (b :: tl) = None.
Proof.
  intros Htl. split.
  - destruct (exec todoPattern (b :: tl)) eqn:E; trivial.
    apply todo_shape_full in E.
    destruct E as (b' & sp & x & sp2 & t & [= _ E] & Hsp & Hl).
    destruct sp as [|y sp]; [simpl in Hl; lia|]. inversion Hsp; subst.
    specialize (Htl _ _ eq_refl). congruence.
  - destruct (exec bulletPattern (b :: tl)) eqn:E; trivial.
    apply bullet_shape_full in E.
    destruct E as (b' & x & sp & t & [= _ E] & Hx).
    specialize (Htl _ _ E). congruence.
Qed.

(** A text without delimiter is tokenized as itself. *)
Lemma parseInlineAnnotations_plain c t :
  Forall (fun x => isDelimiter x = false) (c :: t) ->
  parseInlineAnnotations (c :: t) = splitSegment (plainSegment (c :: t)).
Proof.
  intros Hplain. unfold parseInlineAnnotations.
  cbn [length]. rewrite tokenLoop_step, (exec_inline_plain Hplain).
  cbn [bind app splitAll]. apply bind_Ok.
Qed.

Lemma last_repeat {A : Type} (x d : A) n : last (repeat x (S n)) d = x.
Proof.
  induction n as [|n IH]; [reflexivity|].
  change (repeat x (S (S n))) with (x :: repeat x (S n)).
  change (last (x :: repeat x (S n)) d) with (last (repeat x (S n)) d).
  exact IH.
Qed.

(** X13. A text made of hyphens only: three hyphens give one divider
    block, any other number (but zero) gives one paragraph block whose
    rich text is the hyphens, as plain text. *)
Theorem hyphen_lines (n : nat) :
  markdownToBlocks (repeat hyphen 3) = Ok [makeBlock (str "divider") emptyPayload]
  /\ (n <> 0 -> n <> 3 ->
      markdownToBlocks (repeat hyphen n)
      = (rt <- splitSegment (plainSegment (repeat hyphen n)) ;;
         Ok [richTextBlock (str "paragraph") rt None])).
Proof.
  split; [vm_compute; reflexivity|]. intros Hn0 Hn.
  destruct n as [|n]; [congruence|]. clear Hn0.
  assert (Hws : Forall (fun x => isWhiteSpace x = false) (repeat hyphen (S n)))
    by (apply Forall_repeat; reflexivity).
  assert (Hd : Forall (fun x => isDelimiter x = false) (repeat hyphen (S n)))
    by (apply Forall_repeat; reflexivity).
  assert (Htrim : trim (repeat hyphen (S n)) = repeat hyphen (S n)).
  { cbn [repeat]. apply trim_fixed; [reflexivity|].
    change (hyphen :: repeat hyphen n) with (repeat hyphen (S n)).
    now rewrite last_repeat. }
  rewrite markdownToBlocks_single_line; trivial; try discriminate.
  2:{ intros Hin. apply In_repeat in Hin. discriminate. }
  rewrite convertLoop_step, Htrim.
  cbn [repeat] in *.
  rewrite exec_fence_first by discriminate.
  change (streq (hyphen :: repeat hyphen n) []) with false.
  assert (streq (hyphen :: repeat hyphen n) (str "---") = false) as ->.
  { apply streq_neq. intros E. apply (f_equal (@length _)) in E.
    simpl in E. rewrite repeat_length in E. lia. }
  cbv iota.
  rewrite exec_heading_first by discriminate.
  destruct (@exec_marker_alone hyphen (repeat hyphen n)) as [-> ->].
  { intros x r E. inversion Hws as [|? ? _ Hws']; subst.
    rewrite E in Hws'. now inversion Hws'. }
  rewrite exec_numbered_first by reflexivity.
  assert (exec quotePattern (hyphen :: repeat hyphen n) = None) as ->.
  { destruct (exec quotePattern (hyphen :: repeat hyphen n)) eqn:E; trivial.
    apply quote_shape in E. destruct E as (? & ? & [= ] & _). }
  rewrite parseInlineAnnotations_plain by assumption.
  destruct (splitSegment (plainSegment (hyphen :: repeat hyphen n))); reflexivity.
Qed.

(* ================================================================== *)
(** ** Lines: joining, then splitting *)

Lemma matchAt_line_none q c tl :
  c <> LF -> c <> CR -> matchAt linePattern q (c :: tl) = None.
Proof.
  intros Hlf Hcr.
  destruct (matchAt linePattern q (c :: tl)) as [st'|] eqn:E; trivial.
  apply matchAt_sound in E. destruct E as (w & after & cs' & Hs & D & _).
  unfold linePattern in D.
  cbn [den seq alt plus star plusLazy opt lit] in D.
  destruct D as (w1 & w2 & cs1 & -> & (Hw1 & _) & (x & -> & Hx) & _).
  apply chareq_eq in Hx. subst x.
  destruct w1 as [|y w1]; simpl in Hs.
  - injection Hs as Hs _. now destruct (Hlf Hs).
  - injection Hs as Hs _. inversion Hw1 as [|? ? Hy _]; subst.
    apply chareq_eq in Hy. now destruct (Hcr (eq_sym Hy)).
Qed.

(** The scan of [split] over the characters of a line. *)
Lemma splitLoop_line l :
  Forall (fun c => c <> LF /\ c <> CR) l ->
  forall fuel fromP n q s out,
    splitLoop (length l + fuel) linePattern fromP n q (l ++ s) out
    = splitLoop fuel linePattern fromP (n + length l) (q + length l) s out.
Proof.
  induction 1 as [|c l [Hlf Hcr] _ IH]; intros fuel fromP n q s out.
  - simpl. now rewrite !Nat.add_0_r.
  - cbn [length app Nat.add]. rewrite splitLoop_step, matchAt_line_none by assumption.
    rewrite IH. now rewrite !Nat.add_succ_r.
Qed.

Lemma splitLoop_separator sep fuel fromP n q s out :
  sep = [LF] \/ sep = [CR; LF] ->
  splitLoop (S fuel) linePattern fromP n q (sep ++ s) out
  = splitLoop fuel linePattern s 0 (q + length sep) s (out ++ [firstn n fromP]).
Proof.
  intros [-> | ->]; cbn [app length]; rewrite splitLoop_step.
  - change (matchAt linePattern q (LF :: s)) with (Some (MState (S q) s [])).
    cbn [pos rest].
    replace (Nat.eqb (S q) q) with false by (symmetry; apply Nat.eqb_neq; lia).
    now rewrite Nat.add_1_r.
  - change (matchAt linePattern q (CR :: LF :: s))
      with (Some (MState (S (S q)) s [])).
    cbn [pos rest].
    replace (Nat.eqb (S (S q)) q) with false by (symmetry; apply Nat.eqb_neq; lia).
    cbn [andb]. f_equal. lia.
Qed.

Lemma splitLoop_join sep :
  sep = [LF] \/ sep = [CR; LF] ->
  forall lines l fuel q out,
    Forall (Forall (fun c => c <> LF /\ c <> CR)) (l :: lines) ->
    length (join sep (l :: lines)) <= fuel ->
    splitLoop fuel linePattern (join sep (l :: lines)) 0 q
              (join sep (l :: lines)) out
    = Ok (out ++ l :: lines).
Proof.
  intros Hsep. induction lines as [|l2 lines IH]; intros l fuel q out Hall Hf.
  - inversion Hall; subst. cbn [join] in *.
    pose proof (splitLoop_line H1 (fuel - length l) l 0 q [] out) as L.
    rewrite app_nil_r in L.
    replace fuel with (length l + (fuel - length l)) by lia.
    rewrite L. destruct (fuel - length l); reflexivity.
  - inversion Hall as [|? ? Hl Hrest]; subst.
    change (join sep (l :: l2 :: lines)) with (l ++ sep ++ join sep (l2 :: lines))
      in *.
    rewrite !length_app in Hf.
    assert (1 <= length sep) by (destruct Hsep as [-> | ->]; simpl; lia).
    replace fuel with (length l + S (fuel - length l - 1)) by lia.
    rewrite splitLoop_line by assumption.
    rewrite splitLoop_separator by assumption.
    cbn [Nat.add]. rewrite firstn_app, Nat.sub_diag, firstn_all. cbn [firstn].
    rewrite app_nil_r, IH; trivial; [|lia].
    now rewrite <- app_assoc.
Qed.

(** X14. Splitting into lines undoes joining: lines without line feed and
    carriage return, joined by line feeds or by carriage return and line
    feed, are what [split] gives back; so, when both joined texts are
    trimmed, the two line endings give the same blocks. *)
Theorem crlf_as_lf (l : jsstring) (lines : list jsstring) :
  Forall (Forall (fun c => c <> LF /\ c <> CR)) (l :: lines) ->
  split linePattern (join [LF] (l :: lines)) = Ok (l :: lines)
  /\ split linePattern (join [CR; LF] (l :: lines)) = Ok (l :: lines)
  /\ (trim (join [LF] (l :: lines)) = join [LF] (l :: lines) ->
      trim (join [CR; LF] (l :: lines)) = join [CR; LF] (l :: lines) ->
      markdownToBlocks (join [CR; LF] (l :: lines))
      = markdownToBlocks (join [LF] (l :: lines))).
Proof.
  intros Hall.
  assert (Hsplit : forall sep,
             sep = [LF] \/ sep = [CR; LF] ->
             split linePattern (join sep (l :: lines)) = Ok (l :: lines)).
  { intros sep Hsep. unfold split.
    destruct (join sep (l :: lines)) as [|c tl] eqn:E.
    - destruct lines as [|l2 lines]; cbn [join] in E.
      + subst l. reflexivity.
      + apply app_eq_nil in E. destruct E as [_ E].
        apply app_eq_nil in E. destruct E as [E _].
        destruct Hsep as [-> | ->]; discriminate.
    - rewrite <- E.
      apply (@splitLoop_join sep Hsep lines l
               (2 * length (join sep (l :: lines)) + 1) 0 [] Hall).
      unfold jsstring, char in *. lia. }
  split; [apply Hsplit; auto|]. split; [apply Hsplit; auto|].
  intros T1 T2. unfold markdownToBlocks. cbv zeta. rewrite T1, T2.
  rewrite !Hsplit by auto.
  destruct lines as [|l2 lines]; [reflexivity|].
  cbn [join]. destruct l; reflexivity.
Qed.

(* ================================================================== *)
(** ** No blocks *)

Lemma batchLoop_chunked_prefix blocks fuel :
  forall i batches out,
    batchLoop fuel blocks i batches = Ok out -> exists cs, out = batches ++ cs.
Proof.
  induction fuel as [|fuel IH]; intros i batches out; rewrite batchLoop_unfold;
    destruct (i <? length blocks); try discriminate;
    try (intros [= <-]; exists []; now rewrite app_nil_r).
  intros H. apply IH in H. destruct H as (cs & ->).
  rewrite <- app_assoc. eauto.
Qed.

Lemma dropWhile_head p s c t : dropWhile p s = c :: t -> p c = false.
Proof.
  induction s as [|x s IH]; simpl; [discriminate|].
  destruct (p x) eqn:E; trivial. now intros [= <- _].
Qed.

Lemma dropWhile_nil p s :
  dropWhile p s = [] -> Forall (fun c => p c = true) s.
Proof.
  induction s as [|x s IH]; simpl; [constructor|].
  destruct (p x) eqn:E; [|discriminate]. auto.
Qed.

Lemma dropWhileEnd_head p c s :
  p c = false -> exists t, dropWhileEnd p (c :: s) = c :: t.
Proof.
  intros Hc. simpl. rewrite Hc. destruct (dropWhileEnd p s); eauto.
Qed.

(** [trim] returns the empty string exactly for a text of white space. *)
Lemma trim_empty s :
  trim s = [] <-> Forall (fun c => isWhiteSpace c = true) s.
Proof.
  unfold trim. split.
  - intros H. destruct (dropWhile isWhiteSpace s) as [|c t] eqn:E.
    + now apply dropWhile_nil.
    + apply dropWhile_head in E.
      destruct (@dropWhileEnd_head _ _ t E) as (t' & E'). congruence.
  - intros H. now rewrite dropWhile_all.
Qed.

Lemma trim_head s c t : trim s = c :: t -> isWhiteSpace c = false.
Proof.
  unfold trim. destruct (dropWhile isWhiteSpace s) as [|c' t'] eqn:E;
    [discriminate|].
  apply dropWhile_head in E.
  destruct (@dropWhileEnd_head _ _ t' E) as (t'' & ->). now intros [= <- _].
Qed.

Lemma splitLoop_prefix r fuel :
  forall fromP n q s out lines,
    splitLoop fuel r fromP n q s out = Ok lines ->
    exists more, lines = out ++ more.
Proof.
  induction fuel as [|fuel IH]; intros fromP n q s out lines H.
  - destruct s; [|discriminate]. injection H as <-. eauto.
  - destruct s as [|c tl]; [injection H as <-; eauto|].
    rewrite splitLoop_step in H.
    destruct (matchAt r q (c :: tl)) as [st'|]; [|eauto].
    destruct (Nat.eqb (pos st') q && Nat.eqb n 0); [eauto|].
    apply IH in H. destruct H as (more & ->).
    rewrite <- app_assoc. eauto.
Qed.

(** The first piece that [split] returns, once the scan is past the first
    character, is a prefix of the input that is not empty. *)
Lemma splitLoop_first r fuel :
  forall fromP n q s lines,
    length fromP = n + length s -> 1 <= n ->
    splitLoop fuel r fromP n q s [] = Ok lines ->
    exists k more, 1 <= k /\ lines = firstn k fromP :: more.
Proof.
  induction fuel as [|fuel IH]; intros fromP n q s lines Hlen Hn H.
  - destruct s; [|discriminate]. injection H as <-.
    exists (length fromP), []. rewrite firstn_all. split; [lia|reflexivity].
  - destruct s as [|c tl].
    + injection H as <-.
      exists (length fromP), []. rewrite firstn_all. split; [lia|reflexivity].
    + rewrite splitLoop_step in H. simpl in Hlen.
      destruct (matchAt r q (c :: tl)) as [st'|].
      * destruct (Nat.eqb (pos st') q && Nat.eqb n 0).
        -- apply IH in H; trivial; lia.
        -- apply splitLoop_prefix in H. destruct H as (more & ->).
           exists n, more. split; trivial.
      * apply IH in H; trivial; lia.
Qed.

Lemma split_first c t lines :
  isWhiteSpace c = false ->
  split linePattern (c :: t) = Ok lines ->
  exists l more, lines = (c :: l) :: more.
Proof.
  intros Hc H. unfold split in H.
  change (2 * length (c :: t) + 1) with (S (length t + S (length t + 0) + 1)) in H.
  rewrite splitLoop_step, matchAt_line_none in H;
    try (intros ->; discriminate).
  apply splitLoop_first in H; [|reflexivity|lia].
  destruct H as (k & more & Hk & ->).
  destruct k as [|k]; [lia|]. simpl. eauto.
Qed.

Lemma markdownToBlocks_nil_iff text :
  markdownToBlocks text = Ok []
  <-> Forall (fun c => isWhiteSpace c = true) text.
Proof.
  rewrite <- trim_empty. unfold markdownToBlocks. cbv zeta. split.
  - destruct (trim text) as [|c t] eqn:Et; trivial.
    cbn [isEmpty]. intros H. exfalso.
    destruct (split_ok linePattern (c :: t)) as (lines & E).
    rewrite E in H. cbn [bind] in H.
    apply trim_head in Et.
    destruct (@split_first _ _ _ Et E) as (l & more & ->).
    cbn [length] in H.
    destruct (convertLoop_cases (c :: l) more)
      as [[Hblank _]|(b & rest' & _ & Hlen & Hpush)].
    + apply trim_empty in Hblank. inversion Hblank; congruence.
    + rewrite Hpush in H.
      match type of H with
      | convertLoop ?f ?ls ?bs = _ =>
          destruct (@convertLoop_produced f ls bs) as (new & E' & _);
            [exact Hlen|]
      end.
      rewrite E' in H. discriminate.
  - now intros ->.
Qed.

(** X15. [markdownToBlocks] returns no block exactly when its input is
    made of white space only (the empty input included); the same inputs
    are the ones for which [markdownToBlocksBatched] returns no batch. *)
Theorem markdownToBlocks_empty_iff_blank (text : jsstring) :
  (markdownToBlocks text = Ok []
   <-> Forall (fun c => isWhiteSpace c = true) text)
  /\ (markdownToBlocksBatched text = Ok []
      <-> Forall (fun c => isWhiteSpace c = true) text).
Proof.
  split; [apply markdownToBlocks_nil_iff|].
  rewrite <- markdownToBlocks_nil_iff. unfold markdownToBlocksBatched.
  destruct (markdownToBlocks_produced text) as (blocks & -> & _).
  cbn [bind]. destruct blocks as [|b blocks]; [tauto|].
  change (length (b :: blocks) =? 0) with false. cbv iota.
  split; [|discriminate].
  cbn [length]. rewrite batchLoop_unfold.
  change (0 <? S (length blocks)) with true. cbv iota.
  intros H. apply batchLoop_chunked_prefix in H. destruct H as (cs & H).
  destruct cs; discriminate.
Qed.

(* ================================================================== *)
(** ** A line and the block it gives *)

(** What the scan returns for its lines does not depend on the blocks
    it starts with. *)
Lemma convertLoop_uniform fuel :
  forall lines,
    length lines <= fuel ->
    exists new, forall blocks, convertLoop fuel lines blocks = Ok (blocks ++ new).
Proof.
  induction fuel as [|fuel IH]; intros lines Hf.
  { destruct lines; [|simpl in Hf; lia].
    exists []. intros blocks. simpl. now rewrite app_nil_r. }
  destruct lines as [|line rest].
  { exists []. intros blocks. simpl. now rewrite app_nil_r. }
  simpl in Hf.
  destruct (convertLoop_cases line rest)
    as [[_ Hskip]|(b & rest' & _ & Hlen & Hpush)].
  - destruct (IH rest) as (new & Hnew); [lia|].
    exists new. intros blocks. now rewrite Hskip.
  - destruct (IH rest') as (new & Hnew); [lia|].
    exists (b :: new). intros blocks.
    now rewrite Hpush, Hnew, <- app_assoc.
Qed.

(** The scan after one more block: that block, then the blocks of the
    lines that are left. *)
Lemma convertLoop_after fuel rest :
  length rest <= fuel ->
  exists new,
    convertLoop fuel rest [] = Ok new
    /\ forall blocks b,
         convertLoop fuel rest (blocks ++ [b]) = Ok (blocks ++ b :: new).
Proof.
  intros Hf. destruct (@convertLoop_uniform fuel rest Hf) as (new & Hnew).
  exists new. split; [apply (Hnew [])|].
  intros blocks b. now rewrite Hnew, <- app_assoc.
Qed.



(** A line by itself: when an iteration of the scan at the trimmed line
    appends one block, [markdownToBlocks] returns that block for the
    line with any white space around it. *)
Lemma one_line_result text b :
  trim text <> [] -> ~ In LF (trim text) ->
  (forall rest fuel blocks,
      convertLoop (S fuel) (trim text :: rest) blocks
      = convertLoop fuel rest (blocks ++ [b])) ->
  markdownToBlocks text = Ok [b].
Proof.
  intros Hne Hlf Hstep. unfold markdownToBlocks. cbv zeta.
  destruct (trim text) as [|c t] eqn:E; [congruence|].
  cbn [isEmpty]. rewrite split_single_line by assumption.
  cbn [bind length]. now rewrite Hstep.
Qed.

(** The two results of a line that makes the scan append one block
    whatever white space surrounds it: in the scan, that block and then
    the blocks of the lines that are left; by itself, that block. *)
Lemma line_result body b :
  body <> [] ->
  (forall ws1 ws2,
      Forall (fun y => isWhiteSpace y = true) ws1 ->
      Forall (fun y => isWhiteSpace y = true) ws2 ->
      trim (ws1 ++ body ++ ws2) = body
      /\ forall rest fuel blocks,
           convertLoop (S fuel) ((ws1 ++ body ++ ws2) :: rest) blocks
           = convertLoop fuel rest (blocks ++ [b])) ->
  forall ws1 ws2,
    Forall (fun y => isWhiteSpace y = true) ws1 ->
    Forall (fun y => isWhiteSpace y = true) ws2 ->
    (forall rest fuel blocks,
        length rest <= fuel ->
        exists new,
          convertLoop fuel rest [] = Ok new
          /\ convertLoop (S fuel) ((ws1 ++ body ++ ws2) :: rest) blocks
             = Ok (blocks ++ b :: new))
    /\ (~ In LF body -> markdownToBlocks (ws1 ++ body ++ ws2) = Ok [b]).
Proof.
  intros Hne Hstep ws1 ws2 H1 H2.
  destruct (Hstep ws1 ws2 H1 H2) as [Htrim Hraw]. split.
  - intros rest fuel blocks Hf.
    destruct (@convertLoop_after fuel rest Hf) as (new & Hnew & Hafter).
    exists new. split; [exact Hnew|]. now rewrite Hraw.
  - intros Hlf. apply one_line_result; rewrite Htrim; trivial.
    destruct (Hstep [] []) as [_ Hbody]; try constructor.
    intros rest fuel blocks. specialize (Hbody rest fuel blocks).
    cbn [app] in Hbody. now rewrite app_nil_r in Hbody.
Qed.

(** X1. A to-do line: a bullet marker, white space, a checkbox, white
    space and a text on one line that neither starts nor ends with white
    space, with any white space around the line.  In the scan it gives
    one [to_do] block, followed by the blocks of the lines that are
    left; by itself, when it holds no line feed, it is converted to that
    one block.  The block is checked unless the box holds a space, and
    its rich text is the tokenization of the text. *)
Theorem to_do_line ws1 ws2 b sp x sp2 c t :
  Forall (fun y => isWhiteSpace y = true) ws1 ->
  Forall (fun y => isWhiteSpace y = true) ws2 ->
  oneOf ["-"; "*"]%char b = true ->
  Forall (fun y => isWhiteSpace y = true) sp -> 1 <= length sp ->
  oneOf [" "; "x"; "X"]%char x = true ->
  Forall (fun y => isWhiteSpace y = true) sp2 -> 1 <= length sp2 ->
  isWhiteSpace c = false ->
  Forall (fun y => isLineTerminator y = false) (c :: t) ->
  isWhiteSpace (last (c :: t) c) = false ->
  exists rt,
    parseInlineAnnotations (c :: t) = Ok rt
    /\ (forall rest fuel blocks,
          length rest <= fuel ->
          exists new,
            convertLoop fuel rest [] = Ok new
            /\ convertLoop (S fuel)
                 ((ws1 ++ (b :: sp ++ ch "[" :: x :: ch "]" :: sp2 ++ c :: t)
                       ++ ws2) :: rest) blocks
               = Ok (blocks
                       ++ richTextBlock (str "to_do") rt
                            (Some (MkPayload None (Some (negb (chareq x SP)))
                                             None))
                       :: new))
    /\ (~ In LF (b :: sp ++ ch "[" :: x :: ch "]" :: sp2 ++ c :: t) ->
        markdownToBlocks
          (ws1 ++ (b :: sp ++ ch "[" :: x :: ch "]" :: sp2 ++ c :: t) ++ ws2)
        = Ok [richTextBlock (str "to_do") rt
                (Some (MkPayload None (Some (negb (chareq x SP))) None))]).
Proof.
  intros H1 H2 Hb Hsp Hsp1 Hx Hsp2 Hsp21 Hc Ht Hl.
  destruct (parseInlineAnnotations_ok (c :: t)) as (rt & Hrt & _).
  exists rt. split; [exact Hrt|].
  apply line_result; trivial; [discriminate|].
  intros w1 w2 Hw1 Hw2.
  destruct (@to_do_step w1 w2 b sp x sp2 c t)
    as (rt' & Hrt' & Htrim & Hstep); trivial.
  rewrite Hrt in Hrt'. injection Hrt' as <-. auto.
Qed.

(** X2. A bullet line: a hyphen or an asterisk, white space and a text
    on one line that does not start with an opening bracket and neither
    starts nor ends with white space, with any white space around the
    line.  In the scan it gives one [bulleted_list_item] block, followed
    by the blocks of the lines that are left; by itself, when it holds
    no line feed, it is converted to that one block.  The rich text of
    the block is the tokenization of the text. *)
Theorem bullet_line ws1 ws2 b sp c t :
  Forall (fun y => isWhiteSpace y = true) ws1 ->
  Forall (fun y => isWhiteSpace y = true) ws2 ->
  oneOf ["-"; "*"]%char b = true ->
  Forall (fun y => isWhiteSpace y = true) sp -> 1 <= length sp ->
  isWhiteSpace c = false -> c <> ch "[" ->
  Forall (fun y => isLineTerminator y = false) (c :: t) ->
  isWhiteSpace (last (c :: t) c) = false ->
  exists rt,
    parseInlineAnnotations (c :: t) = Ok rt
    /\ (forall rest fuel blocks,
          length rest <= fuel ->
          exists new,
            convertLoop fuel rest [] = Ok new
            /\ convertLoop (S fuel)
                 ((ws1 ++ (b :: sp ++ c :: t) ++ ws2) :: rest) blocks
               = Ok (blocks
                       ++ richTextBlock (str "bulleted_list_item") rt None
                       :: new))
    /\ (~ In LF (b :: sp ++ c :: t) ->
        markdownToBlocks (ws1 ++ (b :: sp ++ c :: t) ++ ws2)
        = Ok [richTextBlock (str "bulleted_list_item") rt None]).
Proof.
  intros H1 H2 Hb Hsp Hsp1 Hc Hbr Ht Hl.
  destruct (parseInlineAnnotations_ok (c :: t)) as (rt & Hrt & _).
  exists rt. split; [exact Hrt|].
  apply line_result; trivial; [discriminate|].
  intros w1 w2 Hw1 Hw2.
  destruct (@bullet_step w1 w2 b sp c t) as (rt' & Hrt' & Htrim & Hstep);
    trivial.
  rewrite Hrt in Hrt'. injection Hrt' as <-. auto.
Qed.

(** X3. A numbered line: digits, a period, white space and a text on
    one line that neither starts nor ends with white space, with any
    white space around the line.  In the scan it gives one
    [numbered_list_item] block, followed by the blocks of the lines that
    are left; by itself, when it holds no line feed, it is converted to
    that one block.  The rich text of the block is the tokenization of
    the text; the number itself is dropped. *)
Theorem numbered_line ws1 ws2 d ds sp c t :
  Forall (fun y => isWhiteSpace y = true) ws1 ->
  Forall (fun y => isWhiteSpace y = true) ws2 ->
  Forall (fun y => isDigit y = true) (d :: ds) ->
  Forall (fun y => isWhiteSpace y = true) sp -> 1 <= length sp ->
  isWhiteSpace c = false ->
  Forall (fun y => isLineTerminator y = false) (c :: t) ->
  isWhiteSpace (last (c :: t) c) = false ->
  exists rt,
    parseInlineAnnotations (c :: t) = Ok rt
    /\ (forall rest fuel blocks,
          length rest <= fuel ->
          exists new,
            convertLoop fuel rest [] = Ok new
            /\ convertLoop (S fuel)
                 ((ws1 ++ ((d :: ds) ++ ch "." :: sp ++ c :: t) ++ ws2) :: rest)
                 blocks
               = Ok (blocks
                       ++ richTextBlock (str "numbered_list_item") rt None
                       :: new))
    /\ (~ In LF ((d :: ds) ++ ch "." :: sp ++ c :: t) ->
        markdownToBlocks (ws1 ++ ((d :: ds) ++ ch "." :: sp ++ c :: t) ++ ws2)
        = Ok [richTextBlock (str "numbered_list_item") rt None]).
Proof.
  intros H1 H2 Hd Hsp Hsp1 Hc Ht Hl.
  destruct (parseInlineAnnotations_ok (c :: t)) as (rt & Hrt & _).
  exists rt. split; [exact Hrt|].
  apply line_result; trivial; [discriminate|].
  intros w1 w2 Hw1 Hw2.
  destruct (@numbered_step w1 w2 d ds sp c t) as (rt' & Hrt' & Htrim & Hstep);
    trivial.
  rewrite Hrt in Hrt'. injection Hrt' as <-. auto.
Qed.

(** X4. A quote line: [>], white space and a text on one line that
    neither starts nor ends with white space, with any white space
    around the line.  In the scan it gives one [quote] block, followed
    by the blocks of the lines that are left; by itself, when it holds
    no line feed, it is converted to that one block.  The rich text of
    the block is the tokenization of the text. *)
Theorem quote_line ws1 ws2 sp c t :
  Forall (fun y => isWhiteSpace y = true) ws1 ->
  Forall (fun y => isWhiteSpace y = true) ws2 ->
  Forall (fun y => isWhiteSpace y = true) sp -> 1 <= length sp ->
  isWhiteSpace c = false ->
  Forall (fun y => isLineTerminator y = false) (c :: t) ->
  isWhiteSpace (last (c :: t) c) = false ->
  exists rt,
    parseInlineAnnotations (c :: t) = Ok rt
    /\ (forall rest fuel blocks,
          length rest <= fuel ->
          exists new,
            convertLoop fuel rest [] = Ok new
            /\ convertLoop (S fuel)
                 ((ws1 ++ (ch ">" :: sp ++ c :: t) ++ ws2) :: rest) blocks
               = Ok (blocks ++ richTextBlock (str "quote") rt None :: new))
    /\ (~ In LF (ch ">" :: sp ++ c :: t) ->
        markdownToBlocks (ws1 ++ (ch ">" :: sp ++ c :: t) ++ ws2)
        = Ok [richTextBlock (str "quote") rt None]).
Proof.
  intros H1 H2 Hsp Hsp1 Hc Ht Hl.
  destruct (parseInlineAnnotations_ok (c :: t)) as (rt & Hrt & _).
  exists rt. split; [exact Hrt|].
  apply line_result; trivial; [discriminate|].
  intros w1 w2 Hw1 Hw2.
  destruct (@quote_step w1 w2 sp c t) as (rt' & Hrt' & Htrim & Hstep); trivial.
  rewrite Hrt in Hrt'. injection Hrt' as <-. auto.
Qed.

(** X5. A heading line: one to six hashes, white space and a text on
    one line that neither starts nor ends with white space, with any
    white space around the line.  In the scan it gives one heading block
    of level [min(n, 3)], followed by the blocks of the lines that are
    left; by itself, when it holds no line feed, it is converted to that
    one block.  The rich text of the block is the tokenization of the
    text: the hashes and the white space after them are dropped, nothing
    else. *)
Theorem heading_line ws1 ws2 n sp c t :
  Forall (fun y => isWhiteSpace y = true) ws1 ->
  Forall (fun y => isWhiteSpace y = true) ws2 ->
  1 <= n -> n <= 6 ->
  Forall (fun y => isWhiteSpace y = true) sp -> 1 <= length sp ->
  isWhiteSpace c = false ->
  Forall (fun y => isLineTerminator y = false) (c :: t) ->
  isWhiteSpace (last (c :: t) c) = false ->
  exists rt,
    parseInlineAnnotations (c :: t) = Ok rt
    /\ (forall rest fuel blocks,
          length rest <= fuel ->
          exists new,
            convertLoop fuel rest [] = Ok new
            /\ convertLoop (S fuel)
                 ((ws1 ++ (repeat hash n ++ sp ++ c :: t) ++ ws2) :: rest) blocks
               = Ok (blocks
                       ++ richTextBlock
                            (str "heading_" ++ numberToString (Nat.min n 3))
                            rt None
                       :: new))
    /\ (~ In LF (repeat hash n ++ sp ++ c :: t) ->
        markdownToBlocks (ws1 ++ (repeat hash n ++ sp ++ c :: t) ++ ws2)
        = Ok [richTextBlock (str "heading_" ++ numberToString (Nat.min n 3))
                            rt None]).
Proof.
  intros H1 H2 Hn1 Hn6 Hsp Hsp1 Hc Ht Hl.
  destruct (parseInlineAnnotations_ok (c :: t)) as (rt & Hrt & _).
  exists rt. split; [exact Hrt|].
  apply line_result; trivial.
  { destruct n; [lia|discriminate]. }
  intros w1 w2 Hw1 Hw2.
  destruct (@heading_step w1 w2 n sp c t) as (rt' & Hrt' & Htrim & Hstep);
    trivial.
  rewrite Hrt in Hrt'. injection Hrt' as <-. auto.
Qed.

Lemma split_join sep l lines :
  sep = [LF] \/ sep = [CR; LF] ->
  Forall (Forall (fun c => c <> LF /\ c <> CR)) (l :: lines) ->
  split linePattern (join sep (l :: lines)) = Ok (l :: lines).
Proof.
  intros Hsep Hall. unfold split.
  destruct (join sep (l :: lines)) as [|c tl] eqn:E.
  - destruct lines as [|l2 lines]; cbn [join] in E.
    + subst l. reflexivity.
    + apply app_eq_nil in E. destruct E as [_ E].
      apply app_eq_nil in E. destruct E as [E _].
      destruct Hsep as [-> | ->]; discriminate.
  - rewrite <- E.
    apply (@splitLoop_join sep Hsep lines l
             (2 * length (join sep (l :: lines)) + 1) 0 [] Hall).
    unfold jsstring, char in *. lia.
Qed.

Lemma join_cons sep x tl :
  tl <> [] -> join sep (x :: tl) = x ++ sep ++ join sep tl.
Proof. destruct tl; [congruence|reflexivity]. Qed.

(** A joined text ends as its last line ends. *)
Lemma join_snoc sep ls l x :
  exists pre, join sep (ls ++ [l ++ [x]]) = pre ++ [x].
Proof.
  induction ls as [|a ls (pre & IH)].
  - exists l. reflexivity.
  - exists (a ++ sep ++ pre). cbn [app].
    rewrite join_cons by (destruct ls; discriminate).
    now rewrite IH, !app_assoc.
Qed.

Lemma isWord_no_terminator c : isWord c = true -> c <> LF /\ c <> CR.
Proof. split; intros ->; vm_compute in H; discriminate. Qed.

(** X12. A fence that is closed: an opener (three backticks and a tag
    of word characters), lines none of which is three backticks, and the
    closing line.  In the scan these lines give one code block, followed
    by the blocks of the lines after the closing line; by themselves,
    joined by line feeds, they are converted to that one block.  The
    lines in between are kept as they are, joined by line feeds, in
    segments without annotations: they are not trimmed, not classified
    and not tokenized.  The language is the tag, or ["plain text"] for
    the empty tag. *)
Theorem closed_fence tag code :
  Forall (fun c => isWord c = true) tag ->
  Forall (fun l => l <> str "```") code ->
  exists rt,
    concat (map content rt) = join [LF] code
    /\ Forall (fun seg => annotations seg = None) rt
    /\ (forall rest fuel blocks,
          length rest <= fuel ->
          exists new,
            convertLoop fuel rest [] = Ok new
            /\ convertLoop (S fuel)
                 ((str "```" ++ tag) :: code ++ str "```" :: rest) blocks
               = Ok (blocks
                       ++ makeBlock (str "code")
                            (MkPayload (Some rt) None
                               (Some (if isEmpty tag
                                      then str "plain text" else tag)))
                       :: new))
    /\ (Forall (Forall (fun c => c <> LF /\ c <> CR)) code ->
        markdownToBlocks (join [LF] ((str "```" ++ tag) :: code ++ [str "```"]))
        = Ok [makeBlock (str "code")
                (MkPayload (Some rt) None
                   (Some (if isEmpty tag then str "plain text" else tag)))]).
Proof.
  intros Htag Hcode.
  destruct (closed_fence_step Htag Hcode) as (rt & Hcontent & Hplain & Hstep).
  exists rt. split; [exact Hcontent|]. split; [exact Hplain|]. split.
  - intros rest fuel blocks Hf.
    destruct (@convertLoop_after fuel rest Hf) as (new & Hnew & Hafter).
    exists new. split; [exact Hnew|]. now rewrite Hstep.
  - intros Hlines.
    set (lines := (str "```" ++ tag) :: code ++ [str "```"]).
    assert (Hsplit : split linePattern (join [LF] lines) = Ok lines).
    { apply split_join; [now left|]. constructor.
      - apply Forall_app. split.
        + repeat constructor; discriminate.
        + eapply Forall_impl; [|exact Htag]. apply isWord_no_terminator.
      - apply Forall_app. split; [exact Hlines|].
        repeat constructor; discriminate. }
    assert (Htrim : trim (join [LF] lines) = join [LF] lines).
    { destruct (join_snoc [LF] ((str "```" ++ tag) :: code) (str "``") (ch "`"))
        as (pre & Hpre).
      change (((str "```" ++ tag) :: code) ++ [str "``" ++ [ch "`"]])
        with lines in Hpre.
      assert (Hhead : exists t, join [LF] lines = ch "`" :: t).
      { unfold lines. rewrite join_cons by (destruct code; discriminate).
        eexists. reflexivity. }
      destruct Hhead as (t & Ht). rewrite Ht.
      apply trim_fixed; [reflexivity|].
      rewrite <- Ht, Hpre, last_last. reflexivity. }
    unfold markdownToBlocks. cbv zeta. rewrite Htrim, Hsplit.
    assert (isEmpty (join [LF] lines) = false) as ->.
    { unfold lines. rewrite join_cons by (destruct code; discriminate).
      reflexivity. }
    cbn [bind]. unfold lines. cbn [length].
    change (code ++ [str "```"]) with (code ++ str "```" :: []) at 2.
    rewrite Hstep. now destruct (length (code ++ [str "```"])).
Qed.

(* ================================================================== *)
(** ** Totality, and the paragraph as the last resort *)





(* ================================================================== *)
(** * The schema of a collection *)

Lemma fieldsLoop_map entries :
  forall fields,
    Schema.fieldsLoop entries fields
    = fields ++ map (fun e => Schema.fieldOf (fst e) (snd e)) entries.
Proof.
  induction entries as [|[n p] tl IH]; intros fields; simpl.
  - now rewrite app_nil_r.
  - now rewrite IH, <- app_assoc.
Qed.

(** The three types that carry options. *)
Lemma fieldOf_cases n p :
  Schema.name (Schema.fieldOf n p) = n
  /\ Schema.type (Schema.fieldOf n p)
     = Schema.orDefault (Schema.property_type p) (str "unknown")
  /\ ((Schema.type (Schema.fieldOf n p) = str "select"
       /\ Schema.options (Schema.fieldOf n p)
          = Some (Schema.optionNames (Schema.select p)))
      \/ (Schema.type (Schema.fieldOf n p) = str "multi_select"
          /\ Schema.options (Schema.fieldOf n p)
             = Some (Schema.optionNames (Schema.multi_select p)))
      \/ (Schema.type (Schema.fieldOf n p) = str "status"
          /\ Schema.options (Schema.fieldOf n p)
             = Some (Schema.optionNames (Schema.status p)))
      \/ (~ In (Schema.type (Schema.fieldOf n p))
               [str "select"; str "multi_select"; str "status"]
          /\ Schema.options (Schema.fieldOf n p) = None)).
Proof.
  unfold Schema.fieldOf. cbv zeta.
  set (T := Schema.orDefault (Schema.property_type p) (str "unknown")).
  cbn [Schema.name Schema.type].
  destruct (streq T (str "select")) eqn:E1.
  { apply streq_eq in E1. rewrite E1. cbn.
    split; [reflexivity|]. split; [reflexivity|]. left. now split. }
  cbn [Schema.name Schema.type].
  destruct (streq T (str "multi_select")) eqn:E2.
  { apply streq_eq in E2. rewrite E2. cbn.
    split; [reflexivity|]. split; [reflexivity|]. right. left. now split. }
  cbn [Schema.name Schema.type].
  destruct (streq T (str "status")) eqn:E3.
  { apply streq_eq in E3. rewrite E3. cbn.
    split; [reflexivity|]. split; [reflexivity|]. right. right. left.
    now split. }
  cbn [Schema.name Schema.type Schema.options].
  apply streq_neq in E1, E2, E3.
  repeat split. right. right. right. split; trivial.
  intros [H|[H|[H|[]]]]; [apply E1|apply E2|apply E3]; now symmetry.
Qed.

Lemma optionNames_nonempty h :
  Forall (fun o => o <> []) (Schema.optionNames h).
Proof.
  unfold Schema.optionNames. apply Forall_forall. intros o Hin.
  apply filter_In in Hin. destruct Hin as [_ Hne]. now destruct o.
Qed.

Lemma optionNames_given h o :
  In o (Schema.optionNames h) ->
  exists holder entries entry,
    h = Some holder /\ Schema.holder_options holder = Some entries
    /\ In entry entries /\ Schema.option_name entry = Some o.
Proof.
  unfold Schema.optionNames. intros Hin.
  apply filter_In in Hin. destruct Hin as [Hin Hne].
  apply in_map_iff in Hin. destruct Hin as (entry & Ho & Hin).
  destruct h as [holder|]; [|destruct Hin].
  destruct (Schema.holder_options holder) as [entries|] eqn:E; [|destruct Hin].
  exists holder, entries, entry. repeat split; trivial.
  destruct (Schema.option_name entry); simpl in Ho; subst; trivial.
  discriminate.
Qed.

(** X16. The fields of the schema are the properties of the database,
    one for one and in the order of [Object.entries]: each field has the
    name of its property and the [type] of its property, or ["unknown"]
    when the property has none. *)
Theorem extractCollectionSchema_fields (db : Schema.NotionDatabase) :
  let entries := Schema.orDefault (Schema.properties db) [] in
  let fields := Schema.fields (Schema.extractCollectionSchema db) in
  length fields = length entries
  /\ map Schema.name fields = map fst entries
  /\ map Schema.type fields
     = map (fun e => Schema.orDefault (Schema.property_type (snd e))
                                      (str "unknown")) entries.
Proof.
  cbv zeta. unfold Schema.extractCollectionSchema.
  cbn [Schema.fields]. rewrite fieldsLoop_map. cbn [app].
  rewrite length_map, !map_map. repeat split.
  - apply map_ext. intros [n p]. apply fieldOf_cases.
  - apply map_ext. intros [n p]. apply fieldOf_cases.
Qed.

(** X17. A field of the schema has [options] exactly when its type is
    [select], [multi_select] or [status].  The options are never the
    empty string, and each of them is the [name] of an option listed
    under the key of that type in the property of the field. *)
Theorem extractCollectionSchema_options (db : Schema.NotionDatabase) :
  Forall2
    (fun e f =>
       (Schema.options f <> None
        <-> In (Schema.type f) [str "select"; str "multi_select"; str "status"])
       /\ forall os,
           Schema.options f = Some os ->
           Forall (fun o => o <> []) os
           /\ forall o,
               In o os ->
               exists holder entries entry,
                 In (Schema.type f, Some holder)
                    [(str "select", Schema.select (snd e));
                     (str "multi_select", Schema.multi_select (snd e));
                     (str "status", Schema.status (snd e))]
                 /\ Schema.holder_options holder = Some entries
                 /\ In entry entries /\ Schema.option_name entry = Some o)
    (Schema.orDefault (Schema.properties db) [])
    (Schema.fields (Schema.extractCollectionSchema db)).
Proof.
  unfold Schema.extractCollectionSchema. cbn [Schema.fields].
  rewrite fieldsLoop_map. cbn [app].
  induction (Schema.orDefault (Schema.properties db) []) as [|[n p] tl IH];
    cbn [map]; constructor; trivial.
  cbn [fst snd].
  destruct (fieldOf_cases n p) as (_ & _ & [[Ht Ho]|[[Ht Ho]|[[Ht Ho]|[Ht Ho]]]]);
    rewrite Ho; try rewrite Ht.
  - split; [split; [intros _; simpl; auto|discriminate]|].
    intros os [= <-]. split; [apply optionNames_nonempty|].
    intros o Hin. apply optionNames_given in Hin.
    destruct Hin as (holder & entries & entry & Hh & He & Hin & Hn).
    exists holder, entries, entry. rewrite <- Hh. simpl. auto.
  - split; [split; [intros _; simpl; auto|discriminate]|].
    intros os [= <-]. split; [apply optionNames_nonempty|].
    intros o Hin. apply optionNames_given in Hin.
    destruct Hin as (holder & entries & entry & Hh & He & Hin & Hn).
    exists holder, entries, entry. rewrite <- Hh. simpl. auto.
  - split; [split; [intros _; simpl; auto|discriminate]|].
    intros os [= <-]. split; [apply optionNames_nonempty|].
    intros o Hin. apply optionNames_given in Hin.
    destruct Hin as (holder & entries & entry & Hh & He & Hin & Hn).
    exists holder, entries, entry. rewrite <- Hh. simpl. auto 6.
  - split; [split; [congruence|contradiction]|]. discriminate.
Qed.

(** X18. The schema has the [id] of the database, or the empty string
    when there is none.  Its [name] is the [plain_text] of the title
    parts put together, a missing [plain_text] counting for nothing; it
    is absent when the database has no title or when that text is empty,
    so it is never the empty string. *)
Theorem extractCollectionSchema_name (db : Schema.NotionDatabase) :
  let s := Schema.extractCollectionSchema db in
  let text parts :=
    concat (map (fun t => Schema.orDefault (Schema.plain_text t) []) parts) in
  Schema.id s = Schema.orDefault (Schema.database_id db) []
  /\ Schema.schema_name s <> Some []
  /\ (forall n, Schema.schema_name s = Some n <->
                exists parts, Schema.title db = Some parts /\ text parts = n
                              /\ n <> [])
  /\ (Schema.schema_name s = None <->
      Schema.title db = None
      \/ exists parts, Schema.title db = Some parts /\ text parts = []).
Proof.
  cbv zeta. unfold Schema.extractCollectionSchema.
  cbn [Schema.id Schema.schema_name].
  assert (Hjoin : forall xs : list jsstring, join [] xs = concat xs).
  { induction xs as [|x [|y xs] IH]; simpl in *; trivial.
    - now rewrite app_nil_r.
    - now rewrite IH. }
  split; [reflexivity|].
  destruct (Schema.title db) as [parts|]; [|repeat split; try discriminate].
  - rewrite Hjoin.
    destruct (concat (map (fun t => Schema.orDefault (Schema.plain_text t) [])
                          parts)) as [|c n] eqn:E.
    + split; [discriminate|]. split; [|split; [intros _; right; eauto|trivial]].
      intros m. split; [discriminate|].
      intros (parts' & Hp & H & Hne). injection Hp as <-.
      rewrite E in H. now subst m.
    + split; [discriminate|]. split.
      * intros m. split.
        -- intros Hm. injection Hm as <-. exists parts.
           repeat split; trivial. discriminate.
        -- intros (parts' & Hp & H & _). injection Hp as <-.
           rewrite E in H. now subst m.
      * split; [discriminate|].
        intros [H|(parts' & Hp & H)]; [discriminate|].
        injection Hp as <-. rewrite E in H. discriminate.
  - intros (parts & H & _). discriminate.
  - auto.
Qed.

(* ================================================================== *)
(** * The body of a page in [update_item] and [create_item] *)

Lemma pushIds_spec results :
  forall blockIds,
    exists ids,
      Items.pushIds results blockIds = blockIds ++ ids
      /\ forall id,
           In id ids <-> id <> [] /\ In (Items.MkBlockRef (Some id)) results.
Proof.
  induction results as [|[bid] tl IH]; intros blockIds.
  - exists []. simpl. rewrite app_nil_r. split; trivial.
    intros id. tauto.
  - destruct bid as [[|c s]|]; simpl.
    + destruct (IH blockIds) as (ids & E & H). exists ids. split; trivial.
      intros id. rewrite H. split.
      * intros [? ?]. auto.
      * intros [Hne [[= <-]|Hin]]; [congruence|auto].
    + destruct (IH (blockIds ++ [c :: s])) as (ids & E & H).
      exists ((c :: s) :: ids). split.
      * etransitivity; [exact E|]. now rewrite <- app_assoc.
      * intros id. simpl. rewrite H. split.
        -- intros [<-|[? ?]]; [split; [discriminate|now left]|auto].
        -- intros [Hne [[= <-]|Hin]]; auto.
    + destruct (IH blockIds) as (ids & E & H). exists ids. split; trivial.
      intros id. rewrite H. split.
      * intros [? ?]. auto.
      * intros [Hne [[=]|Hin]]. auto.
Qed.

Lemma readLoop_unfold fuel i itemId cursor blockIds :
  Items.readLoop fuel i itemId cursor blockIds =
  if i <? 20 then
    match fuel with
    | 0 => Items.stop
    | S fuel' =>
        Items.bindM (Items.call (Items.getBlockChildren itemId cursor))
          (fun data =>
             let blockIds :=
               Items.pushIds (Schema.orDefault (Items.results data) []) blockIds in
             if negb (Schema.orDefault (Items.has_more data) false)
             then Items.ret blockIds
             else
               let cursor := Items.next_cursor data in
               if negb (Items.truthy cursor) then Items.ret blockIds
               else Items.readLoop fuel' (S i) itemId cursor blockIds)
    end
  else Items.ret blockIds.
Proof. destruct fuel; reflexivity. Qed.

Lemma Paged_reads remote itemId log cursor reads :
  Paged remote itemId log cursor reads ->
  Forall (fun c => exists cur, c = Items.getBlockChildren itemId cur) reads.
Proof. induction 1; constructor; eauto. Qed.

(** The one answer of a log of one read. *)
Lemma ListedFrom_one remote itemId log cursor page id :
  remote log (Items.getBlockChildren itemId cursor) = Some page ->
  ListedFrom remote itemId log [Items.getBlockChildren itemId cursor] id
  <-> In (Items.MkBlockRef (Some id)) (Schema.orDefault (Items.results page) []).
Proof.
  intros Hr. split.
  - intros (before & cur & after & page' & E & Hr' & Hin).
    destruct before as [|b before].
    + injection E as <-. rewrite app_nil_r, Hr in Hr'. now injection Hr' as <-.
    + injection E as _ E. now destruct before.
  - intros Hin. exists [], cursor, [], page. rewrite app_nil_r. auto.
Qed.

Lemma ListedFrom_cons remote itemId log cursor page reads id :
  remote log (Items.getBlockChildren itemId cursor) = Some page ->
  ListedFrom remote itemId log (Items.getBlockChildren itemId cursor :: reads) id
  <-> In (Items.MkBlockRef (Some id)) (Schema.orDefault (Items.results page) [])
      \/ ListedFrom remote itemId
                    (log ++ [Items.getBlockChildren itemId cursor]) reads id.
Proof.
  intros Hr. split.
  - intros (before & cur & after & page' & E & Hr' & Hin).
    destruct before as [|b before].
    + injection E as <- _. rewrite app_nil_r, Hr in Hr'.
      injection Hr' as <-. now left.
    + injection E as <- E. right.
      exists before, cur, after, page'. rewrite <- app_assoc. auto.
  - intros [Hin|(before & cur & after & page' & E & Hr' & Hin)].
    + exists [], cursor, reads, page. rewrite app_nil_r. auto.
    + exists (Items.getBlockChildren itemId cursor :: before), cur, after, page'.
      rewrite <- app_assoc in Hr'. subst reads. auto.
Qed.

(** The reads of [update_item], from the iteration [i] on. *)
Lemma readLoop_spec (remote : Items.Remote) itemId fuel :
  forall i cursor blockIds log,
    20 - i <= fuel -> i < 20 ->
    exists reads r,
      Items.readLoop fuel i itemId cursor blockIds remote log = (log ++ reads, r)
      /\ i + length reads <= 20
      /\ Paged remote itemId log cursor reads
      /\ (r = Items.ClientError
          \/ exists ids,
               r = Items.Normal (blockIds ++ ids)
               /\ (forall id,
                      In id ids
                      <-> id <> [] /\ ListedFrom remote itemId log reads id)
               /\ (i + length reads = 20
                   \/ exists before cur page,
                        reads = before ++ [Items.getBlockChildren itemId cur]
                        /\ remote (log ++ before)
                                  (Items.getBlockChildren itemId cur)
                           = Some page
                        /\ (Items.has_more page = Some true ->
                            Items.truthy (Items.next_cursor page) = false))).
Proof.
  induction fuel as [|fuel IH]; intros i cursor blockIds log Hf Hi; [lia|].
  rewrite readLoop_unfold.
  destruct (Nat.ltb_spec i 20) as [_|]; [|lia].
  unfold Items.bindM, Items.call.
  set (c := Items.getBlockChildren itemId cursor).
  destruct (remote log c) as [data|] eqn:E.
  2:{ exists [c], Items.ClientError. split; [reflexivity|].
      split; [cbn [length]; lia|]. split; [constructor|now left]. }
  destruct (pushIds_spec (Schema.orDefault (Items.results data) []) blockIds)
    as (ids0 & Hpush & Hids0).
  cbv zeta. rewrite Hpush.
  (* the loop ends after this read *)
  assert (Hone : (i + 1 = 20
                  \/ (Items.has_more data = Some true ->
                      Items.truthy (Items.next_cursor data) = false)) ->
                 exists reads r,
                   (log ++ [c], Items.Normal (blockIds ++ ids0))
                   = (log ++ reads, r)
                   /\ i + length reads <= 20
                   /\ Paged remote itemId log cursor reads
                   /\ (r = Items.ClientError
                       \/ exists ids,
                            r = Items.Normal (blockIds ++ ids)
                            /\ (forall id,
                                   In id ids
                                   <-> id <> []
                                       /\ ListedFrom remote itemId log reads id)
                            /\ (i + length reads = 20
                                \/ exists before cur page,
                                     reads
                                     = before ++ [Items.getBlockChildren itemId cur]
                                     /\ remote (log ++ before)
                                               (Items.getBlockChildren itemId cur)
                                        = Some page
                                     /\ (Items.has_more page = Some true ->
                                         Items.truthy (Items.next_cursor page)
                                         = false)))).
  { intros Hwhy. exists [c], (Items.Normal (blockIds ++ ids0)).
    split; [reflexivity|]. split; [cbn [length]; lia|].
    split; [constructor|]. right. exists ids0. split; [reflexivity|]. split.
    - intros id. rewrite Hids0. unfold c. now rewrite (@ListedFrom_one _ _ _ _ _ id E).
    - destruct Hwhy as [H20|Hwhy]; [left; cbn [length]; lia|right].
      exists [], cursor, data. rewrite app_nil_r. auto. }
  destruct (Items.has_more data) as [[|]|] eqn:Hmore; cbn [Schema.orDefault negb];
    try (apply Hone; right; discriminate).
  destruct (Items.truthy (Items.next_cursor data)) eqn:Hcur; cbn [negb];
    [|apply Hone; right; trivial].
  destruct (Nat.eq_dec (S i) 20) as [H20|H20].
  { rewrite readLoop_unfold, H20. change (20 <? 20) with false. cbv iota.
    apply Hone. left. lia. }
  destruct (IH (S i) (Items.next_cursor data) (blockIds ++ ids0) (log ++ [c]))
    as (reads & r & E' & Hl & Hp & Hr); [lia|lia|].
  exists (c :: reads), r. rewrite E', <- app_assoc.
  split; [reflexivity|]. split; [cbn [length]; lia|].
  split; [now apply Paged_next with (page := data)|].
  destruct Hr as [->|(ids & -> & Hids & Hend)]; [now left|right].
  exists (ids0 ++ ids). rewrite app_assoc. split; [reflexivity|]. split.
  - intros id. unfold c. rewrite (@ListedFrom_cons _ _ _ _ _ reads id E), in_app_iff.
    rewrite Hids0, Hids. fold c. tauto.
  - destruct Hend as [Hend|(before & cur & page & -> & Hr & Hwhy)].
    + left. cbn [length]. lia.
    + right. exists (c :: before), cur, page.
      rewrite <- app_assoc in Hr. auto.
Qed.

Lemma deleteLoop_spec (remote : Items.Remote) blockIds :
  forall log,
    exists n r,
      Items.deleteLoop blockIds remote log
      = (log ++ map Items.deleteBlock (firstn n blockIds), r)
      /\ (r = Items.ClientError
          \/ r = Items.Normal tt /\ firstn n blockIds = blockIds).
Proof.
  induction blockIds as [|id tl IH]; intros log.
  - exists 0, (Items.Normal tt). simpl. unfold Items.ret.
    rewrite app_nil_r. auto.
  - cbn [Items.deleteLoop]. unfold Items.bindM, Items.call.
    destruct (remote log (Items.deleteBlock id)) as [a|].
    + destruct (IH (log ++ [Items.deleteBlock id])) as (n & r & -> & Hr).
      exists (S n), r. cbn [firstn map]. rewrite <- app_assoc.
      split; [reflexivity|].
      destruct Hr as [->|[-> Hn]]; [now left|right].
      now rewrite Hn.
    + exists 1, Items.ClientError. simpl. auto.
Qed.

Lemma appendLoop_spec (remote : Items.Remote) itemId batches :
  forall log,
    exists n r,
      Items.appendLoop itemId batches remote log
      = (log ++ map (Items.appendBlockChildren itemId) (firstn n batches), r)
      /\ (r = Items.ClientError
          \/ r = Items.Normal tt /\ firstn n batches = batches).
Proof.
  induction batches as [|batch tl IH]; intros log.
  - exists 0, (Items.Normal tt). simpl. unfold Items.ret.
    rewrite app_nil_r. auto.
  - cbn [Items.appendLoop]. unfold Items.bindM, Items.call.
    destruct (remote log (Items.appendBlockChildren itemId batch)) as [a|].
    + destruct (IH (log ++ [Items.appendBlockChildren itemId batch]))
        as (n & r & -> & Hr).
      exists (S n), r. cbn [firstn map]. rewrite <- app_assoc.
      split; [reflexivity|].
      destruct Hr as [->|[-> Hn]]; [now left|right].
      now rewrite Hn.
    + exists 1, Items.ClientError. simpl. auto.
Qed.

(** The batches of a content: the blocks of its conversion, cut into
    consecutive batches of 100. *)
Lemma markdownToBlocksBatched_chunked text :
  exists blocks batches,
    markdownToBlocks text = Ok blocks
    /\ markdownToBlocksBatched text = Ok batches
    /\ Chunked BLOCKS_PER_BATCH blocks batches.
Proof.
  destruct (markdownToBlocks_ok text) as (blocks & Hb & _).
  exists blocks. unfold markdownToBlocksBatched. rewrite Hb. cbn [bind].
  destruct blocks as [|b0 blocks'].
  - exists []. repeat split. constructor.
  - set (blocks := b0 :: blocks').
    change (length blocks =? 0) with false. cbv iota.
    destruct (@batchLoop_chunked blocks (length blocks) 0 []) as (cs & E & C);
      [lia|].
    simpl in E, C. exists cs. auto.
Qed.

Lemma appended_app a b : appended (a ++ b) = appended a ++ appended b.
Proof. unfold appended. apply flat_map_app. Qed.

Lemma appended_batches itemId batches :
  appended (map (Items.appendBlockChildren itemId) batches) = concat batches.
Proof.
  unfold appended. induction batches as [|b tl IH]; simpl; trivial.
  now rewrite IH.
Qed.

Lemma appended_none log :
  Forall (fun c => forall itemId batch,
                     c <> Items.appendBlockChildren itemId batch) log ->
  appended log = [].
Proof.
  unfold appended. induction 1 as [|c log Hc _ IH]; simpl; trivial.
  rewrite IH. destruct c; trivial. now destruct (Hc blockId children).
Qed.

Lemma firstn_member (A : Type) n (l : list A) x :
  In x (firstn n l) -> In x l.
Proof.
  intros H. rewrite <- (firstn_skipn n l). apply in_or_app. now left.
Qed.

(** A call that is in the first part of a log, because it is not in the
    second. *)
Lemma app_split_left (A : Type) (x : A) l2 :
  ~ In x l2 ->
  forall before l1 after,
    l1 ++ l2 = before ++ x :: after -> exists after', l1 = before ++ x :: after'.
Proof.
  intros Hx. induction before as [|b before IH]; intros l1 after E.
  - destruct l1 as [|y l1]; simpl in E.
    + subst l2. destruct Hx. now left.
    + injection E as -> _. now exists l1.
  - destruct l1 as [|y l1]; simpl in E.
    + subst l2. destruct Hx. right. apply in_or_app. right. now left.
    + injection E as -> E. apply IH in E. destruct E as (after' & ->).
      now exists after'.
Qed.

Lemma Listed_reads remote itemId reads more id :
  Forall (fun c => forall cur, c <> Items.getBlockChildren itemId cur) more ->
  Listed remote itemId (reads ++ more) id -> Listed remote itemId reads id.
Proof.
  intros Hmore (before & cur & after & page & E & Hr & Hin).
  apply app_split_left in E.
  - destruct E as (after' & ->). exists before, cur, after', page. auto.
  - intros Hx. rewrite Forall_forall in Hmore. now destruct (Hmore _ Hx cur).
Qed.

(** What [update_item] does past its guard, whatever the service
    answers: reads, then deletions of identifiers that were read, then
    the batches of the two contents, up to the first call that throws. *)
Lemma update_item_writes_spec (remote : Items.Remote) itemId
      (replace_content append_content : option jsstring) :
  exists reads ids blocks1 batches1 blocks2 batches2 n0 n1 n2 r,
    Items.bindM
      match replace_content with
      | Some replace_content =>
          Items.bindM (Items.readLoop 20 0 itemId None [])
            (fun blockIds =>
               Items.bindM (Items.deleteLoop blockIds)
                 (fun _ =>
                    Items.bindM
                      (Items.lift (markdownToBlocksBatched replace_content))
                      (fun batches => Items.appendLoop itemId batches)))
      | None => Items.ret tt
      end
      (fun _ =>
         if Items.truthy append_content
         then Items.bindM
                (Items.lift (markdownToBlocksBatched
                               (Schema.orDefault append_content [])))
                (fun batches => Items.appendLoop itemId batches)
         else Items.ret tt) remote []
    = (reads ++ map Items.deleteBlock (firstn n0 ids)
             ++ map (Items.appendBlockChildren itemId) (firstn n1 batches1)
             ++ map (Items.appendBlockChildren itemId) (firstn n2 batches2), r)
    /\ length reads <= 20
    /\ Forall (fun c => exists cur, c = Items.getBlockChildren itemId cur) reads
    /\ Forall (fun id => id <> [] /\ Listed remote itemId reads id) ids
    /\ (replace_content = None -> reads = [] /\ ids = [])
    /\ match replace_content with
       | Some text => markdownToBlocks text
       | None => Ok []
       end = Ok blocks1
    /\ Chunked BLOCKS_PER_BATCH blocks1 batches1
    /\ match append_content with
       | Some text => markdownToBlocks text
       | None => Ok []
       end = Ok blocks2
    /\ Chunked BLOCKS_PER_BATCH blocks2 batches2
    /\ (r = Items.ClientError
        \/ r = Items.Normal tt
           /\ firstn n0 ids = ids
           /\ (forall id, id <> [] -> Listed remote itemId reads id -> In id ids)
           /\ firstn n1 batches1 = batches1 /\ firstn n2 batches2 = batches2).
Proof.
  (* the second content *)
  assert (Hsecond : exists blocks2 batches2,
             match append_content with
             | Some text => markdownToBlocks text
             | None => Ok []
             end = Ok blocks2
             /\ Chunked BLOCKS_PER_BATCH blocks2 batches2
             /\ forall log,
                 exists n2 r,
                   (if Items.truthy append_content
                    then Items.bindM
                           (Items.lift (markdownToBlocksBatched
                                          (Schema.orDefault append_content [])))
                           (fun batches => Items.appendLoop itemId batches)
                    else Items.ret tt) remote log
                   = (log ++ map (Items.appendBlockChildren itemId)
                                 (firstn n2 batches2), r)
                   /\ (r = Items.ClientError
                       \/ r = Items.Normal tt /\ firstn n2 batches2 = batches2)).
  { destruct append_content as [[|c s]|].
    - exists [], []. split; [reflexivity|]. split; [constructor|].
      intros log. exists 0, (Items.Normal tt). simpl. unfold Items.ret.
      rewrite app_nil_r. auto.
    - destruct (markdownToBlocksBatched_chunked (c :: s))
        as (blocks2 & batches2 & Hb & Hbs & C).
      exists blocks2, batches2. split; [exact Hb|]. split; [exact C|].
      intros log.
      destruct (appendLoop_spec remote itemId batches2 log) as (n & r & E & Hr).
      exists n, r. split; trivial.
      cbn [Items.truthy Schema.orDefault]. unfold Items.bindM.
      rewrite Hbs. exact E.
    - exists [], []. split; [reflexivity|]. split; [constructor|].
      intros log. exists 0, (Items.Normal tt). simpl. unfold Items.ret.
      rewrite app_nil_r. auto. }
  destruct Hsecond as (blocks2 & batches2 & Hb2 & C2 & Hsecond).
  destruct replace_content as [text|].
  - destruct (markdownToBlocksBatched_chunked text)
      as (blocks1 & batches1 & Hb1 & Hbs1 & C1).
    destruct (@readLoop_spec remote itemId 20 0 None [] [])
      as (reads & r0 & E0 & Hl & Hp & Hr0); [lia|lia|].
    cbn [app Nat.add] in E0, Hr0, Hl. apply Paged_reads in Hp.
    unfold Items.bindM at 1. unfold Items.bindM at 1. rewrite E0.
    destruct Hr0 as [->|(ids & -> & Hids & _)].
    { exists reads, [], blocks1, batches1, blocks2, batches2, 0, 0, 0,
        Items.ClientError.
      simpl. rewrite app_nil_r.
      split; [reflexivity|]. split; [exact Hl|]. split; [exact Hp|].
      split; [constructor|]. split; [discriminate|]. auto 10. }
    assert (Hsound : Forall (fun id => id <> [] /\ Listed remote itemId reads id)
                            ids).
    { apply Forall_forall. intros id Hin. now apply Hids. }
    assert (Hcomplete : forall id,
               id <> [] -> Listed remote itemId reads id -> In id ids).
    { intros id Hne Hin. now apply Hids. }
    exists reads, ids, blocks1, batches1, blocks2, batches2.
    unfold Items.bindM at 1.
    destruct (deleteLoop_spec remote ids reads) as (n0 & r1 & E1 & Hr1).
    rewrite E1.
    destruct Hr1 as [->|[-> Hn0]].
    { exists n0, 0, 0, Items.ClientError.
      simpl. rewrite app_nil_r.
      split; [reflexivity|]. split; [exact Hl|]. split; [exact Hp|].
      split; [exact Hsound|]. split; [discriminate|]. auto 10. }
    unfold Items.bindM at 1. rewrite Hbs1. cbn [Items.lift].
    unfold Items.ret at 1.
    destruct (appendLoop_spec remote itemId batches1
                (reads ++ map Items.deleteBlock (firstn n0 ids)))
      as (n1 & r2 & E2 & Hr2).
    rewrite E2.
    destruct Hr2 as [->|[-> Hn1]].
    { exists n0, n1, 0, Items.ClientError.
      simpl. rewrite app_nil_r, <- app_assoc.
      split; [reflexivity|]. split; [exact Hl|]. split; [exact Hp|].
      split; [exact Hsound|]. split; [discriminate|]. auto 10. }
    destruct (Hsecond ((reads ++ map Items.deleteBlock (firstn n0 ids))
                         ++ map (Items.appendBlockChildren itemId)
                                (firstn n1 batches1)))
      as (n2 & r & E & Hr).
    rewrite E. exists n0, n1, n2, r. rewrite <- !app_assoc.
    split; [reflexivity|]. split; [exact Hl|]. split; [exact Hp|].
    split; [exact Hsound|]. split; [discriminate|].
    split; [exact Hb1|]. split; [exact C1|].
    split; [exact Hb2|]. split; [exact C2|].
    destruct Hr as [->|[-> Hn2]]; auto 6.
  - destruct (Hsecond []) as (n2 & r & E & Hr).
    exists [], [], [], [], blocks2, batches2, 0, 0, n2, r.
    unfold Items.bindM at 1. unfold Items.ret at 1. rewrite E.
    simpl. split; [reflexivity|]. split; [lia|].
    split; [constructor|]. split; [constructor|]. split; [auto|].
    split; [reflexivity|]. split; [constructor|].
    split; [exact Hb2|]. split; [exact C2|].
    destruct Hr as [->|[-> Hn2]]; [now left|right].
    repeat split; trivial.
    intros id _ (before & cur & after & page & E' & _). now destruct before.
Qed.

Lemma bindM_then (A B C : Type) (m : Items.M A) (k : Items.M B) (c : C)
      remote log :
  Items.bindM m (fun _ => Items.bindM k (fun _ => Items.ret c)) remote log
  = match Items.bindM m (fun _ => k) remote log with
    | (log', Items.Normal _) => (log', Items.Normal c)
    | (log', Items.ClientError) => (log', Items.ClientError)
    | (log', Items.Stopped) => (log', Items.Stopped)
    end.
Proof.
  unfold Items.bindM, Items.ret.
  destruct (m remote log) as [l [a| |]]; reflexivity.
Qed.

(** What [update_item] does to the body of the page, whatever the
    service answers: nothing when both contents are given; otherwise
    reads, then deletions of identifiers that were read, then the
    batches of the two contents, up to the first call that throws. *)
Lemma update_item_content_spec (remote : Items.Remote) itemId
      (replace_content append_content : option jsstring) :
  exists reads ids blocks1 batches1 blocks2 batches2 n0 n1 n2 r,
    Items.run (Items.update_item_content itemId replace_content append_content)
              remote
    = (reads ++ map Items.deleteBlock (firstn n0 ids)
             ++ map (Items.appendBlockChildren itemId) (firstn n1 batches1)
             ++ map (Items.appendBlockChildren itemId) (firstn n2 batches2), r)
    /\ length reads <= 20
    /\ Forall (fun c => exists cur, c = Items.getBlockChildren itemId cur) reads
    /\ Forall (fun id => id <> [] /\ Listed remote itemId reads id) ids
    /\ (replace_content = None -> reads = [] /\ ids = [])
    /\ match replace_content with
       | Some text => markdownToBlocks text
       | None => Ok []
       end = Ok blocks1
    /\ Chunked BLOCKS_PER_BATCH blocks1 batches1
    /\ match append_content with
       | Some text => markdownToBlocks text
       | None => Ok []
       end = Ok blocks2
    /\ Chunked BLOCKS_PER_BATCH blocks2 batches2
    /\ (r = Items.ClientError
        /\ Items.truthy replace_content && Items.truthy append_content = false
        \/ r = Items.Normal Items.CannotUseBoth
           /\ Items.truthy replace_content && Items.truthy append_content = true
           /\ reads = [] /\ n0 = 0 /\ n1 = 0 /\ n2 = 0
        \/ r = Items.Normal Items.Updated
           /\ Items.truthy replace_content && Items.truthy append_content = false
           /\ firstn n0 ids = ids
           /\ (forall id, id <> [] -> Listed remote itemId reads id -> In id ids)
           /\ firstn n1 batches1 = batches1 /\ firstn n2 batches2 = batches2).
Proof.
  destruct (update_item_writes_spec remote itemId replace_content
                                    append_content)
    as (reads & ids & blocks1 & batches1 & blocks2 & batches2 & n0 & n1 & n2 & r
        & E & Hl & Hreads & Hids & Hnone & Hb1 & C1 & Hb2 & C2 & Hr).
  unfold Items.run, Items.update_item_content.
  destruct (Items.truthy replace_content && Items.truthy append_content) eqn:G.
  - exists [], [], blocks1, batches1, blocks2, batches2, 0, 0, 0,
      (Items.Normal Items.CannotUseBoth).
    split; [reflexivity|]. split; [simpl; lia|]. split; [constructor|].
    split; [constructor|]. split; [auto|].
    split; [exact Hb1|]. split; [exact C1|].
    split; [exact Hb2|]. split; [exact C2|].
    right. left. split; [reflexivity|]. split; [reflexivity|]. auto.
  - rewrite bindM_then, E.
    exists reads, ids, blocks1, batches1, blocks2, batches2, n0, n1, n2.
    destruct Hr as [->|(-> & H0 & Hc & H1 & H2)].
    + exists Items.ClientError.
      split; [reflexivity|]. split; [exact Hl|]. split; [exact Hreads|].
      split; [exact Hids|]. split; [exact Hnone|].
      split; [exact Hb1|]. split; [exact C1|].
      split; [exact Hb2|]. split; [exact C2|].
      left. split; reflexivity.
    + exists (Items.Normal Items.Updated).
      split; [reflexivity|]. split; [exact Hl|]. split; [exact Hreads|].
      split; [exact Hids|]. split; [exact Hnone|].
      split; [exact Hb1|]. split; [exact C1|].
      split; [exact Hb2|]. split; [exact C2|].
      right. right. split; [reflexivity|]. split; [reflexivity|]. auto.
Qed.

(** X19. Whatever the service answers, the [update_item] handler makes
    its calls on the body of the page in this order: at most 20 calls
    of [getBlockChildren] on the item, then calls of [deleteBlock],
    each on an identifier that is not empty and that an answer to one
    of those reads listed, then calls of [appendBlockChildren] on the
    item, each with between 1 and 100 blocks.  With both contents given
    (and not empty) it makes none of these calls and returns its error;
    without [replace_content] it reads and deletes nothing.  The
    conversion of the contents always returns. *)
Theorem update_item_content_calls (remote : Items.Remote) (itemId : jsstring)
        (replace_content append_content : option jsstring) :
  exists reads deletes appends r,
    Items.run (Items.update_item_content itemId replace_content append_content)
              remote
    = (reads ++ deletes ++ appends, r)
    /\ r <> Items.Stopped
    /\ length reads <= 20
    /\ Forall (fun c => exists cur, c = Items.getBlockChildren itemId cur) reads
    /\ Forall (fun c => exists id,
                          c = Items.deleteBlock id /\ id <> []
                          /\ Listed remote itemId reads id) deletes
    /\ Forall (fun c => exists batch,
                          c = Items.appendBlockChildren itemId batch
                          /\ 1 <= length batch <= 100) appends
    /\ (Items.truthy replace_content && Items.truthy append_content = true ->
        reads = [] /\ deletes = [] /\ appends = []
        /\ r = Items.Normal Items.CannotUseBoth)
    /\ (r = Items.Normal Items.CannotUseBoth ->
        Items.truthy replace_content && Items.truthy append_content = true)
    /\ (replace_content = None -> reads = [] /\ deletes = []).
Proof.
  destruct (update_item_content_spec remote itemId replace_content
                                     append_content)
    as (reads & ids & blocks1 & batches1 & blocks2 & batches2 & n0 & n1 & n2 & r
        & E & Hl & Hreads & Hids & Hnone & _ & C1 & _ & C2 & Hr).
  exists reads, (map Items.deleteBlock (firstn n0 ids)),
    (map (Items.appendBlockChildren itemId) (firstn n1 batches1)
     ++ map (Items.appendBlockChildren itemId) (firstn n2 batches2)), r.
  split; [exact E|].
  split; [destruct Hr as [[-> _]|[[-> _]|[-> _]]]; discriminate|].
  split; [exact Hl|]. split; [exact Hreads|].
  assert (Hbatches : forall n blocks batches,
             Chunked BLOCKS_PER_BATCH blocks batches ->
             Forall (fun c => exists batch,
                                c = Items.appendBlockChildren itemId batch
                                /\ 1 <= length batch <= 100)
                    (map (Items.appendBlockChildren itemId) (firstn n batches))).
  { intros n blocks batches C.
    apply Chunked_bounds in C; [|apply BLOCKS_PER_BATCH_pos].
    apply Forall_map. apply Forall_forall. intros batch Hin.
    apply firstn_member in Hin. rewrite Forall_forall in C.
    exists batch. split; [reflexivity|].
    destruct (C batch Hin) as [H1 H2]. unfold BLOCKS_PER_BATCH in H2. lia. }
  split; [|split; [|split; [|split]]].
  - apply Forall_map. apply Forall_forall. intros id Hin.
    apply firstn_member in Hin. rewrite Forall_forall in Hids.
    exists id. split; [reflexivity|]. apply (Hids id Hin).
  - apply Forall_app. split; eapply Hbatches; eauto.
  - intros G.
    destruct Hr as [[_ G']|[(-> & _ & -> & -> & -> & ->)|(_ & G' & _)]];
      try congruence.
    repeat split.
  - intros ->.
    destruct Hr as [[? _]|[(_ & G & _)|(? & _)]]; trivial; discriminate.
  - intros Hn. destruct (Hnone Hn) as [-> ->]. now rewrite firstn_nil.
Qed.

(** X20. When the [update_item] handler gets past its guard and to its
    end, at most one of the two contents was given (and not empty), and
    the blocks that its calls have appended to the page are, in order,
    the blocks of [markdownToBlocks(replace_content)] and then those of
    [markdownToBlocks(append_content)], a content that was not given
    counting for no blocks; and every identifier that is not empty and
    that an answer to one of its reads listed has been deleted. *)
Theorem update_item_content_done (remote : Items.Remote) (itemId : jsstring)
        (replace_content append_content : option jsstring)
        (log : list Items.Call) :
  Items.run (Items.update_item_content itemId replace_content append_content)
            remote
  = (log, Items.Normal Items.Updated) ->
  Items.truthy replace_content && Items.truthy append_content = false
  /\ exists blocks1 blocks2,
       match replace_content with
       | Some text => markdownToBlocks text
       | None => Ok []
       end = Ok blocks1
       /\ match append_content with
          | Some text => markdownToBlocks text
          | None => Ok []
          end = Ok blocks2
       /\ appended log = blocks1 ++ blocks2
       /\ forall id,
            id <> [] -> Listed remote itemId log id ->
            In (Items.deleteBlock id) log.
Proof.
  intros Hrun.
  destruct (update_item_content_spec remote itemId replace_content
                                     append_content)
    as (reads & ids & blocks1 & batches1 & blocks2 & batches2 & n0 & n1 & n2 & r
        & E & _ & Hreads & _ & _ & Hb1 & C1 & Hb2 & C2 & Hr).
  rewrite Hrun in E. injection E as -> <-.
  destruct Hr as [[Hr _]|[[Hr _]|(_ & G & -> & Hcomplete & -> & ->)]];
    try discriminate.
  split; [exact G|].
  exists blocks1, blocks2. split; [exact Hb1|]. split; [exact Hb2|]. split.
  - rewrite !appended_app, !appended_batches.
    rewrite (Chunked_concat C1), (Chunked_concat C2).
    rewrite !appended_none; trivial.
    + apply Forall_map. apply Forall_forall. discriminate.
    + eapply Forall_impl; [|exact Hreads]. intros c (cur & ->). discriminate.
  - intros id Hne Hin. apply Listed_reads in Hin.
    + apply in_or_app. right. apply in_or_app. left.
      apply in_map. now apply Hcomplete.
    + repeat (apply Forall_app; split); apply Forall_map; apply Forall_forall;
        discriminate.
Qed.

(** X21. The reads of [update_item] go through the children of the item
    page by page, for at most 20 pages: the first call of
    [getBlockChildren] passes no cursor, each next one passes the
    [next_cursor] of the answer before it.  When no call throws, the
    identifiers collected are the ones, not empty, that the answers
    list, and the reads stop before the 20th only at an answer without
    [has_more] or without [next_cursor]. *)
Theorem update_item_reads (remote : Items.Remote) (itemId : jsstring) :
  exists reads r,
    Items.run (Items.readLoop 20 0 itemId None []) remote = (reads, r)
    /\ length reads <= 20
    /\ Paged remote itemId [] None reads
    /\ (r = Items.ClientError
        \/ exists ids,
             r = Items.Normal ids
             /\ (forall id,
                    In id ids <-> id <> [] /\ Listed remote itemId reads id)
             /\ (length reads = 20
                 \/ exists before cur page,
                      reads = before ++ [Items.getBlockChildren itemId cur]
                      /\ remote before (Items.getBlockChildren itemId cur)
                         = Some page
                      /\ (Items.has_more page = Some true ->
                          Items.truthy (Items.next_cursor page) = false))).
Proof.
  destruct (@readLoop_spec remote itemId 20 0 None [] [])
    as (reads & r & E & Hl & Hp & Hr); [lia|lia|].
  exists reads, r. split; [exact E|]. split; [exact Hl|]. split; [exact Hp|].
  exact Hr.
Qed.

(** X22. The [children] that [create_item] passes to [createPage] are
    never an empty array: they are left out when no content is given
    and when the content is made of white space only, and they are the
    blocks of [markdownToBlocks(content)] otherwise. *)
Theorem create_item_children_spec (content : option jsstring) :
  exists children,
    Items.create_item_children content = Ok children
    /\ children <> Some []
    /\ (children = None
        <-> content = None
            \/ exists text,
                 content = Some text
                 /\ Forall (fun c => isWhiteSpace c = true) text)
    /\ forall blocks,
         children = Some blocks ->
         exists text, content = Some text /\ markdownToBlocks text = Ok blocks.
Proof.
  unfold Items.create_item_children.
  destruct content as [[|c s]|]; cbn [Items.truthy Schema.orDefault].
  - exists None. cbn. repeat split; try discriminate.
    intros _. right. exists []. auto.
  - destruct (markdownToBlocks_produced (c :: s)) as (blocks & Hb & _).
    rewrite Hb. cbn [bind].
    destruct blocks as [|b blocks].
    + exists None. cbn. repeat split; try discriminate.
      intros _. right. exists (c :: s). split; trivial.
      now apply markdownToBlocks_nil_iff.
    + exists (Some (b :: blocks)). cbn. repeat split; try discriminate.
      * intros [H|(text & [= <-] & H)]; [discriminate|].
        apply markdownToBlocks_nil_iff in H. congruence.
      * intros blocks' [= <-]. eauto.
  - exists None. cbn. repeat split; try discriminate. auto.
Qed.

(* ================================================================== *)
(** * The further properties at concrete inputs *)

(** [to_do_line] on [- [x] Done] after a space: alone, and before a
    line [next]. *)
Lemma to_do_line_witness :
  exists rt,
    parseInlineAnnotations (ch "D" :: str "one") = Ok rt
    /\ markdownToBlocks
         ([SP] ++ (ch "-" :: [SP] ++ ch "[" :: ch "x" :: ch "]" :: [SP]
                      ++ ch "D" :: str "one") ++ [LF])
       = Ok [richTextBlock (str "to_do") rt
               (Some (MkPayload None (Some (negb (chareq (ch "x") SP))) None))]
    /\ exists new,
         convertLoop 1 [str "next"] [] = Ok new
         /\ convertLoop 2
              [[SP] ++ (ch "-" :: [SP] ++ ch "[" :: ch "x" :: ch "]" :: [SP]
                           ++ ch "D" :: str "one") ++ [LF]; str "next"] []
            = Ok ([] ++ richTextBlock (str "to_do") rt
                          (Some (MkPayload None
                                   (Some (negb (chareq (ch "x") SP))) None))
                     :: new).
Proof.
  destruct (@to_do_line [SP] [LF] (ch "-") [SP] (ch "x") [SP] (ch "D")
              (str "one")
              ltac:(repeat constructor) ltac:(repeat constructor) eq_refl
              ltac:(repeat constructor) (le_n 1) eq_refl
              ltac:(repeat constructor) (le_n 1) eq_refl
              ltac:(repeat constructor) eq_refl)
    as (rt & Hrt & Hscan & Hone).
  exists rt. split; [exact Hrt|]. split.
  - apply Hone. vm_compute. intuition discriminate.
  - apply (Hscan [str "next"] 1 []). apply le_n.
Defined.

(** [bullet_line] on [* item] followed by a space: alone, and before a
    line [next]. *)
Lemma bullet_line_witness :
  exists rt,
    parseInlineAnnotations (ch "i" :: str "tem") = Ok rt
    /\ markdownToBlocks ([] ++ (ch "*" :: [SP] ++ ch "i" :: str "tem") ++ [SP])
       = Ok [richTextBlock (str "bulleted_list_item") rt None]
    /\ exists new,
         convertLoop 1 [str "next"] [] = Ok new
         /\ convertLoop 2
              [[] ++ (ch "*" :: [SP] ++ ch "i" :: str "tem") ++ [SP]; str "next"]
              []
            = Ok ([] ++ richTextBlock (str "bulleted_list_item") rt None :: new).
Proof.
  destruct (@bullet_line [] [SP] (ch "*") [SP] (ch "i") (str "tem")
              ltac:(repeat constructor) ltac:(repeat constructor) eq_refl
              ltac:(repeat constructor) (le_n 1) eq_refl ltac:(discriminate)
              ltac:(repeat constructor) eq_refl)
    as (rt & Hrt & Hscan & Hone).
  exists rt. split; [exact Hrt|]. split.
  - apply Hone. vm_compute. intuition discriminate.
  - apply (Hscan [str "next"] 1 []). apply le_n.
Defined.

(** [numbered_line] on [12. twelfth]: alone, and before a line [next]. *)
Lemma numbered_line_witness :
  exists rt,
    parseInlineAnnotations (ch "t" :: str "welfth") = Ok rt
    /\ markdownToBlocks
         ([] ++ ((ch "1" :: [ch "2"]) ++ ch "." :: [SP] ++ ch "t" :: str "welfth")
             ++ [])
       = Ok [richTextBlock (str "numbered_list_item") rt None]
    /\ exists new,
         convertLoop 1 [str "next"] [] = Ok new
         /\ convertLoop 2
              [[] ++ ((ch "1" :: [ch "2"]) ++ ch "." :: [SP]
                        ++ ch "t" :: str "welfth") ++ []; str "next"] []
            = Ok ([] ++ richTextBlock (str "numbered_list_item") rt None :: new).
Proof.
  destruct (@numbered_line [] [] (ch "1") [ch "2"] [SP] (ch "t") (str "welfth")
              ltac:(repeat constructor) ltac:(repeat constructor)
              ltac:(repeat constructor) ltac:(repeat constructor) (le_n 1)
              eq_refl ltac:(repeat constructor) eq_refl)
    as (rt & Hrt & Hscan & Hone).
  exists rt. split; [exact Hrt|]. split.
  - apply Hone. vm_compute. intuition discriminate.
  - apply (Hscan [str "next"] 1 []). apply le_n.
Defined.

(** [quote_line] on [> said], with a tab after the mark: alone, and
    before a line [next]. *)
Lemma quote_line_witness :
  exists rt,
    parseInlineAnnotations (ch "s" :: str "aid") = Ok rt
    /\ markdownToBlocks ([] ++ (ch ">" :: [TAB] ++ ch "s" :: str "aid") ++ [])
       = Ok [richTextBlock (str "quote") rt None]
    /\ exists new,
         convertLoop 1 [str "next"] [] = Ok new
         /\ convertLoop 2
              [[] ++ (ch ">" :: [TAB] ++ ch "s" :: str "aid") ++ []; str "next"]
              []
            = Ok ([] ++ richTextBlock (str "quote") rt None :: new).
Proof.
  destruct (@quote_line [] [] [TAB] (ch "s") (str "aid")
              ltac:(repeat constructor) ltac:(repeat constructor)
              ltac:(repeat constructor) (le_n 1) eq_refl
              ltac:(repeat constructor) eq_refl)
    as (rt & Hrt & Hscan & Hone).
  exists rt. split; [exact Hrt|]. split.
  - apply Hone. vm_compute. intuition discriminate.
  - apply (Hscan [str "next"] 1 []). apply le_n.
Defined.

(** [heading_line] on five hashes, two spaces and [Deep]: alone, and
    before a line [next]. *)
Lemma heading_line_witness :
  exists rt,
    parseInlineAnnotations (ch "D" :: str "eep") = Ok rt
    /\ markdownToBlocks
         ([] ++ (repeat hash 5 ++ [SP; SP] ++ ch "D" :: str "eep") ++ [])
       = Ok [richTextBlock (str "heading_" ++ numberToString (Nat.min 5 3))
                           rt None]
    /\ exists new,
         convertLoop 1 [str "next"] [] = Ok new
         /\ convertLoop 2
              [[] ++ (repeat hash 5 ++ [SP; SP] ++ ch "D" :: str "eep") ++ [];
               str "next"] []
            = Ok ([] ++ richTextBlock
                          (str "heading_" ++ numberToString (Nat.min 5 3))
                          rt None
                     :: new).
Proof.
  destruct (@heading_line [] [] 5 [SP; SP] (ch "D") (str "eep")
              ltac:(repeat constructor) ltac:(repeat constructor)
              ltac:(lia) ltac:(lia) ltac:(repeat constructor) ltac:(simpl; lia)
              eq_refl ltac:(repeat constructor) eq_refl)
    as (rt & Hrt & Hscan & Hone).
  exists rt. split; [exact Hrt|]. split.
  - apply Hone. vm_compute. intuition discriminate.
  - apply (Hscan [str "next"] 1 []). apply le_n.
Defined.

(** [closed_fence] on a fence tagged [js] around two lines, the second
    one empty: alone, and before a heading. *)
Lemma closed_fence_witness :
  exists rt,
    concat (map content rt) = join [LF] [str "  let x"; []]
    /\ Forall (fun seg => annotations seg = None) rt
    /\ markdownToBlocks
         (join [LF] ((str "```" ++ str "js") :: [str "  let x"; []]
                       ++ [str "```"]))
       = Ok [makeBlock (str "code")
               (MkPayload (Some rt) None
                  (Some (if isEmpty (str "js")
                         then str "plain text" else str "js")))]
    /\ exists new,
         convertLoop 1 [str "# T"] [] = Ok new
         /\ convertLoop 2
              ((str "```" ++ str "js") :: [str "  let x"; []]
                 ++ str "```" :: [str "# T"]) []
            = Ok ([] ++ makeBlock (str "code")
                          (MkPayload (Some rt) None
                             (Some (if isEmpty (str "js")
                                    then str "plain text" else str "js")))
                     :: new).
Proof.
  destruct (@closed_fence (str "js") [str "  let x"; []]
              ltac:(repeat constructor)
              ltac:(repeat constructor; discriminate))
    as (rt & Hcontent & Hplain & Hscan & Hone).
  exists rt. split; [exact Hcontent|]. split; [exact Hplain|]. split.
  - apply Hone. repeat constructor; discriminate.
  - apply (Hscan [str "# T"] 1 []). apply le_n.
Defined.

(** [outer_whitespace_ignored] on a heading between blank lines. *)
Lemma outer_whitespace_ignored_witness :
  markdownToBlocks ([SP; LF] ++ str "# T" ++ [LF; LF])
  = markdownToBlocks (str "# T")
  /\ markdownToBlocksBatched ([SP; LF] ++ str "# T" ++ [LF; LF])
     = markdownToBlocksBatched (str "# T").
Proof.
  refine (@outer_whitespace_ignored [SP; LF] (str "# T") [LF; LF] _ _);
    repeat constructor.
Defined.

(** [blank_line_skipped] on a space and a tab, before a line [a]. *)
Lemma blank_line_skipped_witness :
  convertLoop 2 [[SP; TAB]; str "a"] [] = convertLoop 1 [str "a"] [].
Proof.
  refine (@blank_line_skipped [SP; TAB] [str "a"] 1 [] _); repeat constructor.
Defined.

(** [crlf_as_lf] on the lines [a] and [b]. *)
Lemma crlf_as_lf_witness :
  split linePattern (join [LF] [str "a"; str "b"]) = Ok [str "a"; str "b"]
  /\ split linePattern (join [CR; LF] [str "a"; str "b"]) = Ok [str "a"; str "b"]
  /\ markdownToBlocks (join [CR; LF] [str "a"; str "b"])
     = markdownToBlocks (join [LF] [str "a"; str "b"]).
Proof.
  refine (match @crlf_as_lf (str "a") [str "b"] _ with
          | conj H1 (conj H2 H3) => conj H1 (conj H2 (H3 _ _))
          end); try reflexivity.
  repeat constructor; discriminate.
Defined.

(** [update_item_content_done] on the page with one child, replaced by
    a paragraph. *)
Lemma update_item_content_done_witness :
  Items.truthy (Some (str "hi")) && Items.truthy None = false
  /\ exists blocks1 blocks2,
    markdownToBlocks (str "hi") = Ok blocks1
    /\ Ok [] = Ok blocks2
    /\ appended [Items.getBlockChildren (str "page") None;
                 Items.deleteBlock (str "b1");
                 Items.appendBlockChildren (str "page")
                   [richTextBlock (str "paragraph") [plainSegment (str "hi")]
                                  None]]
       = blocks1 ++ blocks2
    /\ forall id,
         id <> [] ->
         Listed onePage (str "page")
                [Items.getBlockChildren (str "page") None;
                 Items.deleteBlock (str "b1");
                 Items.appendBlockChildren (str "page")
                   [richTextBlock (str "paragraph") [plainSegment (str "hi")]
                                  None]] id ->
         In (Items.deleteBlock id)
            [Items.getBlockChildren (str "page") None;
             Items.deleteBlock (str "b1");
             Items.appendBlockChildren (str "page")
               [richTextBlock (str "paragraph") [plainSegment (str "hi")]
                              None]].
Proof.
  refine (@update_item_content_done onePage (str "page") (Some (str "hi")) None
                                    _ _).
  vm_compute. reflexivity.
Defined.

(* ================================================================== *)
(** * The schema and the handlers, run on examples *)

Example extractCollectionSchema_example :
  Schema.extractCollectionSchema
    (Schema.MkDatabase
       (Some (str "db1"))
       (Some [Schema.MkTitlePart (Some (str "My")); Schema.MkTitlePart None;
              Schema.MkTitlePart (Some (str " tasks"))])
       (Some [(str "Name",
               Schema.MkProperty (Some (str "title")) None None None);
              (str "Stage",
               Schema.MkProperty
                 (Some (str "select"))
                 (Some (Schema.MkOptionsHolder
                          (Some [Schema.MkOptionEntry (Some (str "Open"));
                                 Schema.MkOptionEntry None;
                                 Schema.MkOptionEntry (Some []);
                                 Schema.MkOptionEntry (Some (str "Done"))])))
                 None None);
              (str "Tags",
               Schema.MkProperty (Some (str "multi_select")) None None None);
              (str "Other", Schema.MkProperty None None None None)]))
  = Schema.MkSchema
      (str "db1") (Some (str "My tasks"))
      [Schema.MkField (str "Name") (str "title") None;
       Schema.MkField (str "Stage") (str "select")
                      (Some [str "Open"; str "Done"]);
       Schema.MkField (str "Tags") (str "multi_select") (Some []);
       Schema.MkField (str "Other") (str "unknown") None].
Proof. vm_compute. reflexivity. Qed.

Example extractCollectionSchema_bare :
  Schema.extractCollectionSchema (Schema.MkDatabase None (Some []) None)
  = Schema.MkSchema [] None [].
Proof. reflexivity. Qed.

Example update_item_two_pages :
  Items.run (Items.update_item_content (str "page") (Some (str "hi"))
                                       (Some []))
            twoPages
  = ([Items.getBlockChildren (str "page") None;
      Items.getBlockChildren (str "page") (Some (str "c2"));
      Items.deleteBlock (str "b1");
      Items.deleteBlock (str "b2");
      Items.appendBlockChildren (str "page")
        [richTextBlock (str "paragraph") [plainSegment (str "hi")] None]],
     Items.Normal Items.Updated).
Proof. vm_compute. reflexivity. Qed.

Example update_item_both_contents :
  Items.run (Items.update_item_content (str "page") (Some (str "a"))
                                       (Some (str "b")))
            onePage
  = ([], Items.Normal Items.CannotUseBoth).
Proof. reflexivity. Qed.

Example update_item_clears_then_appends :
  Items.run (Items.update_item_content (str "page") (Some [])
                                       (Some (str "hi")))
            onePage
  = ([Items.getBlockChildren (str "page") None; Items.deleteBlock (str "b1");
      Items.appendBlockChildren (str "page")
        [richTextBlock (str "paragraph") [plainSegment (str "hi")] None]],
     Items.Normal Items.Updated).
Proof. vm_compute. reflexivity. Qed.

Example update_item_clears :
  Items.run (Items.update_item_content (str "page") (Some []) None) onePage
  = ([Items.getBlockChildren (str "page") None; Items.deleteBlock (str "b1")],
     Items.Normal Items.Updated).
Proof. vm_compute. reflexivity. Qed.

Example update_item_endless :
  Items.run (Items.update_item_content (str "page") (Some (str "hi")) None)
            endless
  = (Items.getBlockChildren (str "page") None
       :: repeat (Items.getBlockChildren (str "page") (Some (str "next"))) 19
       ++ repeat (Items.deleteBlock (str "b")) 20
       ++ [Items.appendBlockChildren (str "page")
             [richTextBlock (str "paragraph") [plainSegment (str "hi")] None]],
     Items.Normal Items.Updated).
Proof. vm_compute. reflexivity. Qed.

Example create_item_children_blank :
  Items.create_item_children (Some [SP; LF]) = Ok None
  /\ Items.create_item_children None = Ok None
  /\ Items.create_item_children (Some (str "hi"))
     = Ok (Some [richTextBlock (str "paragraph") [plainSegment (str "hi")] None]).
Proof. repeat split; vm_compute; reflexivity. Qed.
